(** * PokerAnalytics: a shallow embedding of the per-hand core

    The development follows the Python sources module by module:

    - [BetSizing]      : src/poker_analytics/data/bet_sizing.py
    - [Cards]          : src/poker_analytics/data/cards.py
    - [Textures]       : src/poker_analytics/data/textures.py
    - [CbetUtils]      : analysis/cbet_utils.py (hand classifier, c-bet loader)
    - [OpponentPerformance], [OpponentStats] :
                         src/poker_analytics/services/opponent_performance.py
    - [FlopMatrix], [FlopCollect] :
                         src/poker_analytics/services/flop_response_matrix_builder.py
    - [FlopResponseMatrix] : src/poker_analytics/services/flop_response_matrix.py
    - [FlopLoader]     : src/poker_analytics/services/flop_loader.py

    Conventions.  Python [str] is [string]; an XML attribute that is missing
    ([None]) and one that is empty are both falsy everywhere the sources test
    them, so both are the empty string here.  Money amounts are exact rationals
    ([Q]); the properties below are about control flow and comparisons, not
    about rounding.  Python [dict] is [gmap], [set] is [gset], [Counter] is an
    insertion-ordered association list.  Where the code tests the type of a
    value at run time, the value is a [PyObj.pyobj]; what [float] and [int]
    make of a string, and the order in which a set of strings is iterated, are
    parameters of the functions that depend on them. *)

From Stdlib Require Import Ascii String QArith Qabs.
From stdpp Require Import gmap strings list fin_maps pretty sorting.

Local Open Scope string_scope.
Local Open Scope list_scope.

(** ** Python helpers shared by the modules *)

Module Py.

(** [sorted(xs, key=key)]: a stable insertion sort, ascending in the key. *)
Fixpoint insert_by {A} (key : A -> Z) (x : A) (l : list A) : list A :=
  match l with
  | [] => [x]
  | y :: l' => if (key x <=? key y)%Z then x :: y :: l' else y :: insert_by key x l'
  end.

Definition sorted_by {A} (key : A -> Z) (l : list A) : list A :=
  foldr (insert_by key) [] l.

(** [sorted(xs, reverse=True)] on integers. *)
Fixpoint insert_desc (x : nat) (l : list nat) : list nat :=
  match l with
  | [] => [x]
  | y :: l' => if (y <=? x)%nat then x :: y :: l' else y :: insert_desc x l'
  end.

Definition sorted_desc (l : list nat) : list nat := foldr insert_desc [] l.

(** [Counter(xs)]: keys in first-occurrence order, each with its count. *)
Fixpoint counter_add {K} `{EqDecision K} (k : K) (c : list (K * nat)) : list (K * nat) :=
  match c with
  | [] => [(k, 1%nat)]
  | (k', n) :: c' => if decide (k = k') then (k', S n) :: c' else (k', n) :: counter_add k c'
  end.

Definition Counter {K} `{EqDecision K} (xs : list K) : list (K * nat) :=
  foldl (fun c k => counter_add k c) [] xs.

Definition values {K V} (c : list (K * V)) : list V := c.*2.

(** [c.get(k, 0)]. *)
Fixpoint get0 {K} `{EqDecision K} (c : list (K * nat)) (k : K) : nat :=
  match c with
  | [] => 0%nat
  | (k', n) :: c' => if decide (k = k') then n else get0 c' k
  end.

(** [any(f(x) for x in xs)] and [all(...)]. *)
Definition any {A} (f : A -> bool) (xs : list A) : bool := existsb f xs.
Definition all {A} (f : A -> bool) (xs : list A) : bool := forallb f xs.

(** [x in xs] for a list or a literal set of strings. *)
Definition inb {A} `{EqDecision A} (x : A) (xs : list A) : bool := bool_decide (x ∈ xs).

(** Truthiness of a string: [if s]. *)
Definition truthy (s : string) : bool := negb (String.eqb s "").

(** [amount > 0] on rationals. *)
Definition Qpos (q : Q) : bool := negb (Qle_bool q 0).

End Py.

(** ** bet_sizing.py *)

Module BetSizing.

(** A Python float as far as comparisons see it: a rational, an infinity or
    NaN.  Comparisons with NaN are false, [!=] with NaN is true. *)
Inductive pyfloat : Type :=
| Fin (q : Q)
| PosInf
| NegInf
| NaN.

Definition flt (a b : pyfloat) : bool :=
  match a, b with
  | NaN, _ | _, NaN => false
  | Fin p, Fin q => negb (Qle_bool q p)
  | NegInf, NegInf => false
  | NegInf, _ => true
  | _, NegInf => false
  | PosInf, _ => false
  | Fin _, PosInf => true
  end.

Definition feq (a b : pyfloat) : bool :=
  match a, b with
  | Fin p, Fin q => Qeq_bool p q
  | PosInf, PosInf => true
  | NegInf, NegInf => true
  | _, _ => false
  end.

Definition fne (a b : pyfloat) : bool := negb (feq a b).

Definition fge (a b : pyfloat) : bool :=
  match a, b with
  | NaN, _ | _, NaN => false
  | _, _ => negb (flt a b)
  end.

Record BetSizeBucket : Type := mkBucket {
  key : string;
  label : string;
  lower : pyfloat;
  upper : pyfloat
}.

(** [BetSizeBucket.contains]. *)
Definition contains (self : BetSizeBucket) (ratio : pyfloat) : bool :=
  if flt ratio (lower self) then false
  else if feq (upper self) PosInf then fge ratio (lower self)
  else flt ratio (upper self).

Definition BET_SIZE_BUCKETS : list BetSizeBucket := [
  mkBucket "pct_0_25" "0-25%" (Fin 0.00) (Fin 0.25);
  mkBucket "pct_25_40" "25-40%" (Fin 0.25) (Fin 0.40);
  mkBucket "pct_40_60" "40-60%" (Fin 0.40) (Fin 0.60);
  mkBucket "pct_60_80" "60-80%" (Fin 0.60) (Fin 0.80);
  mkBucket "pct_80_100" "80-100%" (Fin 0.80) (Fin 1.00);
  mkBucket "pct_100_125" "100-125%" (Fin 1.00) (Fin 1.25);
  mkBucket "pct_125_200" "125-200%" (Fin 1.25) (Fin 2.00);
  mkBucket "pct_200_300" "200-300%" (Fin 2.00) (Fin 3.00);
  mkBucket "pct_300_plus" "300%+" (Fin 3.00) PosInf
].

(** [bucket_for_ratio]: [None] is Python's [None]. *)
Definition bucket_for_ratio (ratio : option pyfloat) : option BetSizeBucket :=
  match ratio with
  | None => None
  | Some r =>
      if fne r r then None
      else if flt r (Fin 0) then None
      else match List.find (fun b => contains b r) BET_SIZE_BUCKETS with
           | Some b => Some b
           | None => last BET_SIZE_BUCKETS
           end
  end.

End BetSizing.

(** ** Python string methods on ASCII text *)

Module PyStr.

Definition code (c : ascii) : nat := nat_of_ascii c.

(** [str.isspace] on the ASCII range: TAB, LF, VT, FF, CR, FS, GS, RS, US, space. *)
Definition is_space (c : ascii) : bool :=
  Py.inb (code c) [9; 10; 11; 12; 13; 28; 29; 30; 31; 32]%nat.

(** [c.upper()] for one ASCII character. *)
Definition upper_char (c : ascii) : ascii :=
  if ((97 <=? code c) && (code c <=? 122))%nat then ascii_of_nat (code c - 32) else c.

Fixpoint upper (s : string) : string :=
  match s with
  | EmptyString => EmptyString
  | String c s' => String (upper_char c) (upper s')
  end.

(** [s.split()]: maximal runs of non-whitespace characters. *)
Fixpoint split_from (cur : string) (s : string) : list string :=
  match s with
  | EmptyString => if Py.truthy cur then [cur] else []
  | String c s' =>
      if is_space c
      then (if Py.truthy cur then cur :: split_from EmptyString s' else split_from EmptyString s')
      else split_from (String.append cur (String c EmptyString)) s'
  end.

Definition split (s : string) : list string := split_from EmptyString s.

Fixpoint lstrip (s : string) : string :=
  match s with
  | EmptyString => EmptyString
  | String c s' => if is_space c then lstrip s' else s
  end.

Fixpoint rev_string (acc s : string) : string :=
  match s with
  | EmptyString => acc
  | String c s' => rev_string (String c acc) s'
  end.

Definition rstrip (s : string) : string :=
  rev_string EmptyString (lstrip (rev_string EmptyString s)).

Definition strip (s : string) : string := rstrip (lstrip s).

(** [s.replace(c, "")] and [s.replace(c, d)] for single characters. *)
Fixpoint remove_char (c : ascii) (s : string) : string :=
  match s with
  | EmptyString => EmptyString
  | String x s' => if Ascii.eqb x c then remove_char c s' else String x (remove_char c s')
  end.

Fixpoint replace_char (c d : ascii) (s : string) : string :=
  match s with
  | EmptyString => EmptyString
  | String x s' => String (if Ascii.eqb x c then d else x) (replace_char c d s')
  end.

(** [s.replace("10", "T")]: left to right, without overlap. *)
Fixpoint replace_10_T (s : string) : string :=
  match s with
  | EmptyString => EmptyString
  | String x s' =>
      match s' with
      | String y s'' =>
          if (Ascii.eqb x "1" && Ascii.eqb y "0")%bool
          then String "T" (replace_10_T s'')
          else String x (replace_10_T s')
      | EmptyString => String x EmptyString
      end
  end.

(** [c.lower()] for one ASCII character, and [s.lower()]. *)
Definition lower_char (c : ascii) : ascii :=
  if ((65 <=? code c) && (code c <=? 90))%nat then ascii_of_nat (code c + 32) else c.

Fixpoint lower (s : string) : string :=
  match s with
  | EmptyString => EmptyString
  | String c s' => String (lower_char c) (lower s')
  end.

(** [s[-1]] of a non-empty string. *)
Fixpoint last_char (s : string) : option ascii :=
  match s with
  | EmptyString => None
  | String c EmptyString => Some c
  | String _ s' => last_char s'
  end.

End PyStr.

(** ** cards.py *)

Module Cards.

Definition SUITS : list ascii := ["S"; "H"; "D"; "C"]%char.

Definition CARD_RANKS : list (ascii * nat) :=
  [("2", 2); ("3", 3); ("4", 4); ("5", 5); ("6", 6); ("7", 7); ("8", 8);
   ("9", 9); ("T", 10); ("J", 11); ("Q", 12); ("K", 13); ("A", 14)]%char%nat.

Fixpoint rank_lookup (table : list (ascii * nat)) (c : ascii) : option nat :=
  match table with
  | [] => None
  | (k, v) :: t => if Ascii.eqb c k then Some v else rank_lookup t c
  end.

(** A parsed card: [(suit, rank_value, token)]. *)
Definition card : Type := ascii * nat * string.

Definition card_suit (c : card) : ascii := c.1.1.
Definition card_rank (c : card) : nat := c.1.2.
Definition card_token (c : card) : string := c.2.

(** The tokens the loop of [parse_cards_text] runs over. *)
Definition parts_of (text : string) : list string :=
  omap (fun p => if Py.truthy (PyStr.strip p) then Some (PyStr.strip p) else None)
       (PyStr.split text).

(** The loop of [parse_cards_text]; [return []] leaves it at once. *)
Fixpoint parse_loop (parts : list string) (cards : list card) : list card :=
  match parts with
  | [] => cards
  | part :: rest =>
      match part with
      | String c0 (String c1 EmptyString) =>
          let suit := PyStr.upper_char c0 in
          let rank := PyStr.upper_char c1 in
          match rank_lookup CARD_RANKS rank with
          | Some v =>
              if Py.inb suit SUITS
              then parse_loop rest (cards ++ [(suit, v, String suit (String rank EmptyString))])
              else []
          | None => []
          end
      | _ => []
      end
  end.

(** [parse_cards_text]; [None] and the empty string are both falsy. *)
Definition parse_cards_text (text : option string) : list card :=
  match text with
  | None => []
  | Some t => if Py.truthy t then parse_loop (parts_of t) [] else []
  end.

(** A token is well formed when it has exactly two characters, a suit letter
    then a rank character, in either case. *)
Definition well_formed_token (p : string) : bool :=
  match p with
  | String c0 (String c1 EmptyString) =>
      Py.inb (PyStr.upper_char c0) SUITS
      && bool_decide (is_Some (rank_lookup CARD_RANKS (PyStr.upper_char c1)))
  | _ => false
  end.

End Cards.

(** ** textures.py *)

Module Textures.

Definition RANK_VALUES : list (ascii * nat) := Cards.CARD_RANKS.
Definition SUIT_CHARS : list ascii := ["C"; "D"; "H"; "S"]%char.
Definition BROADWAY_RANKS : list ascii := ["J"; "Q"; "K"; "A"]%char.

Record Card : Type := mkCard { rank : ascii; suit : ascii }.

(** [Card.rank_value].  Python raises [KeyError] for a rank outside
    [RANK_VALUES]; cards built by [_parse_token] never have one, and the
    lookup defaults to 0 here. *)
Definition rank_value (c : Card) : nat :=
  default 0%nat (Cards.rank_lookup RANK_VALUES (rank c)).

Definition in_ranks (c : ascii) : bool :=
  bool_decide (is_Some (Cards.rank_lookup RANK_VALUES c)).

Definition first_char (s : string) : option ascii :=
  match s with String c _ => Some c | EmptyString => None end.

(** [_parse_token]. *)
Definition _parse_token (raw : string) : option Card :=
  let token := PyStr.remove_char "/" (PyStr.strip raw) in
  if negb (Py.truthy token) then None
  else
    let token := PyStr.replace_10_T (PyStr.upper token) in
    match token with
    | String first (String second _) =>
        if in_ranks first && Py.inb second SUIT_CHARS then Some (mkCard first second)
        else if Py.inb first SUIT_CHARS && in_ranks second then Some (mkCard second first)
        else
          match PyStr.last_char token with
          | Some l => if Py.inb l SUIT_CHARS && in_ranks first then Some (mkCard first l) else None
          | None => None
          end
    | _ => None
    end.

(** [parse_flop]: tokens that do not parse are left out of the result. *)
Definition parse_flop (text : option string) : list Card :=
  match text with
  | None => []
  | Some t =>
      if negb (Py.truthy t) then []
      else
        let parts := PyStr.split (PyStr.replace_char "009" " " t) in
        omap _parse_token parts
  end.

(** [len({card.suit for card in cards})]. *)
Definition suit_count (cards : list Card) : nat :=
  size (list_to_set (suit <$> cards) : gset ascii).

Definition _has_pair (cards : list Card) : bool :=
  let ranks := rank <$> cards in
  negb (length ranks =? size (list_to_set ranks : gset ascii))%nat.

Definition list_min (l : list nat) : nat := foldr Nat.min (hd 0%nat l) l.
Definition list_max (l : list nat) : nat := foldr Nat.max 0%nat l.

(** [_is_connected]: [values[-1] - values[0]] is the spread of the ranks. *)
Definition _is_connected (cards : list Card) : bool :=
  if negb (length cards =? 3)%nat then false
  else
    let values := rank_value <$> cards in
    if (list_max values - list_min values <=? 4)%nat then true
    else if Py.inb 14%nat values then
      let wheel := (fun v => if (v =? 14)%nat then 1%nat else v) <$> values in
      (list_max wheel - list_min wheel <=? 4)%nat
    else false.

Definition _two_broadways (cards : list Card) : bool :=
  (2 <=? length (filter (fun c => Py.inb (rank c) BROADWAY_RANKS = true) cards))%nat.

Record TextureSpec : Type := mkSpec {
  key : string;
  title : string;
  description : string;
  predicate : list Card -> bool
}.

Definition rainbow_pred (cards : list Card) : bool := (suit_count cards =? 3)%nat.
Definition monotone_pred (cards : list Card) : bool :=
  (suit_count cards =? 1)%nat && (length cards =? 3)%nat.
Definition two_tone_pred (cards : list Card) : bool := (suit_count cards =? 2)%nat.
Definition ace_high_pred (cards : list Card) : bool :=
  negb (length cards =? 0)%nat && (list_max (rank_value <$> cards) =? 14)%nat.
Definition low_pred (cards : list Card) : bool :=
  negb (length cards =? 0)%nat && Py.all (fun c => (rank_value c <=? 10)%nat) cards.

Definition FLOP_TEXTURE_SPECS : list TextureSpec := [
  mkSpec "rainbow" "Rainbow Flops"
         "Exactly three suits represented on the flop." rainbow_pred;
  mkSpec "monotone" "Monotone Flops"
         "All three cards share the same suit." monotone_pred;
  mkSpec "two_tone" "Two-Tone Flops"
         "Exactly two suits present." two_tone_pred;
  mkSpec "paired" "Paired Flops"
         "Any rank appears at least twice." _has_pair;
  mkSpec "connected" "Connected Flops"
         "Rank spread within four cards (Ace can play low)." _is_connected;
  mkSpec "ace_high" "Ace-High Flops"
         "An Ace is present and is the highest rank." ace_high_pred;
  mkSpec "low" "Low Flops (All <= Ten)"
         "No card higher than Ten." low_pred;
  mkSpec "high" "High Flops (>=2 Broadways)"
         "At least two Broadway ranks (J, Q, K, A)." _two_broadways
].

(** [detect_textures] after parsing, and on the raw text. *)
Definition textures_of_cards (cards : list Card) : list TextureSpec :=
  if negb (length cards =? 3)%nat then []
  else List.filter (fun spec => predicate spec cards) FLOP_TEXTURE_SPECS.

Definition detect_textures (flop_text : option string) : list TextureSpec :=
  textures_of_cards (parse_flop flop_text).

Definition texture_keys (flop_text : option string) : list string :=
  key <$> detect_textures flop_text.

End Textures.

(** ** cbet_utils.py: the hand-strength classifier *)

Module CbetUtils.

Definition SUITS : list ascii := Cards.SUITS.
Definition CARD_RANKS : list (ascii * nat) := Cards.CARD_RANKS.
Definition BET_TYPES : list string := ["5"; "7"].
Definition RAISE_TYPES : list string := ["23"; "7"].
Definition CALL_TYPES : list string := ["3"].
Definition FOLD_TYPES : list string := ["0"; "4"].

Abbreviation card := Cards.card.
Abbreviation card_suit := Cards.card_suit.
Abbreviation card_rank := Cards.card_rank.
Abbreviation card_token := Cards.card_token.

(** The loop of [_parse_cards]: as in cards.py, but case-sensitive, and the
    token is kept as written. *)
Fixpoint parse_loop (parts : list string) (cards : list card) : list card :=
  match parts with
  | [] => cards
  | part :: rest =>
      match part with
      | String suit (String rank EmptyString) =>
          match Cards.rank_lookup CARD_RANKS rank with
          | Some v =>
              if Py.inb suit SUITS then parse_loop rest (cards ++ [(suit, v, part)]) else []
          | None => []
          end
      | _ => []
      end
  end.

Definition _parse_cards (text : option string) : list card :=
  match text with
  | None => []
  | Some t => if Py.truthy t then parse_loop (Cards.parts_of t) [] else []
  end.

(** [_has_flush]. *)
Definition _has_flush (cards : list card) : bool :=
  let counts := Py.Counter (card_suit <$> cards) in
  Py.any (fun v => (5 <=? v)%nat) (Py.values counts).

(** [_has_flush_draw]: [total] is filled from the hole cards, then the board. *)
Definition _has_flush_draw (hole board : list card) : bool :=
  let hole_suits := Py.Counter (card_suit <$> hole) in
  let total := Py.Counter ((card_suit <$> hole) ++ (card_suit <$> board)) in
  Py.any (fun '(suit, count) => (4 <=? count)%nat && (0 <? Py.get0 hole_suits suit)%nat) total.

(** [range(a, b)]. *)
Definition range (a b : nat) : list nat := seq a (b - a).

Definition with_wheel (s : gset nat) : gset nat :=
  if bool_decide (14%nat ∈ s) then s ∪ {[1%nat]} else s.

(** [_straight_info]: (made straight, open-ended straight draw). *)
Definition _straight_info (hole board : list card) : bool * bool :=
  let ranks := card_rank <$> (hole ++ board) in
  let unique := with_wheel (list_to_set ranks) in
  let straight :=
    Py.any (fun start => Py.all (fun offset => bool_decide ((start + offset)%nat ∈ unique)) (range 0 5))
           (range 1 11) in
  if straight then (true, false)
  else
    let hole_ranks := with_wheel (list_to_set (card_rank <$> hole)) in
    if Py.any (fun start =>
                 let window : gset nat := list_to_set [start; start + 1; start + 2; start + 3]%nat in
                 bool_decide (window ⊆ unique) && negb (bool_decide (window ∩ hole_ranks = ∅))
                 && ((1 <=? start - 1)%nat && (start + 4 <=? 14)%nat))
              (range 1 12)
    then (false, true)
    else (false, false).

Inductive Primary : Type :=
| Air | Underpair | BottomPair | MiddlePair | TopPair | Overpair
| TwoPair | TripsSet | Straight | Flush | FullHouse | Quads.

(** The label the source stores under ["primary"]. *)
Definition primary_label (p : Primary) : string :=
  match p with
  | Air => "Air" | Underpair => "Underpair" | BottomPair => "Bottom Pair"
  | MiddlePair => "Middle Pair" | TopPair => "Top Pair" | Overpair => "Overpair"
  | TwoPair => "Two Pair" | TripsSet => "Trips/Set" | Straight => "Straight"
  | Flush => "Flush" | FullHouse => "Full House" | Quads => "Quads"
  end.

Record Classification : Type := mkClassification {
  primary : Primary;
  flush_draw : bool;
  oesd : bool;
  made_flush : bool;
  made_straight : bool;
  made_full : bool
}.

(** [sorted(set(board_ranks), reverse=True)]. *)
Definition board_unique_of (board : list card) : list nat :=
  Py.sorted_desc (elements (list_to_set (card_rank <$> board) : gset nat)).

(** [len(hole_ranks) == 2 and hole_ranks[0] == hole_ranks[1]]. *)
Definition hole_pair_of (hole_ranks : list nat) : bool :=
  match hole_ranks with
  | [a; b] => (a =? b)%nat
  | _ => false
  end.

(** [x is not None and any(r == x for r in hole_ranks)]. *)
Definition matches_hole (x : option nat) (hole_ranks : list nat) : bool :=
  match x with
  | Some m => Py.any (fun r => (r =? m)%nat) hole_ranks
  | None => false
  end.

(** [_classify_hand]. *)
Definition _classify_hand (hole board : list card) : Classification :=
  let combined := hole ++ board in
  let rank_counts := Py.Counter (card_rank <$> combined) in
  let board_unique := board_unique_of board in
  let hole_ranks := card_rank <$> hole in
  let hole_pair := hole_pair_of hole_ranks in

  let made_flush := _has_flush combined in
  let '(straight, oesd) := _straight_info hole board in
  let flush_draw := if made_flush then false else _has_flush_draw hole board in

  let counts_sorted := Py.sorted_desc (Py.values rank_counts) in
  let made_four := Py.any (fun v => (4 <=? v)%nat) (Py.values rank_counts) in
  let made_full :=
    match counts_sorted with
    | c0 :: c1 :: _ => (3 <=? c0)%nat && (2 <=? c1)%nat
    | _ => false
    end in
  let made_trips_only :=
    Py.any (fun v => (3 <=? v)%nat) (Py.values rank_counts) && negb made_full && negb made_four in
  let made_two_pair :=
    (2 <=? length (List.filter (fun v => (2 <=? v)%nat) (Py.values rank_counts)))%nat
    && negb made_full && negb made_four in

  let max_board := board_unique !! 0%nat in
  let second_board := board_unique !! 1%nat in
  let third_board := board_unique !! 2%nat in

  let overpair :=
    match max_board with
    | Some m =>
        hole_pair && (m <? hd 0%nat hole_ranks)%nat
        && negb made_two_pair && negb made_full && negb made_four
    | None => false
    end in

  let top_pair :=
    negb (made_full || made_four || made_trips_only || made_two_pair || overpair)
    && matches_hole max_board hole_ranks in

  let middle_pair :=
    negb (made_full || made_four || made_trips_only || made_two_pair || overpair || top_pair)
    && matches_hole second_board hole_ranks in

  let bottom_pair :=
    negb (made_full || made_four || made_trips_only || made_two_pair || overpair || top_pair
          || middle_pair)
    && matches_hole third_board hole_ranks in

  let underpair :=
    match max_board with
    | Some m =>
        hole_pair && (hd 0%nat hole_ranks <? m)%nat
        && negb made_full && negb made_four && negb made_trips_only
    | None => false
    end in

  let primary :=
    if made_full then FullHouse
    else if made_four then Quads
    else if made_flush then Flush
    else if straight then Straight
    else if made_trips_only then TripsSet
    else if made_two_pair then TwoPair
    else if overpair then Overpair
    else if top_pair then TopPair
    else if middle_pair then MiddlePair
    else if bottom_pair then BottomPair
    else if underpair then Underpair
    else Air in

  mkClassification primary flush_draw oesd made_flush straight made_full.

End CbetUtils.

(** ** The hand-history records both walkers read *)

Module HandHistory.

(** [<action player=... type=... sum=.../>]; [sum] is the parsed amount
    ([float(sum or 0.0)], 0.0 when it does not parse). *)
Record Action : Type := mkAction {
  player : string;
  atype : string;
  sum : Q
}.

(** [<cards player=... type=...>text</cards>]. *)
Record CardsNode : Type := mkCardsNode {
  cn_player : string;
  cn_type : string;
  cn_text : option string
}.

(** [<round no=...>]: its number, card nodes and actions in document order. *)
Record Round : Type := mkRound {
  no : Z;
  cards : list CardsNode;
  actions : list Action
}.

(** [sorted(root.findall(".//round"), key=lambda r: int(r.attrib.get("no", "0")))]. *)
Definition sorted_rounds (rounds : list Round) : list Round := Py.sorted_by no rounds.

End HandHistory.

(** ** cbet_utils.py: the c-bet loader, one hand at a time *)

Module CbetLoader.
Import HandHistory CbetUtils.

Inductive ResponseKind : Type := Fold | Call | Raise.

Record Response : Type := mkResponse {
  r_player : string;
  r_action_type : string;
  r_response : ResponseKind;
  r_amount : Q
}.

Record Event : Type := mkEvent {
  e_hand_number : Z;
  e_player : string;
  e_ratio : Q;
  e_primary : Primary;
  e_hole_cards : list string;
  e_flop_cards : list string;
  e_has_flush_draw : bool;
  e_has_oesd : bool;
  e_made_flush : bool;
  e_made_straight : bool;
  e_made_full_house : bool;
  e_in_position : bool;
  e_flop_players : nat;
  e_responses : list Response
}.

(** [round(x, 6)]: to the nearest millionth, ties to even. *)
Definition round_half_even (q : Q) : Z :=
  let n := Qnum q in
  let d := Zpos (Qden q) in
  let f := (n / d)%Z in
  let r2 := (2 * (n mod d))%Z in
  if (r2 <? d)%Z then f
  else if (d <? r2)%Z then (f + 1)%Z
  else if Z.even f then f else (f + 1)%Z.

Definition round6 (q : Q) : Q := round_half_even (q * 1000000) # 1000000.

(** The locals of [load_cbet_events] that live across the actions of a hand.
    [current_event] aliases an element of [events]: it is kept as its index,
    and appending a response updates the list in place. *)
Record State : Type := mkState {
  total_pot : Q;
  last_aggressor : option string;
  cbet_logged : bool;
  flop_cards : option (list card);
  flop_players_set : gset string;
  flop_actions : list (string * string);
  current_event : option nat;
  responders_recorded : gset string;
  flop_total_players : option nat;
  events : list Event
}.

(** The chain of [if]/[elif] that names the response. *)
Definition response_kind (act_type : string) : option ResponseKind :=
  if Py.inb act_type FOLD_TYPES then Some Fold
  else if Py.inb act_type CALL_TYPES then Some Call
  else if Py.inb act_type RAISE_TYPES then Some Raise
  else if Py.inb act_type BET_TYPES then Some Raise
  else None.

Definition add_response (r : Response) (e : Event) : Event :=
  mkEvent (e_hand_number e) (e_player e) (e_ratio e) (e_primary e) (e_hole_cards e)
          (e_flop_cards e) (e_has_flush_draw e) (e_has_oesd e) (e_made_flush e)
          (e_made_straight e) (e_made_full_house e) (e_in_position e) (e_flop_players e)
          (e_responses e ++ [r]).

(** [flop_total_players or len(flop_players_set)]. *)
Definition flop_players_of (total : option nat) (seen : gset string) : nat :=
  match total with
  | Some (S n) => S n
  | _ => size seen
  end.

Section hand.
Context (hand_number : Z) (pocket_cards : gmap string (list card)).

(** First part of the loop body on the flop: the c-bet test. *)
Definition flop_bet_step (st : State) (a : Action) : State :=
  let prior_actions := flop_actions st in
  let flop_actions' := flop_actions st ++ [(player a, atype a)] in
  let flop_players_set' := flop_players_set st ∪ {[player a]} in
  let st1 := mkState (total_pot st) (last_aggressor st) (cbet_logged st) (flop_cards st)
                     flop_players_set' flop_actions' (current_event st)
                     (responders_recorded st) (flop_total_players st) (events st) in
  if negb (cbet_logged st)
     && bool_decide (last_aggressor st = Some (player a))
     && (Py.inb (atype a) BET_TYPES || Py.inb (atype a) RAISE_TYPES)
     && Py.Qpos (sum a)
  then
    match flop_cards st, pocket_cards !! player a with
    | Some (fc0 :: fcs), Some hole =>
        let fc := fc0 :: fcs in
        if Py.Qpos (total_pot st) then
          let ratio := (sum a / total_pot st)%Q in
          let classification := _classify_hand hole fc in
          let in_position :=
            Py.any (fun '(actor, _) => negb (bool_decide (Some actor = last_aggressor st)))
                   prior_actions in
          let event :=
            mkEvent hand_number (player a) (round6 ratio) (primary classification)
                    (card_token <$> hole) (card_token <$> fc)
                    (flush_draw classification) (oesd classification)
                    (made_flush classification) (made_straight classification)
                    (made_full classification) in_position
                    (flop_players_of (flop_total_players st) flop_players_set') [] in
          mkState (total_pot st) (last_aggressor st) true (flop_cards st)
                  flop_players_set' flop_actions' (Some (length (events st)))
                  ∅ (flop_total_players st) (events st ++ [event])
        else
          mkState (total_pot st) (last_aggressor st) true (flop_cards st)
                  flop_players_set' flop_actions' (current_event st)
                  (responders_recorded st) (flop_total_players st) (events st)
    | _, _ =>
        mkState (total_pot st) (last_aggressor st) true (flop_cards st)
                flop_players_set' flop_actions' (current_event st)
                (responders_recorded st) (flop_total_players st) (events st)
    end
  else st1.

(** Second part: the response of an opponent to the current event. *)
Definition response_step (round_no : Z) (st : State) (a : Action) : State :=
  match current_event st with
  | Some idx =>
      match events st !! idx with
      | Some ev =>
          if (round_no =? 2)%Z
             && negb (String.eqb (player a) (e_player ev))
             && negb (bool_decide (player a ∈ responders_recorded st))
          then
            match response_kind (atype a) with
            | Some kind =>
                let r := mkResponse (player a) (atype a) kind (sum a) in
                mkState (total_pot st) (last_aggressor st) (cbet_logged st) (flop_cards st)
                        (flop_players_set st) (flop_actions st) (current_event st)
                        (responders_recorded st ∪ {[player a]}) (flop_total_players st)
                        (alter (add_response r) idx (events st))
            | None => st
            end
          else st
      | None => st
      end
  | None => st
  end.

Definition add_to_pot (st : State) (a : Action) : State :=
  if Py.Qpos (sum a)
  then mkState (total_pot st + sum a)%Q (last_aggressor st) (cbet_logged st) (flop_cards st)
               (flop_players_set st) (flop_actions st) (current_event st)
               (responders_recorded st) (flop_total_players st) (events st)
  else st.

Definition set_last_aggressor (st : State) (p : string) : State :=
  mkState (total_pot st) (Some p) (cbet_logged st) (flop_cards st)
          (flop_players_set st) (flop_actions st) (current_event st)
          (responders_recorded st) (flop_total_players st) (events st).

(** The body of [for action in rnd.findall('action')]. *)
Definition action_step (round_no : Z) (st : State) (a : Action) : State :=
  if negb (Py.truthy (player a)) then st
  else
    let st1 :=
      if (round_no =? 1)%Z && Py.inb (atype a) RAISE_TYPES && Py.Qpos (sum a)
      then set_last_aggressor st (player a)
      else if (round_no =? 2)%Z then flop_bet_step st a
      else st in
    let st2 := response_step round_no st1 a in
    add_to_pot st2 a.

(** The text of the first [<cards type="Flop">] node of a round, if any. *)
Definition flop_node_text (rnd : Round) : option (option string) :=
  cn_text <$> List.find (fun n => String.eqb (cn_type n) "Flop") (cards rnd).

(** What happens to the locals when a round is entered. *)
Definition enter_round (st : State) (rnd : Round) : State :=
  let flop_cards' :=
    match flop_cards st with
    | None => if (no rnd =? 2)%Z then _parse_cards <$> flop_node_text rnd else None
    | Some fc => Some fc
    end in
  let flop_total_players' :=
    match flop_total_players st with
    | None =>
        if (no rnd =? 2)%Z
        then Some (size (list_to_set (List.filter Py.truthy (player <$> actions rnd)) : gset string))
        else None
    | Some n => Some n
    end in
  mkState (total_pot st) (last_aggressor st) (cbet_logged st) flop_cards'
          (flop_players_set st) (flop_actions st) (current_event st)
          (responders_recorded st) flop_total_players' (events st).

Definition leave_round (st : State) (rnd : Round) : State :=
  if (no rnd =? 2)%Z then st
  else mkState (total_pot st) (last_aggressor st) (cbet_logged st) (flop_cards st)
               (flop_players_set st) (flop_actions st) None
               (responders_recorded st) (flop_total_players st) (events st).

(** The body of [for rnd in rounds]. *)
Definition round_step (st : State) (rnd : Round) : State :=
  leave_round (foldl (action_step (no rnd)) (enter_round st rnd) (actions rnd)) rnd.

End hand.

Record Hand : Type := mkHand {
  hand_number : Z;
  big_blind : option Q;
  players : list string;
  rounds : list Round
}.

(** [pocket_cards]: the hole cards of every player whose text parses to two. *)
Definition pocket_cards_of (h : Hand) : gmap string (list card) :=
  foldl (fun m n =>
           let cs := _parse_cards (cn_text n) in
           if Py.truthy (cn_player n) && (length cs =? 2)%nat then <[cn_player n := cs]> m else m)
        ∅
        (List.flat_map cards (List.filter (fun r => (no r =? 1)%Z) (rounds h))).

Definition initial_state (events : list Event) : State :=
  mkState 0 None false None ∅ [] None ∅ None events.

(** The final locals of one hand, and the body of [for row in cur] as a
    function from the event list so far to the event list after the hand. *)
Definition walk_hand (h : Hand) (events : list Event) : State :=
  foldl (round_step (hand_number h) (pocket_cards_of h)) (initial_state events)
        (sorted_rounds (rounds h)).

Definition hand_events (h : Hand) (events : list Event) : list Event :=
  match big_blind h with
  | None => events
  | Some bb =>
      if negb (Py.Qpos bb) then events
      else if negb (bool_decide (players h <> [])) then events
      else if bool_decide (pocket_cards_of h = ∅) then events
      else CbetLoader.events (walk_hand h events)
  end.

(** [load_cbet_events] on the rows of the database, without the cache. *)
Definition load_cbet_events (hands : list Hand) : list Event :=
  foldl (fun evs h => hand_events h evs) [] hands.

End CbetLoader.

(** ** opponent_performance.py: the position resolver *)

Module OpponentPerformance.

Definition POSITIONS_BY_COUNT (count : nat) : option (list string) :=
  match count with
  | 2 => Some ["SB"; "BB"]
  | 3 => Some ["SB"; "BB"; "BTN"]
  | 4 => Some ["SB"; "BB"; "CO"; "BTN"]
  | 5 => Some ["SB"; "BB"; "HJ"; "CO"; "BTN"]
  | 6 => Some ["SB"; "BB"; "LJ"; "HJ"; "CO"; "BTN"]
  | 7 => Some ["SB"; "BB"; "UTG"; "LJ"; "HJ"; "CO"; "BTN"]
  | 8 => Some ["SB"; "BB"; "UTG"; "UTG+1"; "LJ"; "HJ"; "CO"; "BTN"]
  | 9 => Some ["SB"; "BB"; "UTG"; "UTG+1"; "UTG+2"; "LJ"; "HJ"; "CO"; "BTN"]
  | _ => None
  end%nat.

(** The keys of a player dict that the resolver reads. *)
Record Player : Type := mkPlayer {
  name : string;
  seat : Z;
  dealer : bool
}.

(** [next((i for i, p in enumerate(l) if f p), None)]. *)
Fixpoint find_index {A} (f : A -> bool) (l : list A) : option nat :=
  match l with
  | [] => None
  | x :: l' => if f x then Some 0%nat else S <$> find_index f l'
  end.

(** [for position_label, player in zip(order, rotation): mapping[player['name']] = position_label]. *)
Definition assign (order : list string) (rotation : list Player) : gmap string string :=
  foldl (fun m '(position_label, p) => <[name p := position_label]> m) ∅ (zip order rotation).

(** [[seat_sorted[f(i) % len(seat_sorted)] for i in range(count)]]; the index
    is in range whenever [seat_sorted] is not empty. *)
Definition rotate_by (f : Z -> Z) (count : nat) (seat_sorted : list Player) : list Player :=
  omap (fun i : nat => seat_sorted !! Z.to_nat (f (Z.of_nat i) mod Z.of_nat (length seat_sorted)))
       (seq 0 count).

(** [_assign_positions_from_seats].  [None] is the [IndexError] of
    [seat_sorted[0]] on an empty list; [Some m] is the returned dict. *)
Definition _assign_positions_from_seats
    (players : list Player) (dealt_players : gset string)
    (small_blind_name dealer_name : option string) : option (gmap string string) :=
  if bool_decide (players = []) || bool_decide (dealt_players = ∅) then Some ∅
  else
    let count := size dealt_players in
    match POSITIONS_BY_COUNT count with
    | None => Some ∅
    | Some order =>
        if negb (length order =? count)%nat then Some ∅
        else
          let seat_sorted :=
            Py.sorted_by seat (List.filter (fun p => bool_decide (name p ∈ dealt_players)) players) in
          let by_dealer :=
            match dealer_name with
            | Some d =>
                if Py.truthy d && bool_decide (d ∈ dealt_players) && Py.inb "BTN" order
                then
                  match find_index (fun p => String.eqb (name p) d) seat_sorted with
                  | Some dealer_idx =>
                      let rotation :=
                        rotate_by (fun i => Z.of_nat dealer_idx - (Z.of_nat count - 1 - i))%Z
                                  count seat_sorted in
                      Some (assign order rotation)
                  | None => None
                  end
                else None
            | None => None
            end in
          match by_dealer with
          | Some mapping => Some mapping
          | None =>
              let name_to_player : gmap string Player :=
                foldl (fun m p => <[name p := p]> m) ∅ seat_sorted in
              let sb_seat :=
                match small_blind_name with
                | Some sb =>
                    if Py.truthy sb
                    then match name_to_player !! sb with
                         | Some p => Some (seat p)
                         | None => seat <$> head seat_sorted
                         end
                    else seat <$> head seat_sorted
                | None => seat <$> head seat_sorted
                end in
              match sb_seat with
              | None => None
              | Some sb_seat =>
                  let start_index :=
                    default 0%nat (find_index (fun p => (seat p =? sb_seat)%Z) seat_sorted) in
                  let rotation_list :=
                    rotate_by (fun i => Z.of_nat start_index + i)%Z count seat_sorted in
                  Some (assign order rotation_list)
              end
          end
    end.

(** [_assign_positions_from_actions]. *)
Definition _assign_positions_from_actions
    (dealt_players : gset string) (small_blind_name big_blind_name : option string)
    (acting_order : list string) : gmap string string :=
  let count := size dealt_players in
  match POSITIONS_BY_COUNT count with
  | None => ∅
  | Some order =>
      let dealt (n : option string) : option string :=
        match n with
        | Some x => if Py.truthy x && bool_decide (x ∈ dealt_players) then Some x else None
        | None => None
        end in
      let mapping0 : gmap string string :=
        match dealt small_blind_name, order !! 0%nat with
        | Some sb, Some l => if (1 <=? count)%nat then {[sb := l]} else ∅
        | _, _ => ∅
        end in
      let mapping1 : gmap string string :=
        match dealt big_blind_name, order !! 1%nat with
        | Some bb, Some l => if (2 <=? count)%nat then <[bb := l]> mapping0 else mapping0
        | _, _ => mapping0
        end in
      let remaining_positions := drop 2 order in
      let remaining_players :=
        List.filter (fun n => bool_decide (n ∈ dealt_players)
                              && negb (bool_decide (is_Some (mapping1 !! n))))
                    acting_order in
      foldl (fun m '(p, position_label) => <[p := position_label]> m) mapping1
            (zip remaining_players remaining_positions)
  end.

End OpponentPerformance.

(** ** flop_response_matrix_builder.py: the hero flop-bet walker *)

Module FlopMatrix.
Import HandHistory.

Definition BET_TYPES : list string := ["5"; "7"].
Definition RAISE_TYPES : list string := ["23"; "7"].
Definition CALL_TYPES : list string := ["3"].
Definition CHECK_TYPES : list string := ["4"].
Definition FOLD_TYPES : list string := ["0"].
Definition POST_TYPES : list string := ["1"; "2"].
Definition ALL_IN_TYPES : list string := ["7"].

Record PlayerInfo : Type := mkPlayerInfo {
  name : string;
  seat : Z;
  is_button : bool
}.

(** [sorted_players[button_index:] + sorted_players[:button_index]]. *)
Definition order_from_button (players : list PlayerInfo) : list PlayerInfo :=
  let sorted_players := Py.sorted_by seat players in
  let button_index := default 0%nat (OpponentPerformance.find_index is_button sorted_players) in
  drop button_index sorted_players ++ take button_index sorted_players.

(** [{player.name: idx for idx, player in enumerate(l)}] with a value per index. *)
Definition index_dict {V} (f : nat -> V) (l : list PlayerInfo) : gmap string V :=
  foldl (fun m '(idx, p) => <[name p := f idx]> m) ∅ (imap (fun idx p => (idx, p)) l).

Definition _position_index (players : list PlayerInfo) : gmap string nat :=
  match players with
  | [] => ∅
  | _ =>
      let ofb := order_from_button players in
      let action_order := drop 1 ofb ++ take 1 ofb in
      index_dict (fun idx => idx) action_order
  end.

Definition canonical : list string :=
  ["BTN"; "SB"; "BB"; "UTG"; "UTG+1"; "UTG+2"; "LJ"; "HJ"; "CO"].

Definition _position_labels (players : list PlayerInfo) : gmap string string :=
  match players with
  | [] => ∅
  | _ =>
      index_dict (fun idx => default (String.append "P" (pretty idx)) (canonical !! idx))
                 (order_from_button players)
  end.

Inductive BetType : Type := cbet | donk | stab.

(** [_classify_bet]. *)
Definition _classify_bet (hero : string) (preflop_aggressor : option string)
    (players_acted flop_active_players : gset string) : BetType :=
  if bool_decide (preflop_aggressor = Some hero) then cbet
  else
    match preflop_aggressor with
    | Some pa =>
        if Py.truthy pa && bool_decide (pa ∈ flop_active_players)
           && negb (bool_decide (pa ∈ players_acted))
        then donk else stab
    | None => stab
    end.

(** [_hero_in_position]. *)
Definition _hero_in_position (hero : string) (position_index : gmap string nat)
    (active_players : gset string) : bool :=
  let indices := omap (fun p => position_index !! p) (elements active_players) in
  match indices with
  | [] => false
  | _ =>
      match position_index !! hero with
      | None => false
      | Some hero_index => (hero_index =? foldr Nat.max 0%nat indices)%nat
      end
  end.

Inductive Outcome : Type := fold | call | raise.

(** [_villain_outcome]: the loop, with [outcome] so far. *)
Fixpoint villain_loop (outcome : Outcome) (actions : list Action) (hero : string) : Outcome :=
  match actions with
  | [] => outcome
  | a :: rest =>
      if negb (Py.truthy (player a)) || String.eqb (player a) hero then outcome
      else if Py.inb (atype a) FOLD_TYPES || Py.inb (atype a) CHECK_TYPES
      then villain_loop outcome rest hero
      else
        let outcome' := if Py.inb (atype a) CALL_TYPES then call else outcome in
        if Py.inb (atype a) BET_TYPES || Py.inb (atype a) RAISE_TYPES then raise
        else villain_loop outcome' rest hero
  end.

Definition _villain_outcome (actions : list Action) (hero : string) : Outcome :=
  villain_loop fold actions hero.

Record Event : Type := mkEvent {
  hero_position : string;
  bet_type : BetType;
  in_position : bool;
  player_count : nat;
  ratio : Q;
  bucket_key : string;
  is_all_in : bool;
  is_one_bb : bool;
  villain_outcome : Outcome
}.

(** The locals of [_events_from_hand_history].  [players_acted] and
    [flop_bet_seen] are the two locals that the flop branch sets up anew each
    time it is entered. *)
Record State : Type := mkState {
  total_pot : Q;
  active_players : gset string;
  preflop_aggressor : option string;
  events : list Event;
  flop_player_count : option nat;
  flop_active_snapshot : option (gset string);
  hero_event_recorded : bool;
  players_acted : gset string;
  flop_bet_seen : bool
}.

Definition add_amount (pot amount : Q) : Q :=
  if Py.Qpos amount then (pot + amount)%Q else pot.

Definition with_pot (st : State) (pot : Q) : State :=
  mkState pot (active_players st) (preflop_aggressor st) (events st) (flop_player_count st)
          (flop_active_snapshot st) (hero_event_recorded st) (players_acted st)
          (flop_bet_seen st).

Definition with_active (st : State) (active : gset string) : State :=
  mkState (total_pot st) active (preflop_aggressor st) (events st) (flop_player_count st)
          (flop_active_snapshot st) (hero_event_recorded st) (players_acted st)
          (flop_bet_seen st).

Section hand.
Context (hero : string) (hero_position_label : string)
        (position_index : gmap string nat) (big_blind : Q).

(** The loop body of [if round_no == 1]. *)
Definition preflop_step (st : State) (a : Action) : State :=
  if negb (Py.truthy (player a)) || negb (Py.truthy (atype a)) then st
  else
    let pot := add_amount (total_pot st) (sum a) in
    let active :=
      if Py.inb (atype a) FOLD_TYPES then active_players st ∖ {[player a]}
      else if negb (Py.inb (atype a) CHECK_TYPES) then active_players st ∪ {[player a]}
      else active_players st in
    let aggressor :=
      if Py.inb (atype a) RAISE_TYPES && Py.Qpos (sum a) then Some (player a)
      else preflop_aggressor st in
    mkState pot active aggressor (events st) (flop_player_count st)
            (flop_active_snapshot st) (hero_event_recorded st) (players_acted st)
            (flop_bet_seen st).

(** [tolerance = max(1e-6, big_blind * 1e-4)] and the test against it. *)
Definition one_bb (amount : Q) : bool :=
  let a := (1 # 1000000)%Q in
  let b := (big_blind * (1 # 10000))%Q in
  let tolerance := if Qle_bool b a then a else b in
  Qle_bool (Qabs (amount - big_blind)) tolerance.

(** The hero's bet, when the guard of the event block holds: the event to
    append, if the ratio has a bucket. *)
Definition hero_event (st : State) (a : Action) (later : list Action) : option Event :=
  match flop_player_count st, flop_active_snapshot st with
  | Some count, Some snapshot =>
      if negb (hero_event_recorded st)
         && String.eqb (player a) hero
         && Py.inb (atype a) BET_TYPES
         && Py.Qpos (sum a)
         && negb (flop_bet_seen st)
         && negb (count =? 0)%nat && (2 <=? count)%nat
         && negb (bool_decide (snapshot = ∅))
      then
        let bet_type := _classify_bet hero (preflop_aggressor st) (players_acted st) snapshot in
        let hero_in_position := _hero_in_position hero position_index snapshot in
        let pot_before := total_pot st in
        let ratio := if Py.Qpos pot_before then Some (sum a / pot_before)%Q else None in
        match BetSizing.bucket_for_ratio (BetSizing.Fin <$> ratio), ratio with
        | Some bucket, Some r =>
            Some (mkEvent hero_position_label bet_type hero_in_position count r
                          (BetSizing.key bucket) (Py.inb (atype a) ALL_IN_TYPES)
                          (one_bb (sum a)) (_villain_outcome later hero))
        | _, _ => None
        end
      else None
  | _, _ => None
  end.

(** The loop body of [elif round_no == 2]; [later] is [actions[idx + 1:]]. *)
Definition flop_step (st : State) (a : Action) (later : list Action) : State :=
  if negb (Py.truthy (player a)) || negb (Py.truthy (atype a)) then st
  else
    let ev := hero_event st a later in
    let events' := match ev with Some e => events st ++ [e] | None => events st end in
    let recorded' := match ev with Some _ => true | None => hero_event_recorded st end in
    let seen' :=
      if (Py.inb (atype a) BET_TYPES || Py.inb (atype a) RAISE_TYPES) && Py.Qpos (sum a)
      then true else flop_bet_seen st in
    let active' :=
      if Py.inb (atype a) FOLD_TYPES then active_players st ∖ {[player a]}
      else active_players st in
    mkState (add_amount (total_pot st) (sum a)) active' (preflop_aggressor st) events'
            (flop_player_count st) (flop_active_snapshot st) recorded'
            (players_acted st ∪ {[player a]}) seen'.

Fixpoint flop_loop (st : State) (actions : list Action) : State :=
  match actions with
  | [] => st
  | a :: later => flop_loop (flop_step st a later) later
  end.

(** The loop body of the final [else] (blinds, turn, river). *)
Definition other_step (st : State) (a : Action) : State :=
  let st' := with_pot st (add_amount (total_pot st) (sum a)) in
  if Py.truthy (player a) && Py.inb (atype a) FOLD_TYPES
  then with_active st' (active_players st' ∖ {[player a]})
  else st'.

(** Entering the flop branch: the snapshot is taken once, and the two
    per-street locals start empty. *)
Definition enter_flop (st : State) : State :=
  let count' := match flop_player_count st with
                | None => Some (size (active_players st))
                | Some n => Some n
                end in
  let snapshot' := match flop_player_count st with
                   | None => Some (active_players st)
                   | Some _ => flop_active_snapshot st
                   end in
  mkState (total_pot st) (active_players st) (preflop_aggressor st) (events st)
          count' snapshot' (hero_event_recorded st) ∅ false.

(** One round of the [for round_elem in rounds] loop: [inr] is [break]. *)
Definition round_step (st : State) (rnd : Round) : State + State :=
  if (no rnd =? 1)%Z then inl (foldl preflop_step st (actions rnd))
  else if (no rnd =? 2)%Z then
    if (size (active_players st) <? 2)%nat then inr st
    else inl (flop_loop (enter_flop st) (actions rnd))
  else inl (foldl other_step st (actions rnd)).

Fixpoint walk (st : State) (rounds : list Round) : State :=
  match rounds with
  | [] => st
  | rnd :: rest =>
      match round_step st rnd with
      | inl st' => walk st' rest
      | inr st' => st'
      end
  end.

End hand.

Record Hand : Type := mkHand {
  hero : string;
  players : list PlayerInfo;
  big_blind : option Q;
  rounds : list Round
}.

Definition initial_state (players : list PlayerInfo) : State :=
  mkState 0 (list_to_set (name <$> players)) None [] None None false ∅ false.

(** [_events_from_hand_history] on a parsed hand. *)
Definition _events_from_hand_history (h : Hand) : list Event :=
  if negb (Py.truthy (hero h)) then []
  else if bool_decide (players h = []) || negb (Py.inb (hero h) (name <$> players h)) then []
  else
    let position_index := _position_index (players h) in
    let position_labels := _position_labels (players h) in
    match position_index !! hero h, position_labels !! hero h, big_blind h with
    | Some _, Some hero_position_label, Some bb =>
        if negb (Py.Qpos bb) then []
        else if negb (Py.truthy hero_position_label) then []
        else
          events (walk (hero h) hero_position_label position_index bb
                       (initial_state (players h)) (sorted_rounds (rounds h)))
    | _, _, _ => []
    end.

End FlopMatrix.

(** ** opponent_performance.py: preflop flags and accumulators *)

Module OpponentStats.
Import OpponentPerformance.

Definition CALL_TYPES : list string := ["3"].
Definition RAISE_TYPES : list string := ["7"; "23"].
(** [CALL_TYPES | RAISE_TYPES]. *)
Definition VOLUNTARY_TYPES : list string := CALL_TYPES ++ RAISE_TYPES.

(** An entry of [preflop_actions], [{'player': ..., 'type': ...}]; either
    attribute may be missing ([None]). *)
Record PreflopAction : Type := mkPreflopAction {
  pa_player : option string;
  pa_type : option string
}.

(** The four results of [_evaluate_preflop]. *)
Record Flags : Type := mkFlags {
  vpip : bool;
  pfr : bool;
  three_bet : bool;
  three_bet_opportunity : bool
}.

(** The loop body of [_evaluate_preflop]; the state is the four flags and
    [raise_count]. *)
Definition preflop_step (hero_name : string) (st : Flags * nat) (action : PreflopAction)
    : Flags * nat :=
  let '(fl, raise_count) := st in
  let actor := pa_player action in
  let action_type := default "" (pa_type action) in
  let fl' :=
    if bool_decide (actor = Some hero_name) then
      let opportunity := if (1 <=? raise_count)%nat then true else three_bet_opportunity fl in
      let vpip' := if Py.inb action_type VOLUNTARY_TYPES then true else vpip fl in
      let pfr' := if Py.inb action_type RAISE_TYPES then true else pfr fl in
      let three_bet' :=
        if Py.inb action_type RAISE_TYPES && (1 <=? raise_count)%nat then true
        else three_bet fl in
      mkFlags vpip' pfr' three_bet' opportunity
    else fl in
  (fl', if Py.inb action_type RAISE_TYPES then S raise_count else raise_count).

Definition _evaluate_preflop (actions : list PreflopAction) (hero_name : string) : Flags :=
  (foldl (preflop_step hero_name) (mkFlags false false false false, 0%nat) actions).1.

(** [Accumulator]: the counters of one table size or position. *)
Record Accumulator : Type := mkAccumulator {
  hand_count : nat;
  net_cents : Z;
  net_bb : Q;
  vpip_hands : nat;
  pfr_hands : nat;
  three_bet_hands : nat;
  three_bet_opportunities : nat;
  pot_bb_sum : Q;
  pot_samples : nat
}.

(** [Accumulator()]. *)
Definition new_accumulator : Accumulator := mkAccumulator 0 0 0 0 0 0 0 0 0.

Definition bump (b : bool) (n : nat) : nat := if b then S n else n.

(** [Accumulator.record]. *)
Definition record (self : Accumulator) (net_cents' : Z) (net_bb' : Q)
    (vpip' pfr' three_bet' three_bet_opportunity' : bool) (pot_bb : Q) : Accumulator :=
  mkAccumulator
    (S (hand_count self))
    (net_cents self + net_cents')%Z
    (net_bb self + net_bb')%Q
    (bump vpip' (vpip_hands self))
    (bump pfr' (pfr_hands self))
    (bump three_bet' (three_bet_hands self))
    (bump three_bet_opportunity' (three_bet_opportunities self))
    (if Py.Qpos pot_bb then (pot_bb_sum self + pot_bb)%Q else pot_bb_sum self)
    (bump (Py.Qpos pot_bb) (pot_samples self)).

(** What [_parse_game] returns for a hand it keeps. *)
Record Parsed : Type := mkParsed {
  opponents : nat;
  position : string;
  p_net_cents : Z;
  p_net_bb : Q;
  p_pot_bb : Q;
  p_flags : Flags
}.

(** The two dicts that [get_opponent_count_performance] fills,
    [defaultdict(Accumulator)] and a [defaultdict] of such. *)
Record Totals : Type := mkTotals {
  overall : gmap nat Accumulator;
  by_position : gmap nat (gmap string Accumulator)
}.

Definition record_parsed (acc : Accumulator) (p : Parsed) : Accumulator :=
  record acc (p_net_cents p) (p_net_bb p) (vpip (p_flags p)) (pfr (p_flags p))
         (three_bet (p_flags p)) (three_bet_opportunity (p_flags p)) (p_pot_bb p).

(** The body of [for game in session.findall('game')] once [_parse_game]
    has returned a tuple. *)
Definition accumulate_step (t : Totals) (p : Parsed) : Totals :=
  let overall_acc := default new_accumulator (overall t !! opponents p) in
  let positions := default ∅ (by_position t !! opponents p) in
  let position_acc := default new_accumulator (positions !! position p) in
  mkTotals (<[opponents p := record_parsed overall_acc p]> (overall t))
           (<[opponents p := <[position p := record_parsed position_acc p]> positions]>
              (by_position t)).

Definition accumulate (parsed : list Parsed) : Totals :=
  foldl accumulate_step (mkTotals ∅ ∅) parsed.

(** The position of the hero in [_parse_game]: the seat resolver first, the
    action resolver when the seats did not place the hero, ['UNKNOWN'] when
    neither did.  [None] is the [IndexError] of the seat resolver. *)
Definition _parse_game_position
    (players : list Player) (dealt_players : gset string)
    (small_blind_name big_blind_name : option string) (acting_order : list string)
    (dealer_name : option string) (hero_name : string) : option string :=
  match _assign_positions_from_seats players dealt_players small_blind_name dealer_name with
  | None => None
  | Some seats_map =>
      let position_map :=
        if bool_decide (is_Some (seats_map !! hero_name)) then seats_map
        else _assign_positions_from_actions dealt_players small_blind_name big_blind_name
                                            acting_order in
      Some (default "UNKNOWN" (position_map !! hero_name))
  end.

End OpponentStats.

(** ** flop_response_matrix_builder.py: the collector *)

Module FlopCollect.
Import FlopMatrix.

(** [del events[m:]] for an integer [m]: a negative [m] counts from the end. *)
Definition del_from {A} (m : Z) (events : list A) : list A :=
  if (0 <=? m)%Z then take (Z.to_nat m) events
  else take (Z.to_nat (Z.of_nat (length events) + m)) events.

(** The loop of [collect_flop_bet_events].  A row is [None] when it has no
    hand history or the history does not parse ([continue]); the [break]
    ends the recursion. *)
Fixpoint collect_loop (max_hands : option Z) (events : list Event) (rows : list (option Hand))
    : list Event :=
  match rows with
  | [] => events
  | None :: rest => collect_loop max_hands events rest
  | Some h :: rest =>
      let events' := events ++ _events_from_hand_history h in
      match max_hands with
      | Some m =>
          if (m <=? Z.of_nat (length events'))%Z then del_from m events'
          else collect_loop max_hands events' rest
      | None => collect_loop max_hands events' rest
      end
  end.

(** [collect_flop_bet_events] on the rows of an available source. *)
Definition collect_flop_bet_events (rows : list (option Hand)) (max_hands : option Z)
    : list Event :=
  collect_loop max_hands [] rows.

End FlopCollect.

(** ** Python values of unknown type *)

Module PyObj.
Import BetSizing.

(** A value read from a cache file or a database row, where the code tests
    its type at run time. *)
#[local] Set Warnings "-register-all".
Inductive pyobj : Type :=
| PNone
| PBool (b : bool)
| PInt (z : Z)
| PFloat (f : pyfloat)
| PStr (s : string)
| PList (items : list pyobj)
| PDict (d : gmap string pyobj).
#[local] Set Warnings "register-all".

(** A [Mapping[str, object]]. *)
Definition dict : Type := gmap string pyobj.

(** [d.get(key)]. *)
Definition get (d : dict) (key : string) : pyobj := default PNone (d !! key).

(** [bool(x)]. *)
Definition py_bool (x : pyobj) : bool :=
  match x with
  | PNone => false
  | PBool b => b
  | PInt z => negb (z =? 0)%Z
  | PFloat f => fne f (Fin 0)
  | PStr s => Py.truthy s
  | PList items => match items with [] => false | _ => true end
  | PDict d => negb (size d =? 0)%nat
  end.

(** The outcome of a conversion: a value, a [TypeError] or [ValueError]
    (the two that the callers catch), or an [OverflowError]. *)
Inductive conv (A : Type) : Type :=
| Value (a : A)
| Caught
| Overflow.
Arguments Value {A} a.
Arguments Caught {A}.
Arguments Overflow {A}.

(** An uncaught exception ends the function that raised it. *)
Inductive exn : Type := OverflowError | KeyError.

Inductive result (A : Type) : Type :=
| Ok (a : A)
| Raise (e : exn).
Arguments Ok {A} a.
Arguments Raise {A} e.

(** [int(f)] of a finite float: towards zero. *)
Definition trunc (q : Q) : Z := Z.quot (Qnum q) (Zpos (Qden q)).

(** An integer that rounds to [2**1024] or beyond has no float. *)
Definition float_overflows (z : Z) : bool := (2 ^ 1024 - 2 ^ 970 <=? Z.abs z)%Z.

Section builtins.
(** How [float] and [int] read a string ([None]: [ValueError]). *)
Variable str_to_float : string -> option pyfloat.
Variable str_to_int : string -> option Z.

(** [float(x)]. *)
Definition py_float (x : pyobj) : conv pyfloat :=
  match x with
  | PBool b => Value (Fin (if b then 1 else 0))
  | PInt z => if float_overflows z then Overflow else Value (Fin (inject_Z z))
  | PFloat f => Value f
  | PStr s => match str_to_float s with Some f => Value f | None => Caught end
  | PNone | PList _ | PDict _ => Caught
  end.

(** [int(x)]. *)
Definition py_int (x : pyobj) : conv Z :=
  match x with
  | PBool b => Value (if b then 1 else 0)%Z
  | PInt z => Value z
  | PFloat (Fin q) => Value (trunc q)
  | PFloat NaN => Caught
  | PFloat PosInf | PFloat NegInf => Overflow
  | PStr s => match str_to_int s with Some z => Value z | None => Caught end
  | PNone | PList _ | PDict _ => Caught
  end.

End builtins.

(** What [for x in value] yields, when [value] is an [Iterable]: the items
    of a list, the characters of a string, the keys of a dict. *)
Fixpoint chars (s : string) : list string :=
  match s with
  | EmptyString => []
  | String c s' => String c EmptyString :: chars s'
  end.

Definition iterate (value : pyobj) : option (list pyobj) :=
  match value with
  | PList items => Some items
  | PStr s => Some (PStr <$> chars s)
  | PDict d => Some (PStr <$> (map_to_list d).*1)
  | PNone | PBool _ | PInt _ | PFloat _ => None
  end.

End PyObj.

(** ** flop_response_matrix.py *)

Module FlopResponseMatrix.
Import BetSizing PyObj.

Record BucketMeta : Type := mkBucketMeta {
  bm_key : string;
  bm_label : string
}.

Definition BUCKET_METADATA : list BucketMeta :=
  ((fun bucket => mkBucketMeta (key bucket) (label bucket)) <$> BET_SIZE_BUCKETS)
  ++ [mkBucketMeta "all_in" "All-In"; mkBucketMeta "one_bb" "1 BB"].

Definition BUCKET_KEYS : list string := bm_key <$> BUCKET_METADATA.

(** The [key] fields of [BET_TYPE_OPTIONS] and of [POSITION_OPTIONS]. *)
Definition BET_TYPE_OPTIONS : list string := ["cbet"; "donk"; "stab"].
Definition POSITION_OPTIONS : list string := ["IP"; "OOP"].

Definition HERO_POSITION_ORDER : list string :=
  ["SB"; "BB"; "UTG"; "UTG+1"; "UTG+2"; "LJ"; "HJ"; "CO"; "BTN"; "UNKNOWN"].

(** [{value: index for index, value in enumerate(order)}.get(v, len(order))]
    for a list without repetition. *)
Fixpoint rank_in (order : list string) (v : string) : Z :=
  match order with
  | [] => 0
  | x :: rest => if String.eqb v x then 0 else 1 + rank_in rest v
  end.

(** [_normalise_bet_type]. *)
Definition _normalise_bet_type (value : pyobj) : option string :=
  match value with
  | PStr s =>
      let lowered := PyStr.lower (PyStr.strip s) in
      List.find (fun option_key => String.eqb lowered option_key) BET_TYPE_OPTIONS
  | _ => None
  end.

(** [_normalise_response]. *)
Definition _normalise_response (value : pyobj) : option string :=
  match value with
  | PStr s =>
      let lowered := PyStr.lower (PyStr.strip s) in
      if Py.inb lowered ["call"; "raise"; "fold"] then Some lowered else None
  | _ => None
  end.

(** The loop of [_resolve_outcome]. *)
Fixpoint resolve_loop (has_call : bool) (responses : list pyobj) : string :=
  match responses with
  | [] => if has_call then "call" else "fold"
  | PDict response :: rest =>
      let result := _normalise_response (get response "response") in
      if bool_decide (result = Some "raise") then "raise"
      else if bool_decide (result = Some "call") then resolve_loop true rest
      else resolve_loop has_call rest
  | _ :: rest => resolve_loop has_call rest
  end.

(** [_resolve_outcome]. *)
Definition _resolve_outcome (responses : pyobj) : string :=
  match iterate responses with
  | None => "fold"
  | Some items => resolve_loop false items
  end.

Section builtins.
Variable str_to_float : string -> option pyfloat.
Variable str_to_int : string -> option Z.
(** The order in which Python iterates over a set of strings. *)
Variable set_order : gset string -> list string.

(** [_bucket_for_event]. *)
Definition _bucket_for_event (event : dict) : result (option string) :=
  if py_bool (get event "is_all_in") then Ok (Some "all_in")
  else if py_bool (get event "is_one_bb") then Ok (Some "one_bb")
  else
    match get event "bucket_key" with
    | PStr bucket_key => Ok (Some bucket_key)
    | _ =>
        let ratio_raw := get event "ratio" in
        match ratio_raw with
        | PNone => Ok (key <$> bucket_for_ratio None)
        | _ =>
            match py_float str_to_float ratio_raw with
            | Value ratio => Ok (key <$> bucket_for_ratio (Some ratio))
            | Caught => Ok (key <$> bucket_for_ratio None)
            | Overflow => Raise OverflowError
            end
        end
    end.

(** The four counters of a bucket. *)
Record Metrics : Type := mkMetrics {
  events : nat;
  fold_events : nat;
  call_events : nat;
  raise_events : nat
}.

(** The key of a scenario: hero position, bet type, position, player count. *)
Definition ScenarioKey : Type := string * string * string * Z.

(** The value that the [defaultdict] makes for a new scenario. *)
Definition default_bucket_map : gmap string Metrics :=
  list_to_map ((fun bucket_key => (bucket_key, mkMetrics 0 0 0 0)) <$> BUCKET_KEYS).

(** The locals of [_aggregate_events]; [aggregate] keeps the order in which
    its keys were created. *)
Record State : Type := mkState {
  aggregate : list (ScenarioKey * gmap string Metrics);
  player_counts : gset Z;
  hero_positions : gset string
}.

Fixpoint lookup_scenario (k : ScenarioKey) (aggregate : list (ScenarioKey * gmap string Metrics))
    : option (gmap string Metrics) :=
  match aggregate with
  | [] => None
  | (k', bucket_map) :: rest => if decide (k = k') then Some bucket_map else lookup_scenario k rest
  end.

Fixpoint store_scenario (k : ScenarioKey) (bucket_map : gmap string Metrics)
    (aggregate : list (ScenarioKey * gmap string Metrics))
    : list (ScenarioKey * gmap string Metrics) :=
  match aggregate with
  | [] => [(k, bucket_map)]
  | (k', m) :: rest =>
      if decide (k = k') then (k', bucket_map) :: rest
      else (k', m) :: store_scenario k bucket_map rest
  end.

(** The counters after one more event with this outcome. *)
Definition count_outcome (outcome : string) (m : Metrics) : Metrics :=
  if String.eqb outcome "raise"
  then mkMetrics (S (events m)) (fold_events m) (call_events m) (S (raise_events m))
  else if String.eqb outcome "call"
  then mkMetrics (S (events m)) (fold_events m) (S (call_events m)) (raise_events m)
  else mkMetrics (S (events m)) (S (fold_events m)) (call_events m) (raise_events m).

(** The body of the loop over the events. *)
Definition aggregate_step (st : State) (event : dict) : result State :=
  let hero_position :=
    match get event "hero_position" with
    | PStr s => if Py.truthy s then s else "UNKNOWN"
    | _ => "UNKNOWN"
    end in
  let hero_positions' := hero_positions st ∪ {[hero_position]} in
  match _normalise_bet_type (get event "bet_type") with
  | None => Ok (mkState (aggregate st) (player_counts st) hero_positions')
  | Some bet_type =>
      let position :=
        match get event "position" with
        | PStr position_field => position_field
        | _ => if py_bool (get event "in_position") then "IP" else "OOP"
        end in
      let player_count_raw :=
        match get event "player_count" with
        | PNone => get event "flop_players"
        | raw => raw
        end in
      match py_int str_to_int player_count_raw with
      | Overflow => Raise OverflowError
      | converted =>
          let player_count := match converted with Value z => z | _ => 0%Z end in
          match _bucket_for_event event with
          | Raise e => Raise e
          | Ok None => Ok (mkState (aggregate st) (player_counts st) hero_positions')
          | Ok (Some bucket_key) =>
              let outcome :=
                match get event "villain_outcome" with
                | PStr s => s
                | _ =>
                    let responses := get event "responses" in
                    _resolve_outcome (if py_bool responses then responses else PList [])
                end in
              let k := (hero_position, bet_type, position, player_count) in
              let bucket_map := default default_bucket_map (lookup_scenario k (aggregate st)) in
              match bucket_map !! bucket_key with
              | None => Raise KeyError
              | Some bucket_metrics =>
                  let bucket_map' := <[bucket_key := count_outcome outcome bucket_metrics]> bucket_map in
                  Ok (mkState (store_scenario k bucket_map' (aggregate st))
                              (if (player_count =? 0)%Z then player_counts st
                               else player_counts st ∪ {[player_count]})
                              hero_positions')
              end
          end
      end
  end.

Fixpoint aggregate_loop (st : State) (events : list dict) : result State :=
  match events with
  | [] => Ok st
  | event :: rest =>
      match aggregate_step st event with
      | Ok st' => aggregate_loop st' rest
      | Raise e => Raise e
      end
  end.

(** The sort key of a scenario, and the order of Python tuples on it. *)
Definition scenario_sort_key (k : ScenarioKey) : Z * Z * Z * Z :=
  let '(hero_position, bet_type, position, player_count) := k in
  (rank_in HERO_POSITION_ORDER hero_position, rank_in BET_TYPE_OPTIONS bet_type,
   rank_in POSITION_OPTIONS position, player_count).

Definition tuple_lt (a b : Z * Z * Z * Z) : bool :=
  let '(a1, a2, a3, a4) := a in
  let '(b1, b2, b3, b4) := b in
  if (a1 =? b1)%Z then
    if (a2 =? b2)%Z then
      if (a3 =? b3)%Z then (a4 <? b4)%Z else (a3 <? b3)%Z
    else (a2 <? b2)%Z
  else (a1 <? b1)%Z.

(** [sorted(items, key=key)] with tuple keys: stable, ascending. *)
Fixpoint insert_sorted {A} (key : A -> Z * Z * Z * Z) (x : A) (l : list A) : list A :=
  match l with
  | [] => [x]
  | y :: l' => if tuple_lt (key y) (key x) then y :: insert_sorted key x l' else x :: y :: l'
  end.

Definition sorted_by_tuple {A} (key : A -> Z * Z * Z * Z) (l : list A) : list A :=
  foldr (insert_sorted key) [] l.

Record Metric : Type := mkMetric {
  m_bucket_key : string;
  m_bucket_label : string;
  m_events : nat;
  m_fold_events : nat;
  m_call_events : nat;
  m_raise_events : nat
}.

Record Scenario : Type := mkScenario {
  s_hero_position : string;
  s_bet_type : string;
  s_position : string;
  s_player_count : Z;
  s_metrics : list Metric
}.

(** One entry of [scenarios].  Every bucket map has all of [BUCKET_KEYS]. *)
Definition scenario_of (item : ScenarioKey * gmap string Metrics) : Scenario :=
  let '((hero_position, bet_type, position, player_count), bucket_map) := item in
  mkScenario hero_position bet_type position player_count
    ((fun meta =>
        let m := default (mkMetrics 0 0 0 0) (bucket_map !! bm_key meta) in
        mkMetric (bm_key meta) (bm_label meta) (events m) (fold_events m) (call_events m)
                 (raise_events m)) <$> BUCKET_METADATA).

(** [_aggregate_events]: the scenarios, the sorted player counts and the hero
    positions sorted by their rank in [HERO_POSITION_ORDER]. *)
Definition _aggregate_events (events : list dict)
    : result (list Scenario * list Z * list string) :=
  match aggregate_loop (mkState [] ∅ ∅) events with
  | Raise e => Raise e
  | Ok st =>
      Ok (scenario_of <$> sorted_by_tuple (fun item => scenario_sort_key item.1) (aggregate st),
          merge_sort Z.le (elements (player_counts st)),
          Py.sorted_by (rank_in HERO_POSITION_ORDER) (set_order (hero_positions st)))
  end.

End builtins.

(** The dictionary that [_events_from_hand_history] appends for an event. *)
Definition bet_type_name (t : FlopMatrix.BetType) : string :=
  match t with
  | FlopMatrix.cbet => "cbet"
  | FlopMatrix.donk => "donk"
  | FlopMatrix.stab => "stab"
  end.

Definition outcome_name (o : FlopMatrix.Outcome) : string :=
  match o with
  | FlopMatrix.fold => "fold"
  | FlopMatrix.call => "call"
  | FlopMatrix.raise => "raise"
  end.

Definition event_dict (e : FlopMatrix.Event) : dict :=
  list_to_map [
    ("hero_position", PStr (FlopMatrix.hero_position e));
    ("bet_type", PStr (bet_type_name (FlopMatrix.bet_type e)));
    ("in_position", PBool (FlopMatrix.in_position e));
    ("player_count", PInt (Z.of_nat (FlopMatrix.player_count e)));
    ("ratio", PFloat (Fin (FlopMatrix.ratio e)));
    ("bucket_key", PStr (FlopMatrix.bucket_key e));
    ("is_all_in", PBool (FlopMatrix.is_all_in e));
    ("is_one_bb", PBool (FlopMatrix.is_one_bb e));
    ("villain_outcome", PStr (outcome_name (FlopMatrix.villain_outcome e)))
  ].

End FlopResponseMatrix.

(** ** flop_loader.py *)

Module FlopLoader.
Import BetSizing PyObj.

(** The two columns of a row of [FLOP_SUMMARY_QUERY] that the loader reads. *)
Record Row : Type := mkRow {
  bet_ratio : pyobj;
  board_flop : option string
}.

Record BucketCount : Type := mkBucketCount {
  bc_key : string;
  bc_label : string;
  bc_count : nat
}.

Record TextureCount : Type := mkTextureCount {
  tc_key : string;
  tc_title : string;
  tc_count : nat
}.

Record Summary : Type := mkSummary {
  s_events : nat;
  s_buckets : list BucketCount;
  s_textures : list TextureCount
}.

(** The summary for these counters. *)
Definition summary_of (events : nat) (bucket_counts texture_counts : list (string * nat))
    : Summary :=
  mkSummary events
    ((fun bucket => mkBucketCount (key bucket) (label bucket) (Py.get0 bucket_counts (key bucket)))
       <$> BET_SIZE_BUCKETS)
    ((fun spec => mkTextureCount (Textures.key spec) (Textures.title spec)
                                 (Py.get0 texture_counts (Textures.key spec)))
       <$> Textures.FLOP_TEXTURE_SPECS).

(** [_empty_summary]. *)
Definition _empty_summary : Summary :=
  mkSummary 0
    ((fun bucket => mkBucketCount (key bucket) (label bucket) 0) <$> BET_SIZE_BUCKETS)
    ((fun spec => mkTextureCount (Textures.key spec) (Textures.title spec) 0)
       <$> Textures.FLOP_TEXTURE_SPECS).

Section builtins.
Variable str_to_float : string -> option pyfloat.

(** [_normalise_ratio]. *)
Definition _normalise_ratio (value : pyobj) : result (option pyfloat) :=
  match value with
  | PNone => Ok None
  | _ =>
      match py_float str_to_float value with
      | Caught => Ok None
      | Overflow => Raise OverflowError
      | Value ratio => if flt ratio (Fin 0) then Ok None else Ok (Some ratio)
      end
  end.

(** The body of the loop over the rows: the two counters and [events]. *)
Definition summary_step (st : list (string * nat) * list (string * nat) * nat) (row : Row)
    : result (list (string * nat) * list (string * nat) * nat) :=
  let '(bucket_counts, texture_counts, events) := st in
  match _normalise_ratio (bet_ratio row) with
  | Raise e => Raise e
  | Ok ratio =>
      let bucket_counts' :=
        match bucket_for_ratio ratio with
        | Some bucket => Py.counter_add (key bucket) bucket_counts
        | None => bucket_counts
        end in
      let textures := Textures.texture_keys (board_flop row) in
      let texture_counts' := foldl (fun c k => Py.counter_add k c) texture_counts textures in
      Ok (bucket_counts', texture_counts', S events)
  end.

Fixpoint summary_loop (st : list (string * nat) * list (string * nat) * nat) (rows : list Row)
    : result (list (string * nat) * list (string * nat) * nat) :=
  match rows with
  | [] => Ok st
  | row :: rest =>
      match summary_step st row with
      | Ok st' => summary_loop st' rest
      | Raise e => Raise e
      end
  end.

(** [load_flop_bet_summary]; [None] is a source that is not available or
    whose query fails. *)
Definition load_flop_bet_summary (source : option (list Row)) : result Summary :=
  match source with
  | None => Ok _empty_summary
  | Some rows =>
      match summary_loop ([], [], 0%nat) rows with
      | Raise e => Raise e
      | Ok (bucket_counts, texture_counts, events) =>
          Ok (summary_of events bucket_counts texture_counts)
      end
  end.

End builtins.

End FlopLoader.

(** * Part II: properties of the embedding *)

(** ** Facts about the Python helpers *)

Module PyFacts.
Import Py.

(** *** [sorted(..., reverse=True)] *)

Lemma insert_desc_perm x l : insert_desc x l ≡ₚ x :: l.
Proof.
  induction l as [| y l IH]; simpl; [done |].
  destruct (y <=? x)%nat; [done |].
  rewrite IH. apply Permutation_swap.
Qed.

Lemma sorted_desc_perm l : sorted_desc l ≡ₚ l.
Proof.
  induction l as [| x l IH]; simpl; [done |].
  unfold sorted_desc in *. simpl. rewrite insert_desc_perm. by rewrite IH.
Qed.

Definition Desc (l : list nat) : Prop := StronglySorted (fun a b => b <= a) l.

Lemma insert_desc_sorted x l : Desc l -> Desc (insert_desc x l).
Proof.
  unfold Desc. induction 1 as [| y l Hl IH Hy]; simpl.
  - repeat constructor.
  - destruct (Nat.leb_spec y x) as [Hle | Hgt].
    + constructor; [by constructor |].
      constructor; [done |].
      eapply Forall_impl; [exact Hy |]. simpl. intros z Hz. lia.
    + constructor; [exact IH |].
      rewrite insert_desc_perm. constructor; [lia | exact Hy].
Qed.

Lemma sorted_desc_sorted l : Desc (sorted_desc l).
Proof.
  induction l as [| x l IH]; [constructor |].
  unfold sorted_desc in *. simpl. by apply insert_desc_sorted.
Qed.

Lemma elem_of_sorted_desc x l : x ∈ sorted_desc l <-> x ∈ l.
Proof. by rewrite sorted_desc_perm. Qed.

Lemma Desc_head_max a l x : Desc (a :: l) -> x ∈ a :: l -> x <= a.
Proof.
  intros Hs Hx. apply StronglySorted_inv in Hs as [_ Hall].
  apply elem_of_cons in Hx as [-> | Hx]; [lia |].
  rewrite Forall_forall in Hall. by apply Hall.
Qed.

(** *** [Counter] *)

Section counter.
Context {K : Type} `{EqDecision K}.

(** How often [k] occurs in [xs]. *)
Definition count_of (k : K) (xs : list K) : nat :=
  length (List.filter (fun x => bool_decide (x = k)) xs).

Lemma count_of_cons (k x : K) (xs : list K) :
  count_of k (x :: xs) = ((if decide (x = k) then 1 else 0) + count_of k xs)%nat.
Proof.
  unfold count_of. simpl. destruct (decide (x = k)) as [-> | Hne].
  - by rewrite bool_decide_eq_true_2.
  - by rewrite bool_decide_eq_false_2.
Qed.

Lemma count_of_app (k : K) (xs ys : list K) : count_of k (xs ++ ys) = (count_of k xs + count_of k ys)%nat.
Proof. unfold count_of. by rewrite List.filter_app, length_app. Qed.

Lemma count_of_pos (k : K) (xs : list K) : (0 < count_of k xs)%nat <-> k ∈ xs.
Proof.
  induction xs as [| x xs IH]; [rewrite elem_of_nil; simpl; unfold count_of; simpl; lia |].
  rewrite count_of_cons, elem_of_cons. destruct (decide (x = k)) as [-> | Hne].
  - split; [by left | lia].
  - simpl. rewrite IH. split; [by right | intros [-> | ?]; done].
Qed.

Lemma count_of_le_length (k : K) (xs : list K) : (count_of k xs <= length xs)%nat.
Proof.
  induction xs as [| x xs IH]; [unfold count_of; simpl; lia |].
  rewrite count_of_cons. simpl. destruct (decide (x = k)); lia.
Qed.

(** Two different keys cannot both be counted on the same elements. *)
Lemma count_of_two (k1 k2 : K) (xs : list K) :
  k1 <> k2 -> (count_of k1 xs + count_of k2 xs <= length xs)%nat.
Proof.
  intros Hne. induction xs as [| x xs IH]; [unfold count_of; simpl; lia |].
  rewrite !count_of_cons. simpl.
  destruct (decide (x = k1)), (decide (x = k2)); subst; try done; lia.
Qed.

(** A well-formed counter: distinct keys, positive counts. *)
Definition counter_ok (c : list (K * nat)) : Prop :=
  NoDup c.*1 /\ Forall (fun kv => 0 < kv.2)%nat c.

Lemma get0_counter_add (k k' : K) (c : list (K * nat)) :
  get0 (counter_add k c) k' = ((if decide (k = k') then 1 else 0) + get0 c k')%nat.
Proof.
  induction c as [| [k0 n] c IH]; simpl.
  - destruct (decide (k' = k)), (decide (k = k')); subst; done.
  - destruct (decide (k = k0)) as [-> | Hne]; simpl.
    + destruct (decide (k' = k0)) as [-> | Hne'].
      * by rewrite decide_True.
      * rewrite decide_False by done. done.
    + destruct (decide (k' = k0)) as [-> | Hne'].
      * by rewrite decide_False.
      * exact IH.
Qed.

Lemma keys_counter_add (k : K) (c : list (K * nat)) :
  (counter_add k c).*1 = if bool_decide (k ∈ c.*1) then c.*1 else c.*1 ++ [k].
Proof.
  induction c as [| [k0 n] c IH]; [done |].
  cbn [counter_add]. destruct (decide (k = k0)) as [-> | Hne]; rewrite !fmap_cons; cbn [fst].
  - rewrite bool_decide_eq_true_2; [done | by left].
  - rewrite IH. destruct (decide (k ∈ c.*1)) as [Hin | Hnin].
    + rewrite !bool_decide_eq_true_2; [done | by right | done].
    + rewrite !bool_decide_eq_false_2; [done | | done].
      rewrite elem_of_cons. intros [? | ?]; done.
Qed.

Lemma counter_add_ok (k : K) (c : list (K * nat)) : counter_ok c -> counter_ok (counter_add k c).
Proof.
  intros [Hnd Hpos]. split.
  - rewrite keys_counter_add. case_bool_decide as Hin; [done |].
    apply NoDup_app. split; [done |]. split; [| apply NoDup_singleton].
    intros x Hx ->%list_elem_of_singleton. done.
  - clear Hnd. induction c as [| [k0 n] c IH]; simpl.
    + repeat constructor.
    + apply Forall_cons in Hpos as [Hn Hpos].
      destruct (decide (k = k0)); constructor; simpl in *; auto; lia.
Qed.

Lemma get0_entry (c : list (K * nat)) (k : K) (n : nat) : NoDup c.*1 -> (k, n) ∈ c -> get0 c k = n.
Proof.
  induction c as [| [k0 n0] c IH]; simpl; intros Hnd Hin; [by apply elem_of_nil in Hin |].
  apply NoDup_cons in Hnd as [Hk0 Hnd].
  apply elem_of_cons in Hin as [Heq | Hin].
  - inversion Heq; subst. by rewrite decide_True.
  - destruct (decide (k = k0)) as [-> | Hne]; [| by apply IH].
    exfalso. apply Hk0. apply list_elem_of_fmap. by exists (k0, n).
Qed.

Lemma entry_get0 (c : list (K * nat)) (k : K) : (0 < get0 c k)%nat -> (k, get0 c k) ∈ c.
Proof.
  induction c as [| [k0 n0] c IH]; simpl; [lia |].
  destruct (decide (k = k0)) as [-> | Hne]; intros Hpos; [by left |].
  right. by apply IH.
Qed.

Lemma foldl_counter_add_ok (xs : list K) (c : list (K * nat)) :
  counter_ok c -> counter_ok (foldl (fun c k => counter_add k c) c xs).
Proof.
  revert c. induction xs as [| x xs IH]; simpl; intros c Hc; [done |].
  apply IH. by apply counter_add_ok.
Qed.

Lemma get0_foldl (xs : list K) (c : list (K * nat)) (k : K) :
  get0 (foldl (fun c k => counter_add k c) c xs) k = (get0 c k + count_of k xs)%nat.
Proof.
  revert c. induction xs as [| x xs IH]; simpl; intros c.
  - unfold count_of. simpl. lia.
  - rewrite IH, get0_counter_add, count_of_cons. lia.
Qed.

Lemma Counter_ok (xs : list K) : counter_ok (Counter xs).
Proof. apply foldl_counter_add_ok. split; [apply NoDup_nil_2 | constructor]. Qed.

Lemma get0_Counter (xs : list K) (k : K) : get0 (Counter xs) k = count_of k xs.
Proof. unfold Counter. rewrite get0_foldl. done. Qed.

(** The entries of [Counter(xs)] are the elements of [xs] with their counts. *)
Lemma elem_of_Counter (xs : list K) (k : K) (n : nat) :
  (k, n) ∈ Counter xs <-> k ∈ xs /\ n = count_of k xs.
Proof.
  pose proof (Counter_ok xs) as [Hnd Hpos]. split.
  - intros Hin. pose proof (get0_entry _ _ _ Hnd Hin) as Hget.
    rewrite get0_Counter in Hget. subst n. split; [| done].
    apply count_of_pos. rewrite Forall_forall in Hpos. exact (Hpos _ Hin).
  - intros [Hin ->]. rewrite <- get0_Counter. apply entry_get0.
    rewrite get0_Counter. by apply count_of_pos.
Qed.

Lemma Counter_keys_NoDup (xs : list K) : NoDup (Counter xs).*1.
Proof. apply Counter_ok. Qed.

Lemma elem_of_Counter_keys (xs : list K) (k : K) : k ∈ (Counter xs).*1 <-> k ∈ xs.
Proof.
  rewrite list_elem_of_fmap. split.
  - intros [[k' n] [-> Hin]]. by apply elem_of_Counter in Hin as [? _].
  - intros Hin. exists (k, count_of k xs). split; [done |]. by apply elem_of_Counter.
Qed.

(** The values of a counter are the counts of its keys, in key order. *)
Lemma Counter_values (xs : list K) :
  values (Counter xs) = (fun k => count_of k xs) <$> (Counter xs).*1.
Proof.
  unfold values. rewrite <- list_fmap_compose.
  apply list_fmap_ext. intros i [k n] Hi. simpl.
  apply list_elem_of_lookup_2 in Hi. by apply elem_of_Counter in Hi as [_ ->].
Qed.

End counter.
End PyFacts.

(** ** bet_sizing.py: the buckets partition the non-negative ratios *)

Module BetSizingFacts.
Import BetSizing.

Ltac split_leb :=
  repeat match goal with
  | |- context [Z.leb ?a ?b] => destruct (Z.leb_spec a b)
  | H : context [Z.leb ?a ?b] |- _ => destruct (Z.leb_spec a b)
  end.

Ltac unfold_buckets :=
  cbv [BET_SIZE_BUCKETS List.find contains lower upper flt feq fge Qle_bool Qnum Qden negb] in *.

Ltac bucket_cases H :=
  repeat (apply elem_of_cons in H as [-> | H]); [.. | by apply elem_of_nil in H].

(** Two buckets of the table that contain the same ratio are the same bucket. *)
Lemma contains_exclusive (r : pyfloat) (b1 b2 : BetSizeBucket) :
  b1 ∈ BET_SIZE_BUCKETS -> b2 ∈ BET_SIZE_BUCKETS ->
  contains b1 r = true -> contains b2 r = true -> b1 = b2.
Proof.
  intros H1 H2 C1 C2.
  destruct r as [[n d] | | |].
  - bucket_cases H1; bucket_cases H2; try reflexivity;
      unfold_buckets; exfalso; split_leb; try discriminate; lia.
  - bucket_cases H1; bucket_cases H2; try reflexivity; discriminate.
  - bucket_cases H1; discriminate.
  - bucket_cases H1; discriminate.
Qed.

(** A ratio that is at least zero is found in the table. *)
Lemma find_nonneg (r : pyfloat) :
  fge r (Fin 0) = true ->
  exists b, List.find (fun b => contains b r) BET_SIZE_BUCKETS = Some b.
Proof.
  intros Hr. destruct r as [[n d] | | |]; try discriminate.
  - unfold_buckets. split_leb; try discriminate; try lia; eauto.
  - eexists. reflexivity.
Qed.

(** A ratio that is at least zero gets the bucket found in the table. *)
Lemma find_some_bucket (r : pyfloat) :
  fge r (Fin 0) = true ->
  exists b, bucket_for_ratio (Some r) = Some b
    /\ List.find (fun b => contains b r) BET_SIZE_BUCKETS = Some b.
Proof.
  intros Hr. destruct (find_nonneg r Hr) as [b Hb]. exists b. split; [| exact Hb].
  unfold bucket_for_ratio. rewrite Hb.
  destruct r as [q | | |]; try discriminate; [| reflexivity].
  unfold fne, feq. rewrite (Qeq_bool_refl q). simpl.
  unfold fge in Hr. simpl in Hr. destruct (Qle_bool 0 q); [reflexivity | discriminate].
Qed.

(** C7.  A ratio that is at least zero (a non-negative rational, or plus
    infinity) gets exactly one bucket: [bucket_for_ratio] returns a bucket of
    the table that contains it, and no other bucket of the table contains it;
    a negative ratio, NaN and [None] get [None]. *)
Theorem bucket_for_ratio_partition :
  (forall r, fge r (Fin 0) = true ->
     exists b, bucket_for_ratio (Some r) = Some b
       /\ b ∈ BET_SIZE_BUCKETS /\ contains b r = true
       /\ forall b', b' ∈ BET_SIZE_BUCKETS -> contains b' r = true -> b' = b)
  /\ (forall r, flt r (Fin 0) = true -> bucket_for_ratio (Some r) = None)
  /\ bucket_for_ratio (Some NaN) = None
  /\ bucket_for_ratio None = None.
Proof.
  split; [| split; [| split; reflexivity]].
  - intros r Hr. destruct (find_some_bucket r Hr) as (b & Hbucket & Hb).
    pose proof (find_some _ _ Hb) as [Hin Hc].
    apply list_elem_of_In in Hin.
    exists b. split; [exact Hbucket | split; [exact Hin | split; [exact Hc |]]].
    intros b' Hb' Hc'. exact (contains_exclusive r b' b Hb' Hin Hc' Hc).
  - intros r Hr. unfold bucket_for_ratio. rewrite Hr. destruct (fne r r); reflexivity.
Qed.

Lemma bucket_for_ratio_partition_witness :
  exists b, bucket_for_ratio (Some (Fin 0.30)) = Some b /\ key b = "pct_25_40"
    /\ bucket_for_ratio (Some (Fin (-0.1))) = None.
Proof.
  destruct (proj1 bucket_for_ratio_partition (Fin 0.30) eq_refl) as (b & Hb & _).
  exists b. split; [exact Hb |]. split.
  - vm_compute in Hb. injection Hb as <-. reflexivity.
  - exact (proj1 (proj2 bucket_for_ratio_partition) (Fin (-0.1)) eq_refl).
Defined.

End BetSizingFacts.

(** ** cards.py and textures.py: parsing *)

Module CardsFacts.
Import Cards.

(** One ill-formed token anywhere empties the result, whatever was parsed
    before it. *)
Lemma parse_loop_fail_closed (parts : list string) (cards : list card) :
  (exists p, p ∈ parts /\ well_formed_token p = false) -> parse_loop parts cards = [].
Proof.
  revert cards. induction parts as [| part rest IH]; intros cards (p & Hp & Hbad).
  - by apply elem_of_nil in Hp.
  - cbn [parse_loop]. cbv zeta.
    destruct part as [| c0 [| c1 [| ? ?]]]; try reflexivity.
    destruct (rank_lookup CARD_RANKS (PyStr.upper_char c1)) as [v |] eqn:Hrank; [| reflexivity].
    destruct (Py.inb (PyStr.upper_char c0) SUITS) eqn:Hsuit; [| reflexivity].
    apply elem_of_cons in Hp as [-> | Hp]; [| apply IH; eauto].
    unfold well_formed_token in Hbad. rewrite Hsuit, Hrank in Hbad.
    rewrite bool_decide_eq_true_2 in Hbad by eauto. discriminate.
Qed.

(** When every token is well formed, every token yields a card. *)
Lemma parse_loop_all (parts : list string) (cards : list card) :
  Forall (fun p => well_formed_token p = true) parts ->
  length (parse_loop parts cards) = (length cards + length parts)%nat.
Proof.
  revert cards. induction parts as [| part rest IH]; intros cards Hall; [simpl; lia |].
  apply Forall_cons in Hall as [Hp Hrest]. unfold well_formed_token in Hp.
  destruct part as [| c0 [| c1 [| ? ?]]]; try discriminate.
  apply andb_true_iff in Hp as [Hs Hr]. apply bool_decide_eq_true in Hr as [v Hv].
  cbn [parse_loop]. cbv zeta.
  rewrite Hv, Hs, IH by done. rewrite length_app. simpl. lia.
Qed.

(** The same two facts for the case-sensitive [_parse_cards] of cbet_utils.py. *)
Definition well_formed_token_cs (p : string) : bool :=
  match p with
  | String c0 (String c1 EmptyString) =>
      Py.inb c0 SUITS && bool_decide (is_Some (rank_lookup CARD_RANKS c1))
  | _ => false
  end.

Lemma cbet_parse_loop_fail_closed (parts : list string) (cards : list card) :
  (exists p, p ∈ parts /\ well_formed_token_cs p = false) -> CbetUtils.parse_loop parts cards = [].
Proof.
  revert cards. induction parts as [| part rest IH]; intros cards (p & Hp & Hbad).
  - by apply elem_of_nil in Hp.
  - cbn [CbetUtils.parse_loop]. unfold CbetUtils.CARD_RANKS, CbetUtils.SUITS.
    destruct part as [| c0 [| c1 [| ? ?]]]; try reflexivity.
    destruct (rank_lookup CARD_RANKS c1) as [v |] eqn:Hrank; [| reflexivity].
    destruct (Py.inb c0 SUITS) eqn:Hsuit; [| reflexivity].
    apply elem_of_cons in Hp as [-> | Hp]; [| apply IH; eauto].
    unfold well_formed_token_cs in Hbad. rewrite Hsuit, Hrank in Hbad.
    rewrite bool_decide_eq_true_2 in Hbad by eauto. discriminate.
Qed.

(** C9 (amended).  The strict parsers fail closed: if any token of the text
    is not a suit letter followed by a rank character, [parse_cards_text]
    (cards.py) and [_parse_cards] (cbet_utils.py) return the empty list. *)
Theorem parse_cards_fail_closed (text : string) (p : string) :
  p ∈ parts_of text ->
  (well_formed_token p = false -> parse_cards_text (Some text) = [])
  /\ (well_formed_token_cs p = false -> CbetUtils._parse_cards (Some text) = []).
Proof.
  intros Hp. split; intros Hbad.
  - unfold parse_cards_text. destruct (Py.truthy text); [| reflexivity].
    apply parse_loop_fail_closed. eauto.
  - unfold CbetUtils._parse_cards. destruct (Py.truthy text); [| reflexivity].
    apply cbet_parse_loop_fail_closed. eauto.
Qed.

Lemma parse_cards_fail_closed_witness :
  parse_cards_text (Some "HK XX D2") = []
  /\ parse_cards_text (Some "HK sa D2")
     = [("H"%char, 13%nat, "HK"); ("S"%char, 14%nat, "SA"); ("D"%char, 2%nat, "D2")].
Proof.
  split; [| reflexivity].
  apply (proj1 (parse_cards_fail_closed "HK XX D2" "XX"
                  ltac:(vm_compute; right; left))).
  reflexivity.
Defined.

End CardsFacts.

Module TexturesParse.
Import Textures.

(** C9, as stated, fails for the flop parser of textures.py: the token ["XX"]
    does not parse, and the cards around it are still returned, so
    [detect_textures] labels a board that was only partly read. *)
Lemma parse_flop_keeps_partial_list :
  _parse_token "XX" = None
  /\ parse_flop (Some "As XX 4c") = [mkCard "A" "S"; mkCard "4" "C"]
  /\ texture_keys (Some "As XX 4c 9d") = ["rainbow"; "ace_high"].
Proof. repeat split; reflexivity. Qed.

End TexturesParse.

(** ** textures.py: suit textures *)

Module TexturesFacts.
Import Textures.

(** A set built from a list has at most as many elements as the list. *)
Lemma size_list_to_set_le {A} {EqA : EqDecision A} {CA : Countable A} (l : list A) :
  size (list_to_set l : gset A) <= length l.
Proof.
  induction l as [| x l IH].
  - rewrite list_to_set_nil, size_empty. simpl. lia.
  - rewrite list_to_set_cons, size_union_alt, size_singleton. simpl.
    assert (Hsub : size (list_to_set l ∖ {[x]} : gset A) <= size (list_to_set l : gset A)).
    { apply subseteq_size. intros y Hy. by apply elem_of_difference in Hy as [? _]. }
    lia.
Qed.

Lemma size_list_to_set_pos {A} {EqA : EqDecision A} {CA : Countable A} (x : A) (l : list A) :
  1 <= size (list_to_set (x :: l) : gset A).
Proof.
  rewrite list_to_set_cons, size_union_alt, size_singleton. lia.
Qed.

Lemma suit_count_flop (cards : list Card) :
  length cards = 3%nat -> 1 <= suit_count cards <= 3.
Proof.
  intros Hlen. unfold suit_count.
  pose proof (size_list_to_set_le (suit <$> cards)) as Hle.
  rewrite length_fmap, Hlen in Hle.
  destruct cards as [| c cards]; [discriminate |].
  rewrite fmap_cons in *. pose proof (size_list_to_set_pos (suit c) (suit <$> cards)). lia.
Qed.

(** The three suit-texture entries of the table, by key. *)
Definition suit_specs : list TextureSpec :=
  List.filter (fun spec => Py.inb (key spec) ["rainbow"; "monotone"; "two_tone"])
              FLOP_TEXTURE_SPECS.

(** C10.  On a flop of exactly three cards, exactly one of the predicates
    of the rainbow, monotone and two-tone entries of [FLOP_TEXTURE_SPECS] holds
    (three suits, one suit, two suits), and [detect_textures] reports exactly
    one of these three keys. *)
Theorem suit_texture_exactly_one (cards : list Card) :
  length cards = 3%nat ->
  ((rainbow_pred cards = true /\ monotone_pred cards = false /\ two_tone_pred cards = false)
   \/ (rainbow_pred cards = false /\ monotone_pred cards = true /\ two_tone_pred cards = false)
   \/ (rainbow_pred cards = false /\ monotone_pred cards = false /\ two_tone_pred cards = true))
  /\ predicate <$> suit_specs = [rainbow_pred; monotone_pred; two_tone_pred]
  /\ length (List.filter (fun spec => Py.inb (key spec) ["rainbow"; "monotone"; "two_tone"])
                         (textures_of_cards cards)) = 1%nat.
Proof.
  intros Hlen. pose proof (suit_count_flop cards Hlen) as Hc.
  assert (Hcases : (suit_count cards = 1 \/ suit_count cards = 2 \/ suit_count cards = 3)%nat) by lia.
  split; [| split; [reflexivity |]].
  - unfold rainbow_pred, monotone_pred, two_tone_pred. rewrite Hlen.
    destruct Hcases as [-> | [-> | ->]]; simpl; auto.
  - unfold textures_of_cards. rewrite Hlen. simpl.
    unfold rainbow_pred, monotone_pred, two_tone_pred. rewrite Hlen.
    destruct Hcases as [-> | [-> | ->]]; simpl;
      repeat match goal with |- context [if ?b then _ else _] => destruct b end; reflexivity.
Qed.

Lemma suit_texture_exactly_one_witness :
  texture_keys (Some "As 3c 4s") = ["two_tone"; "connected"; "ace_high"]
  /\ length (List.filter (fun spec => Py.inb (key spec) ["rainbow"; "monotone"; "two_tone"])
                         (detect_textures (Some "As 3c 4s"))) = 1%nat.
Proof.
  split; [reflexivity |].
  exact (proj2 (proj2 (suit_texture_exactly_one (parse_flop (Some "As 3c 4s")) eq_refl))).
Defined.

End TexturesFacts.

(** ** cbet_utils.py: draw flags *)

Module ClassifierFacts.
Import Py PyFacts CbetUtils.

(** How many of [cards] have suit [s]. *)
Definition count_suit (s : ascii) (cards : list card) : nat :=
  count_of s (card_suit <$> cards).

(** How many of [cards] have rank [r]. *)
Definition count_rank (r : nat) (cards : list card) : nat :=
  count_of r (card_rank <$> cards).

Lemma any_values_iff {K} `{EqDecision K} (f : nat -> bool) (xs : list K) :
  any f (values (Counter xs)) = true <-> exists k, k ∈ xs /\ f (count_of k xs) = true.
Proof.
  unfold any, values. rewrite existsb_exists. split.
  - intros (v & Hv & Hf). apply list_elem_of_In, list_elem_of_fmap in Hv as ([k n] & -> & Hkn).
    apply elem_of_Counter in Hkn as [Hk ->]. eauto.
  - intros (k & Hk & Hf). exists (count_of k xs). split; [| done].
    apply list_elem_of_In, list_elem_of_fmap. exists (k, count_of k xs). split; [done |].
    by apply elem_of_Counter.
Qed.

Lemma has_flush_iff (cards : list card) :
  _has_flush cards = true <-> exists s, 5 <= count_suit s cards.
Proof.
  unfold _has_flush. rewrite any_values_iff. split.
  - intros (s & _ & Hs). exists s. by apply Nat.leb_le in Hs.
  - intros (s & Hs). exists s. split; [| by apply Nat.leb_le].
    apply count_of_pos. unfold count_suit in Hs. lia.
Qed.

Lemma has_flush_draw_iff (hole board : list card) :
  _has_flush_draw hole board = true <->
  exists s, 4 <= count_suit s (hole ++ board) /\ 1 <= count_suit s hole.
Proof.
  unfold _has_flush_draw, any, count_suit. rewrite existsb_exists, fmap_app. split.
  - intros ([s n] & Hin & Hf). apply list_elem_of_In, elem_of_Counter in Hin as [_ ->].
    apply andb_true_iff in Hf as [H4 H1]. apply Nat.leb_le in H4. apply Nat.ltb_lt in H1.
    rewrite get0_Counter in H1. exists s. split; [done | lia].
  - intros (s & H4 & H1).
    exists (s, count_of s ((card_suit <$> hole) ++ (card_suit <$> board))). split.
    + apply list_elem_of_In, elem_of_Counter. split; [| done]. apply count_of_pos. lia.
    + apply andb_true_iff. split; [by apply Nat.leb_le |].
      apply Nat.ltb_lt. rewrite get0_Counter. lia.
Qed.

Lemma classify_flush_draw (hole board : list card) :
  flush_draw (_classify_hand hole board) =
  if _has_flush (hole ++ board) then false else _has_flush_draw hole board.
Proof. unfold _classify_hand. destruct (_straight_info hole board). reflexivity. Qed.

Lemma classify_made_flush (hole board : list card) :
  made_flush (_classify_hand hole board) = _has_flush (hole ++ board).
Proof. unfold _classify_hand. destruct (_straight_info hole board). reflexivity. Qed.

(** C8.  With at most seven cards in play, the flush-draw flag of
    [_classify_hand] is set exactly when some suit has exactly four cards among
    hole and board together and at least one of them in the hole; and a made
    flush clears the flag. *)
Theorem flush_draw_flag (hole board : list card) :
  length hole + length board <= 7 ->
  (flush_draw (_classify_hand hole board) = true <->
   exists s, count_suit s (hole ++ board) = 4%nat /\ 1 <= count_suit s hole)
  /\ (made_flush (_classify_hand hole board) = true ->
      flush_draw (_classify_hand hole board) = false).
Proof.
  intros Hlen. rewrite classify_flush_draw, classify_made_flush.
  split; [| by intros ->].
  destruct (_has_flush (hole ++ board)) eqn:Hflush.
  - apply has_flush_iff in Hflush as (s5 & H5). split; [done |].
    intros (s & H4 & _). exfalso.
    destruct (decide (s = s5)) as [-> | Hne]; [lia |].
    pose proof (count_of_two s s5 (card_suit <$> (hole ++ board)) Hne) as Htwo.
    rewrite length_fmap, length_app in Htwo. unfold count_suit in *. lia.
  - rewrite has_flush_draw_iff. split.
    + intros (s & H4 & H1). exists s. split; [| done].
      destruct (decide (5 <= count_suit s (hole ++ board))) as [H5 | H5]; [| lia].
      assert (_has_flush (hole ++ board) = true) by (apply has_flush_iff; eauto).
      congruence.
    + intros (s & H4 & H1). exists s. split; [lia | done].
Qed.

Lemma flush_draw_flag_witness :
  flush_draw (_classify_hand (_parse_cards (Some "HA HK")) (_parse_cards (Some "HQ HJ C2"))) = true
  /\ primary (_classify_hand (_parse_cards (Some "HA HK")) (_parse_cards (Some "HQ HJ C2"))) = Air.
Proof.
  split; [| reflexivity].
  apply (proj1 (flush_draw_flag (_parse_cards (Some "HA HK")) (_parse_cards (Some "HQ HJ C2"))
                  ltac:(simpl; lia))).
  exists "H"%char. split; [reflexivity | simpl; unfold count_suit, count_of; simpl; lia].
Defined.

(** The scenario of the specification: hole Ah Kh on a board Qh Jh 2c is a
    flush draw, not a made straight, and its primary category is Air. *)
Theorem scenario_flush_draw_air :
  _classify_hand (_parse_cards (Some "HA HK")) (_parse_cards (Some "HQ HJ C2"))
  = mkClassification Air true false false false false.
Proof. reflexivity. Qed.

End ClassifierFacts.

(** ** cbet_utils.py: the priority order of the classifier *)

Module ListFacts.
Import Py PyFacts.

Lemma filter_length_perm {A} (f : A -> bool) (l l' : list A) :
  l ≡ₚ l' -> length (List.filter f l) = length (List.filter f l').
Proof.
  induction 1 as [| x l l' _ IH | x y l | l l' l'' _ IH1 _ IH2]; simpl.
  - done.
  - destruct (f x); simpl; by rewrite IH.
  - destruct (f x), (f y); done.
  - by rewrite IH1.
Qed.

Lemma filter_fmap_length {A B} (f : B -> bool) (g : A -> B) (l : list A) :
  length (List.filter f (g <$> l)) = length (List.filter (fun x => f (g x)) l).
Proof.
  induction l as [| x l IH]; [done |].
  rewrite fmap_cons. cbn [List.filter]. destruct (f (g x)); cbn [length]; by rewrite IH.
Qed.

Lemma elem_of_List_filter {A} (f : A -> bool) (l : list A) (x : A) :
  x ∈ List.filter f l <-> x ∈ l /\ f x = true.
Proof. rewrite !list_elem_of_In. apply filter_In. Qed.

Lemma NoDup_List_filter {A} (f : A -> bool) (l : list A) :
  NoDup l -> NoDup (List.filter f l).
Proof.
  induction 1 as [| x l Hx Hl IH]; simpl; [constructor |].
  destruct (f x); [| done]. constructor; [| done].
  rewrite elem_of_List_filter. tauto.
Qed.

Lemma existsb_pointwise {A} (f g : A -> bool) (l : list A) :
  (forall x, f x = g x) -> existsb f l = existsb g l.
Proof. intros H. induction l as [| x l IH]; simpl; [done |]. by rewrite H, IH. Qed.

Lemma forallb_pointwise {A} (f g : A -> bool) (l : list A) :
  (forall x, f x = g x) -> forallb f l = forallb g l.
Proof. intros H. induction l as [| x l IH]; simpl; [done |]. by rewrite H, IH. Qed.

Lemma List_filter_none {A} (f : A -> bool) (l : list A) :
  (forall x, x ∈ l -> f x = false) -> List.filter f l = [].
Proof.
  induction l as [| x l IH]; intros Hf; simpl; [done |].
  rewrite (Hf x) by left. apply IH. intros y Hy. apply Hf. by right.
Qed.

(** A duplicate-free list with two different members has two elements. *)
Lemma NoDup_two_length {A} (l : list A) (x y : A) :
  NoDup l -> x ∈ l -> y ∈ l -> x <> y -> 2 <= length l.
Proof.
  intros Hnd Hx Hy Hne.
  destruct l as [| a [| b l]]; simpl; [by apply elem_of_nil in Hx | | lia].
  apply list_elem_of_singleton in Hx, Hy. congruence.
Qed.

(** A duplicate-free list of two elements has a member other than any given one. *)
Lemma NoDup_other {A} `{EqDecision A} (l : list A) (x : A) :
  NoDup l -> 2 <= length l -> exists y, y ∈ l /\ y <> x.
Proof.
  intros Hnd Hlen. destruct l as [| a [| b l]]; simpl in Hlen; [lia | lia |].
  apply NoDup_cons in Hnd as [Hab _].
  destruct (decide (a = x)) as [-> | Hne].
  - exists b. split; [right; left |]. intros ->. apply Hab. left.
  - exists a. split; [left | done].
Qed.

(** On a descending list, the second element bounds the number of elements
    that reach a threshold. *)
Lemma Desc_filter_two (t : nat) (c0 c1 : nat) (l : list nat) :
  Desc (c0 :: c1 :: l) ->
  2 <= length (List.filter (fun v => t <=? v)%nat (c0 :: c1 :: l)) -> t <= c1.
Proof.
  intros Hs Hlen. apply StronglySorted_inv in Hs as [Hs _].
  destruct (decide (t <= c1)) as [| Hlt]; [done | exfalso].
  assert (Hnone : List.filter (fun v => t <=? v)%nat (c1 :: l) = []).
  { apply List_filter_none. intros x Hx. pose proof (Desc_head_max _ _ _ Hs Hx).
    apply Nat.leb_gt. lia. }
  change (c0 :: c1 :: l) with ([c0] ++ (c1 :: l)) in Hlen.
  rewrite List.filter_app, Hnone, app_nil_r in Hlen. simpl in Hlen.
  destruct (t <=? c0)%nat; simpl in Hlen; lia.
Qed.

(** [highest l]: the largest element of a non-empty list. *)
Definition highest (l : list nat) : option nat :=
  match l with
  | [] => None
  | _ => Some (max_list l)
  end.

Lemma highest_Some (l : list nat) (m : nat) :
  m ∈ l -> (forall x, x ∈ l -> x <= m) -> highest l = Some m.
Proof.
  intros Hm Hle. destruct l as [| a l]; [by apply elem_of_nil in Hm |].
  unfold highest. f_equal. apply Nat.le_antisymm.
  - apply Hle. by apply max_list_elem_of.
  - by apply max_list_elem_of_le.
Qed.

Lemma highest_None (l : list nat) : (forall x, x ∉ l) -> highest l = None.
Proof. destruct l as [| a l]; [done |]. intros H. exfalso. apply (H a). left. Qed.

(** The head of a strictly descending enumeration of [l] is the highest
    element of [l]; the tail enumerates what lies below the head. *)
Lemma Desc_head_highest (bu l : list nat) :
  Desc bu -> (forall x, x ∈ bu <-> x ∈ l) -> bu !! 0%nat = highest l.
Proof.
  intros Hs Hel. destruct bu as [| a t]; simpl.
  - symmetry. apply highest_None. intros x Hx%Hel. by apply elem_of_nil in Hx.
  - symmetry. apply highest_Some.
    + apply Hel. left.
    + intros x Hx%Hel. by eapply Desc_head_max.
Qed.

Lemma Desc_tail_below (a : nat) (t l : list nat) :
  Desc (a :: t) -> NoDup (a :: t) -> (forall x, x ∈ a :: t <-> x ∈ l) ->
  Desc t /\ NoDup t /\ forall x, x ∈ t <-> x ∈ List.filter (fun x => x <? a)%nat l.
Proof.
  intros Hs Hnd Hel. pose proof Hs as Hs'.
  apply StronglySorted_inv in Hs as [Hs Hall]. apply NoDup_cons in Hnd as [Ha Hnd].
  split; [done |]. split; [done |]. intros x. rewrite elem_of_List_filter, <- Hel.
  rewrite Nat.ltb_lt, elem_of_cons. split.
  - intros Hx. split; [by right |]. rewrite Forall_forall in Hall.
    pose proof (Hall x Hx). assert (x <> a) by (intros ->; done). lia.
  - intros [[-> | Hx] Hlt]; [lia | done].
Qed.

End ListFacts.

(** The priority list of section 4.2, written from the words of the
    specification, one predicate per category. *)
Module ClassifySpec.
Import Py PyFacts ListFacts CbetUtils.

Definition ranks (cards : list card) : list nat := card_rank <$> cards.
Definition suits (cards : list card) : list ascii := card_suit <$> cards.
Definition distinct_ranks (cards : list card) : list nat := remove_dups (ranks cards).
Definition times (r : nat) (cards : list card) : nat := count_of r (ranks cards).

(** Full house: one rank three times, another rank twice. *)
Definition is_full_house (combined : list card) : bool :=
  existsb (fun r1 =>
             (3 <=? times r1 combined)%nat
             && existsb (fun r2 => negb (r2 =? r1)%nat && (2 <=? times r2 combined)%nat)
                        (distinct_ranks combined))
          (distinct_ranks combined).

(** Quads: a rank four times. *)
Definition is_quads (combined : list card) : bool :=
  existsb (fun r => (4 <=? times r combined)%nat) (distinct_ranks combined).

(** Flush: five cards of one suit. *)
Definition is_flush (combined : list card) : bool :=
  existsb (fun s => (5 <=? count_of s (suits combined))%nat) (remove_dups (suits combined)).

(** Straight: five consecutive ranks, the ace also counting as 1. *)
Definition has_rank (combined : list card) (r : nat) : bool :=
  bool_decide (r ∈ ranks combined) || ((r =? 1)%nat && bool_decide (14%nat ∈ ranks combined)).

Definition is_straight (combined : list card) : bool :=
  existsb (fun low => forallb (fun k => has_rank combined (low + k)) (seq 0 5)) (seq 1 10).

(** Trips or set: a rank three times. *)
Definition is_trips (combined : list card) : bool :=
  existsb (fun r => (3 <=? times r combined)%nat) (distinct_ranks combined).

(** Two pair: two ranks, each at least twice. *)
Definition is_two_pair (combined : list card) : bool :=
  (2 <=? length (List.filter (fun r => (2 <=? times r combined)%nat) (distinct_ranks combined)))%nat.

Definition pocket_pair (hole : list card) : option nat :=
  match ranks hole with
  | [a; b] => if (a =? b)%nat then Some a else None
  | _ => None
  end.

(** Overpair: a pocket pair above every rank of the board. *)
Definition is_overpair (hole board : list card) : bool :=
  match pocket_pair hole with
  | Some h => forallb (fun b => (b <? h)%nat) (ranks board)
  | None => false
  end.

(** The highest, second-highest and third-highest distinct rank of a board. *)
Fixpoint nth_highest (k : nat) (l : list nat) : option nat :=
  match k with
  | O => highest l
  | S k' =>
      match nth_highest k' l with
      | Some m => highest (List.filter (fun x => x <? m)%nat l)
      | None => None
      end
  end.

(** Top, middle or bottom pair: a hole card of that board rank. *)
Definition pairs_board (k : nat) (hole board : list card) : bool :=
  match nth_highest k (ranks board) with
  | Some m => existsb (fun r => (r =? m)%nat) (ranks hole)
  | None => false
  end.

(** Underpair: a pocket pair below the top rank of the board. *)
Definition is_underpair (hole board : list card) : bool :=
  match pocket_pair hole, highest (ranks board) with
  | Some h, Some m => (h <? m)%nat
  | _, _ => false
  end.

Definition categories (hole board : list card) : list (Primary * bool) :=
  let combined := hole ++ board in
  [ (FullHouse, is_full_house combined);
    (Quads, is_quads combined);
    (Flush, is_flush combined);
    (Straight, is_straight combined);
    (TripsSet, is_trips combined);
    (TwoPair, is_two_pair combined);
    (Overpair, is_overpair hole board);
    (TopPair, pairs_board 0 hole board);
    (MiddlePair, pairs_board 1 hole board);
    (BottomPair, pairs_board 2 hole board);
    (Underpair, is_underpair hole board) ].

(** First match wins; Air when nothing matches. *)
Definition first_match (l : list (Primary * bool)) : Primary :=
  match List.find snd l with
  | Some (p, _) => p
  | None => Air
  end.

Definition spec_primary (hole board : list card) : Primary :=
  first_match (categories hole board).

End ClassifySpec.

Module ClassifyRefines.
Import Py PyFacts ListFacts CbetUtils ClassifierFacts ClassifySpec.

Lemma existsb_distinct_iff {K} `{EqDecision K} (f : K -> bool) (xs : list K) :
  existsb f (remove_dups xs) = true <-> exists k, k ∈ xs /\ f k = true.
Proof.
  rewrite existsb_exists. split; intros (k & Hk & Hf); exists k; split; try done.
  - apply elem_of_remove_dups. by apply list_elem_of_In.
  - apply list_elem_of_In. by apply elem_of_remove_dups.
Qed.

(** [any(v >= n for v in rank_counts.values())] says that some rank occurs
    [n] times. *)
Lemma any_count_spec (n : nat) (cards : list card) :
  any (fun v => (n <=? v)%nat) (values (Counter (card_rank <$> cards)))
  = existsb (fun r => (n <=? times r cards)%nat) (distinct_ranks cards).
Proof.
  apply eq_true_iff_eq. unfold distinct_ranks, times, ranks.
  rewrite any_values_iff, existsb_distinct_iff. reflexivity.
Qed.

Lemma has_flush_spec (cards : list card) : _has_flush cards = is_flush cards.
Proof.
  apply eq_true_iff_eq. unfold _has_flush, is_flush, suits.
  rewrite any_values_iff, existsb_distinct_iff. reflexivity.
Qed.

Lemma elem_of_distinct_ranks (r : nat) (cards : list card) :
  r ∈ distinct_ranks cards <-> r ∈ card_rank <$> cards.
Proof. apply elem_of_remove_dups. Qed.

(** The keys of the rank counter and the distinct ranks are the same ranks. *)
Lemma keys_perm_distinct (cards : list card) :
  (Counter (card_rank <$> cards)).*1 ≡ₚ distinct_ranks cards.
Proof.
  apply NoDup_Permutation.
  - apply Counter_keys_NoDup.
  - apply NoDup_remove_dups.
  - intros r. unfold distinct_ranks, ranks. by rewrite elem_of_Counter_keys, elem_of_remove_dups.
Qed.

Lemma count_filter_spec (n : nat) (cards : list card) :
  length (List.filter (fun v => (n <=? v)%nat) (values (Counter (card_rank <$> cards))))
  = length (List.filter (fun r => (n <=? times r cards)%nat) (distinct_ranks cards)).
Proof.
  rewrite Counter_values, filter_fmap_length.
  apply filter_length_perm, keys_perm_distinct.
Qed.

Lemma two_pair_spec (cards : list card) :
  (2 <=? length (List.filter (fun v => (2 <=? v)%nat)
                             (values (Counter (card_rank <$> cards)))))%nat
  = is_two_pair cards.
Proof. unfold is_two_pair. by rewrite count_filter_spec. Qed.

(** The test on the two largest counts, in terms of the counts themselves. *)
Lemma made_full_sorted (cs : list nat) :
  Desc cs ->
  match cs with
  | c0 :: c1 :: _ => (3 <=? c0)%nat && (2 <=? c1)%nat
  | _ => false
  end = true
  <-> (exists v, v ∈ cs /\ 3 <= v)
      /\ 2 <= length (List.filter (fun v => (2 <=? v)%nat) cs).
Proof.
  intros Hs. destruct cs as [| c0 [| c1 t]].
  - split; [done |]. intros [(v & Hv & _) _]. by apply elem_of_nil in Hv.
  - split; [done |]. intros [_ Hlen]. cbn [List.filter] in Hlen.
    destruct (2 <=? c0)%nat; cbn [length] in Hlen; lia.
  - rewrite andb_true_iff, !Nat.leb_le. split.
    + intros [H0 H1]. split; [exists c0; split; [left | done] |].
      cbn [List.filter]. rewrite !(proj2 (Nat.leb_le _ _)) by lia. cbn [length]. lia.
    + intros [(v & Hv & H3) Hlen]. split.
      * pose proof (Desc_head_max _ _ _ Hs Hv). lia.
      * by eapply Desc_filter_two.
Qed.

Lemma made_full_counts (vs : list nat) :
  match sorted_desc vs with
  | c0 :: c1 :: _ => (3 <=? c0)%nat && (2 <=? c1)%nat
  | _ => false
  end = true
  <-> (exists v, v ∈ vs /\ 3 <= v)
      /\ 2 <= length (List.filter (fun v => (2 <=? v)%nat) vs).
Proof.
  rewrite (made_full_sorted _ (sorted_desc_sorted vs)).
  rewrite (filter_length_perm _ _ _ (sorted_desc_perm vs)).
  split; intros [(v & Hv & H3) Hlen]; (split; [| done]); exists v; (split; [| done]);
    by apply elem_of_sorted_desc.
Qed.

Lemma made_full_spec (cards : list card) :
  match sorted_desc (values (Counter (card_rank <$> cards))) with
  | c0 :: c1 :: _ => (3 <=? c0)%nat && (2 <=? c1)%nat
  | _ => false
  end = is_full_house cards.
Proof.
  apply eq_true_iff_eq. rewrite made_full_counts, count_filter_spec.
  unfold is_full_house. rewrite existsb_exists.
  assert (Hnd : NoDup (List.filter (fun r => (2 <=? times r cards)%nat) (distinct_ranks cards)))
    by apply NoDup_List_filter, NoDup_remove_dups.
  split.
  - intros [(v & Hv & H3) Hlen].
    apply list_elem_of_fmap in Hv as ([r n] & -> & Hrn).
    apply elem_of_Counter in Hrn as [Hr ->]. simpl in H3.
    exists r. split; [by apply list_elem_of_In, elem_of_distinct_ranks |].
    apply andb_true_iff. split; [by apply Nat.leb_le |].
    destruct (NoDup_other _ r Hnd Hlen) as (r2 & Hr2 & Hne).
    apply elem_of_List_filter in Hr2 as [Hr2 H2].
    apply existsb_exists. exists r2. split; [by apply list_elem_of_In |].
    apply andb_true_iff. split; [| done]. by apply negb_true_iff, Nat.eqb_neq.
  - intros (r1 & Hr1 & Hb). apply andb_true_iff in Hb as [H3 Hex].
    apply Nat.leb_le in H3. apply existsb_exists in Hex as (r2 & Hr2 & Hb).
    apply andb_true_iff in Hb as [Hne H2]. apply negb_true_iff, Nat.eqb_neq in Hne.
    apply list_elem_of_In in Hr1, Hr2. split.
    + exists (times r1 cards). split; [| done].
      apply list_elem_of_fmap. exists (r1, times r1 cards). split; [done |].
      apply elem_of_Counter. split; [| reflexivity]. by apply elem_of_distinct_ranks.
    + apply (NoDup_two_length _ r1 r2 Hnd); [| | done].
      * apply elem_of_List_filter. split; [done |]. apply Nat.leb_le. lia.
      * by apply elem_of_List_filter.
Qed.


Lemma elem_of_with_wheel (x : nat) (rs : list nat) :
  x ∈ with_wheel (list_to_set rs) <-> x ∈ rs \/ (x = 1%nat /\ 14%nat ∈ rs).
Proof.
  unfold with_wheel. case_bool_decide as H14.
  - rewrite elem_of_union, elem_of_singleton, !elem_of_list_to_set.
    rewrite elem_of_list_to_set in H14. tauto.
  - rewrite !elem_of_list_to_set. rewrite elem_of_list_to_set in H14. tauto.
Qed.

Lemma straight_spec (hole board : list card) :
  (_straight_info hole board).1 = is_straight (hole ++ board).
Proof.
  unfold _straight_info, is_straight, any, all, range.
  set (unique := with_wheel _).
  assert (Heq : forall x, bool_decide (x ∈ unique) = has_rank (hole ++ board) x).
  { intros x. apply eq_true_iff_eq. unfold has_rank, unique, ranks.
    rewrite bool_decide_eq_true, elem_of_with_wheel, orb_true_iff, andb_true_iff,
      !bool_decide_eq_true, Nat.eqb_eq. reflexivity. }
  assert (Hst : existsb (fun start => forallb (fun offset => bool_decide ((start + offset)%nat ∈ unique))
                                           (seq 0 (5 - 0))) (seq 1 (11 - 1))
                = existsb (fun low => forallb (fun k => has_rank (hole ++ board) (low + k)) (seq 0 5))
                          (seq 1 10)).
  { apply existsb_pointwise. intros start. apply forallb_pointwise. intros k. apply Heq. }
  rewrite Hst.
  destruct (existsb _ (seq 1 10)); [reflexivity |].
  match goal with |- (if ?b then _ else _).1 = _ => destruct b end; reflexivity.
Qed.

Lemma Desc_drop (n : nat) (l : list nat) : Desc l -> Desc (drop n l).
Proof.
  unfold Desc. revert l. induction n as [| n IH]; intros l Hs; [by rewrite drop_0 |].
  destruct l as [| a l]; [done |]. simpl. apply IH. by apply StronglySorted_inv in Hs as [? _].
Qed.

(** In a strictly descending list, what comes after position [k] is what
    lies below the element at position [k]. *)
Lemma drop_below (bu : list nat) (k m : nat) :
  Desc bu -> NoDup bu -> bu !! k = Some m ->
  forall x, x ∈ drop (S k) bu <-> x ∈ bu /\ x < m.
Proof.
  revert bu. induction k as [| k IH]; intros bu Hs Hnd Hk x.
  - destruct bu as [| a t]; [done |]. simpl in Hk. inversion Hk; subst a. simpl. rewrite drop_0.
    destruct (Desc_tail_below m t (m :: t) Hs Hnd) as (_ & _ & Hel); [done |].
    rewrite Hel, elem_of_List_filter, Nat.ltb_lt. reflexivity.
  - destruct bu as [| a t]; [done |]. simpl in Hk.
    pose proof Hs as Hs'. apply StronglySorted_inv in Hs' as [Hst Hall].
    pose proof Hnd as Hnd'. apply NoDup_cons in Hnd' as [Ha Hndt].
    change (drop (S (S k)) (a :: t)) with (drop (S k) t).
    rewrite (IH t Hst Hndt Hk), elem_of_cons. split; [tauto |].
    intros [[-> | Hx] Hlt]; [| done]. exfalso.
    apply list_elem_of_lookup_2 in Hk. rewrite Forall_forall in Hall.
    pose proof (Hall m Hk). lia.
Qed.

Lemma nth_highest_enum (bu l : list nat) (k : nat) :
  Desc bu -> NoDup bu -> (forall x, x ∈ bu <-> x ∈ l) -> bu !! k = nth_highest k l.
Proof.
  intros Hs Hnd Hel. induction k as [| k IH]; [by apply Desc_head_highest |].
  simpl. rewrite <- IH. destruct (bu !! k) as [m |] eqn:Hk.
  - replace (bu !! S k) with (drop (S k) bu !! 0%nat)
      by (rewrite lookup_drop; f_equal; lia).
    apply Desc_head_highest; [by apply Desc_drop |].
    intros x. rewrite (drop_below bu k m Hs Hnd Hk), elem_of_List_filter, Nat.ltb_lt, Hel.
    reflexivity.
  - apply lookup_ge_None. apply lookup_ge_None in Hk. lia.
Qed.

Lemma board_unique_spec (board : list card) (k : nat) :
  board_unique_of board !! k = nth_highest k (ranks board).
Proof.
  unfold board_unique_of. apply nth_highest_enum.
  - apply sorted_desc_sorted.
  - rewrite sorted_desc_perm. apply NoDup_elements.
  - intros x. by rewrite elem_of_sorted_desc, elem_of_elements, elem_of_list_to_set.
Qed.

Lemma max_list_lt_iff (l : list nat) (h : nat) :
  l <> [] -> (max_list l < h <-> forall b, b ∈ l -> b < h).
Proof.
  intros Hne. split.
  - intros Hlt b Hb. pose proof (max_list_elem_of_le b l Hb). lia.
  - intros Hall. apply Hall. by apply max_list_elem_of.
Qed.

(** The part of the source's overpair test that is about the cards. *)
Definition over_core (hole board : list card) : bool :=
  match board_unique_of board !! 0%nat with
  | Some m => hole_pair_of (card_rank <$> hole) && (m <? hd 0%nat (card_rank <$> hole))%nat
  | None => false
  end.

Definition under_core (hole board : list card) : bool :=
  match board_unique_of board !! 0%nat with
  | Some m => hole_pair_of (card_rank <$> hole) && (hd 0%nat (card_rank <$> hole) <? m)%nat
  | None => false
  end.

Lemma over_core_spec (hole board : list card) :
  board <> [] -> over_core hole board = is_overpair hole board.
Proof.
  intros Hne. unfold over_core, is_overpair, pocket_pair, hole_pair_of, ranks.
  rewrite board_unique_spec. simpl. unfold highest, ranks.
  destruct (card_rank <$> board) as [| b0 bs] eqn:Hb;
    [by destruct board | rewrite <- Hb].
  assert (Hne' : card_rank <$> board <> []) by (rewrite Hb; done).
  destruct (card_rank <$> hole) as [| a [| b [| ? ?]]]; try reflexivity.
  destruct (a =? b)%nat; [| reflexivity]. simpl.
  apply eq_true_iff_eq. rewrite Nat.ltb_lt, forallb_forall, (max_list_lt_iff _ _ Hne').
  split; intros H x Hx.
  - apply Nat.ltb_lt, H. by apply list_elem_of_In.
  - apply Nat.ltb_lt, H. by apply list_elem_of_In.
Qed.

Lemma under_core_spec (hole board : list card) :
  under_core hole board = is_underpair hole board.
Proof.
  unfold under_core, is_underpair, pocket_pair, hole_pair_of, ranks.
  rewrite board_unique_spec. simpl. unfold ranks.
  destruct (card_rank <$> hole) as [| a [| b [| ? ?]]];
    destruct (highest (card_rank <$> board)); try reflexivity.
  all: match goal with |- context [(?x =? ?y)%nat] => destruct (x =? y)%nat end; reflexivity.
Qed.

Lemma pairs_board_spec (k : nat) (hole board : list card) :
  matches_hole (board_unique_of board !! k) (card_rank <$> hole) = pairs_board k hole board.
Proof. unfold matches_hole, pairs_board. by rewrite board_unique_spec. Qed.

(** The priority chain of [_classify_hand], with the guards that repeat an
    earlier link of the chain removed. *)
Lemma primary_chain (hole board : list card) :
  primary (_classify_hand hole board) =
  let vs := values (Counter (card_rank <$> (hole ++ board))) in
  if match sorted_desc vs with
     | c0 :: c1 :: _ => (3 <=? c0)%nat && (2 <=? c1)%nat
     | _ => false
     end then FullHouse
  else if any (fun v => (4 <=? v)%nat) vs then Quads
  else if _has_flush (hole ++ board) then Flush
  else if (_straight_info hole board).1 then Straight
  else if any (fun v => (3 <=? v)%nat) vs then TripsSet
  else if (2 <=? length (List.filter (fun v => (2 <=? v)%nat) vs))%nat then TwoPair
  else if over_core hole board then Overpair
  else if matches_hole (board_unique_of board !! 0%nat) (card_rank <$> hole) then TopPair
  else if matches_hole (board_unique_of board !! 1%nat) (card_rank <$> hole) then MiddlePair
  else if matches_hole (board_unique_of board !! 2%nat) (card_rank <$> hole) then BottomPair
  else if under_core hole board then Underpair
  else Air.
Proof.
  unfold _classify_hand, over_core, under_core. cbv zeta.
  destruct (_straight_info hole board) as [straight oesd]. cbn [fst primary].
  set (vs := values (Counter (card_rank <$> hole ++ board))).
  destruct (match sorted_desc vs with
            | c0 :: c1 :: _ => (3 <=? c0)%nat && (2 <=? c1)%nat
            | _ => false
            end); [reflexivity |].
  destruct (any (fun v => (4 <=? v)%nat) vs); [reflexivity |].
  destruct (_has_flush (hole ++ board)); [reflexivity |].
  destruct straight; [reflexivity |].
  destruct (any (fun v => (3 <=? v)%nat) vs); [reflexivity |].
  destruct (2 <=? length (List.filter (fun v => (2 <=? v)%nat) vs))%nat; [reflexivity |].
  cbn [negb andb orb].
  destruct (board_unique_of board !! 0%nat) as [m |]; cbn [matches_hole].
  - rewrite !andb_true_r.
    destruct (hole_pair_of (card_rank <$> hole) && (m <? hd 0%nat (card_rank <$> hole))%nat);
      [reflexivity |]. cbn [negb andb orb].
    destruct (any (fun r => (r =? m)%nat) (card_rank <$> hole)); [reflexivity |].
    cbn [negb andb orb].
    destruct (matches_hole (board_unique_of board !! 1%nat) (card_rank <$> hole));
      [reflexivity |]. cbn [negb andb orb].
    destruct (matches_hole (board_unique_of board !! 2%nat) (card_rank <$> hole)); reflexivity.
  - cbn [negb andb orb].
    destruct (matches_hole (board_unique_of board !! 1%nat) (card_rank <$> hole));
      [reflexivity |]. cbn [negb andb orb].
    destruct (matches_hole (board_unique_of board !! 2%nat) (card_rank <$> hole)); reflexivity.
Qed.

(** C2.  For two hole cards and a board of three to five cards, the primary
    category of [_classify_hand] is the first category, in the order Full
    House, Quads, Flush, Straight, Trips/Set, Two Pair, Overpair, Top Pair,
    Middle Pair, Bottom Pair, Underpair, whose predicate holds of hole and
    board, and Air when none does; so a hand that is both a full house and
    a flush is a Full House. *)
Theorem classify_first_match (hole board : list card) :
  length hole = 2%nat -> 3 <= length board <= 5 ->
  primary (_classify_hand hole board) = spec_primary hole board
  /\ (is_full_house (hole ++ board) = true -> is_flush (hole ++ board) = true ->
      primary (_classify_hand hole board) = FullHouse).
Proof.
  intros _ Hboard.
  assert (Hne : board <> []) by (intros ->; simpl in Hboard; lia).
  assert (Heq : primary (_classify_hand hole board) = spec_primary hole board).
  { rewrite primary_chain. cbv zeta.
    rewrite made_full_spec, !any_count_spec, has_flush_spec, straight_spec, two_pair_spec,
      (over_core_spec _ _ Hne), !pairs_board_spec, under_core_spec.
    unfold spec_primary, first_match, categories. cbv zeta. cbn [List.find snd].
    unfold is_quads, is_trips.
    repeat match goal with |- (if ?b then _ else _) = _ => destruct b; [reflexivity |] end.
    reflexivity. }
  split; [exact Heq |].
  intros Hfull _. rewrite Heq. unfold spec_primary, first_match, categories.
  cbv zeta. cbn [List.find snd]. by rewrite Hfull.
Qed.

Lemma classify_first_match_witness :
  primary (_classify_hand (_parse_cards (Some "HA SA")) (_parse_cards (Some "DA HK CK")))
  = FullHouse
  /\ spec_primary (_parse_cards (Some "H9 S9")) (_parse_cards (Some "DA H5 C2")) = Underpair.
Proof.
  split.
  - rewrite (proj1 (classify_first_match (_parse_cards (Some "HA SA"))
                      (_parse_cards (Some "DA HK CK")) eq_refl ltac:(simpl; lia))).
    reflexivity.
  - rewrite <- (proj1 (classify_first_match (_parse_cards (Some "H9 S9"))
                         (_parse_cards (Some "DA H5 C2")) eq_refl ltac:(simpl; lia))).
    reflexivity.
Defined.

End ClassifyRefines.

(** ** opponent_performance.py: seat rotation *)

Module PositionFacts.
Import Py OpponentPerformance.

Lemma insert_by_perm {A} (key : A -> Z) (x : A) (l : list A) : insert_by key x l ≡ₚ x :: l.
Proof.
  induction l as [| y l IH]; simpl; [done |].
  destruct (key x <=? key y)%Z; [done |]. rewrite IH. apply Permutation_swap.
Qed.

Lemma sorted_by_perm {A} (key : A -> Z) (l : list A) : sorted_by key l ≡ₚ l.
Proof.
  induction l as [| x l IH]; [done |].
  unfold sorted_by in *. simpl. rewrite insert_by_perm. by rewrite IH.
Qed.

Lemma find_index_Some {A} (f : A -> bool) (l : list A) (i : nat) :
  find_index f l = Some i -> exists x, l !! i = Some x /\ f x = true.
Proof.
  revert i. induction l as [| y l IH]; intros i Hi; [done |]. simpl in Hi.
  destruct (f y) eqn:Hy.
  - inversion Hi; subst. eauto.
  - destruct (find_index f l) as [j |]; [| done]. inversion Hi; subst. simpl. by apply IH.
Qed.

Lemma find_index_is_Some {A} (f : A -> bool) (l : list A) (x : A) :
  x ∈ l -> f x = true -> is_Some (find_index f l).
Proof.
  induction l as [| y l IH]; intros Hx Hf; [by apply elem_of_nil in Hx |]. simpl.
  destruct (f y) eqn:Hy; [eauto |].
  apply elem_of_cons in Hx as [-> | Hx]; [congruence |].
  destruct (IH Hx Hf) as [j ->]. eauto.
Qed.

Lemma omap_total {A B} (g : A -> option B) (l : list A) (i : nat) :
  (forall x, x ∈ l -> is_Some (g x)) -> omap g l !! i = (l !! i) ≫= g.
Proof.
  revert i. induction l as [| y l IH]; intros i Hg; [done |].
  destruct (Hg y) as [b Hb]; [left |]. cbn [omap list_omap]. rewrite Hb.
  destruct i as [| i]; simpl; [done |]. apply IH. intros x Hx. apply Hg. by right.
Qed.

Lemma mod_index_lt (z : Z) (n : nat) : n <> 0%nat -> (Z.to_nat (z mod Z.of_nat n) < n)%nat.
Proof. intros Hn. pose proof (Z.mod_pos_bound z (Z.of_nat n)). lia. Qed.

(** Each element of a rotation is the element of the seat list at the rotated
    index. *)
Lemma rotate_by_lookup (f : Z -> Z) (count : nat) (l : list Player) (i : nat) :
  l <> [] -> (i < count)%nat ->
  rotate_by f count l !! i = l !! Z.to_nat (f (Z.of_nat i) mod Z.of_nat (length l)).
Proof.
  intros Hl Hi. unfold rotate_by. rewrite omap_total.
  - rewrite lookup_seq_lt by done. reflexivity.
  - intros x _. apply lookup_lt_is_Some, mod_index_lt. by destruct l.
Qed.

Lemma rotate_by_length (f : Z -> Z) (count : nat) (l : list Player) :
  l <> [] -> length (rotate_by f count l) = count.
Proof.
  intros Hl. apply Nat.le_antisymm.
  - destruct (decide (length (rotate_by f count l) <= count)) as [| Hgt]; [done | exfalso].
    assert (Hlt : (count < length (rotate_by f count l))%nat) by lia.
    apply lookup_lt_is_Some in Hlt as [x Hx]. unfold rotate_by in Hx.
    rewrite omap_total in Hx.
    + rewrite lookup_seq_ge in Hx by lia. done.
    + intros y _. apply lookup_lt_is_Some, mod_index_lt. by destruct l.
  - destruct count as [| c]; [lia |].
    assert (Hsome : is_Some (rotate_by f (S c) l !! c)).
    { rewrite rotate_by_lookup by (done || lia). apply lookup_lt_is_Some, mod_index_lt.
      by destruct l. }
    apply lookup_lt_is_Some in Hsome. lia.
Qed.

(** *** The dict filled by the [zip] loop *)

Abbreviation put := (fun (m : gmap string string) '(position_label, p) =>
                       <[name p := position_label]> m).

Lemma put_last (m : gmap string string) (pairs : list (string * Player)) (l : string) (p : Player) :
  foldl put m (pairs ++ [(l, p)]) !! name p = Some l.
Proof. rewrite foldl_app. simpl. apply lookup_insert_eq. Qed.

Lemma put_is_Some (pairs : list (string * Player)) (m : gmap string string) (k : string) :
  k ∈ (name <$> pairs.*2) \/ is_Some (m !! k) -> is_Some (foldl put m pairs !! k).
Proof.
  revert m. induction pairs as [| [l p] pairs IH]; intros m H.
  - destruct H as [H | H]; [by apply elem_of_nil in H | done].
  - cbn [foldl]. apply IH. rewrite !fmap_cons in H. cbn [snd] in H.
    destruct (decide (k = name p)) as [-> | Hne].
    + right. rewrite lookup_insert_eq. eauto.
    + destruct H as [H | H].
      * apply elem_of_cons in H as [? | H]; [done | by left].
      * right. by rewrite lookup_insert_ne.
Qed.

Lemma put_value (pairs : list (string * Player)) (m : gmap string string) (k v : string) :
  foldl put m pairs !! k = Some v ->
  m !! k = Some v \/ exists p, (v, p) ∈ pairs /\ name p = k.
Proof.
  revert m. induction pairs as [| [l p] pairs IH]; intros m H; [by left |].
  cbn [foldl] in H. apply IH in H as [H | (q & Hq & Hk)].
  - destruct (decide (k = name p)) as [-> | Hne].
    + rewrite lookup_insert_eq in H. inversion H; subst. right. exists p. split; [left | done].
    + rewrite lookup_insert_ne in H by done. by left.
  - right. exists q. split; [by right | done].
Qed.

Lemma zip_fst_inj {A B} (l1 : list A) (l2 : list B) (a : A) (b1 b2 : B) :
  NoDup l1 -> (a, b1) ∈ zip l1 l2 -> (a, b2) ∈ zip l1 l2 -> b1 = b2.
Proof.
  intros Hnd [i Hi]%list_elem_of_lookup_1 [j Hj]%list_elem_of_lookup_1.
  apply lookup_zip_Some in Hi as [Hi1 Hi2]. apply lookup_zip_Some in Hj as [Hj1 Hj2].
  assert (i = j) by (eapply NoDup_lookup; eauto). subst j. congruence.
Qed.

(** *** The seat-sorted list of dealt players *)

Definition seat_sorted_of (players : list Player) (dealt_players : gset string) : list Player :=
  sorted_by seat (List.filter (fun p => bool_decide (name p ∈ dealt_players)) players).

Lemma NoDup_fmap_List_filter {A B} (f : A -> B) (g : A -> bool) (l : list A) :
  NoDup (f <$> l) -> NoDup (f <$> List.filter g l).
Proof.
  induction l as [| x l IH]; [done |]. rewrite fmap_cons. intros [Hx Hnd]%NoDup_cons.
  cbn [List.filter]. destruct (g x); [| by apply IH].
  rewrite fmap_cons. apply NoDup_cons. split; [| by apply IH].
  intros (y & Hy & Hin)%list_elem_of_fmap. apply Hx. apply list_elem_of_fmap.
  exists y. split; [done |]. apply list_elem_of_In in Hin. apply filter_In in Hin as [Hin _].
  by apply list_elem_of_In.
Qed.

Section seats.
Context (players : list Player) (dealt_players : gset string).
Hypothesis names_distinct : NoDup (name <$> players).
Hypothesis dealt_seated : forall p, p ∈ dealt_players -> p ∈ name <$> players.

Lemma elem_of_seat_sorted (q : Player) :
  q ∈ seat_sorted_of players dealt_players <-> q ∈ players /\ name q ∈ dealt_players.
Proof.
  unfold seat_sorted_of. rewrite sorted_by_perm, !list_elem_of_In, filter_In.
  by rewrite bool_decide_eq_true.
Qed.

Lemma seat_sorted_names (p : string) :
  p ∈ name <$> seat_sorted_of players dealt_players <-> p ∈ dealt_players.
Proof.
  rewrite list_elem_of_fmap. split.
  - intros (q & -> & Hq). by apply elem_of_seat_sorted in Hq as [_ ?].
  - intros Hp. destruct (proj1 (list_elem_of_fmap _ _ _) (dealt_seated p Hp)) as (q & -> & Hq).
    exists q. split; [done |]. by apply elem_of_seat_sorted.
Qed.

Lemma seat_sorted_NoDup : NoDup (name <$> seat_sorted_of players dealt_players).
Proof.
  unfold seat_sorted_of. rewrite sorted_by_perm. by apply NoDup_fmap_List_filter.
Qed.

Lemma seat_sorted_length : length (seat_sorted_of players dealt_players) = size dealt_players.
Proof.
  rewrite <- (length_fmap name), <- (size_list_to_set (C := gset string)) by apply seat_sorted_NoDup.
  f_equal. apply set_eq. intros p. by rewrite elem_of_list_to_set, seat_sorted_names.
Qed.

End seats.

(** The canonical list for three to nine players ends at the button. *)
Lemma positions_with_button (count : nat) :
  3 <= count <= 9 ->
  exists order, POSITIONS_BY_COUNT count = Some (order ++ ["BTN"])
    /\ length (order ++ ["BTN"]) = count /\ NoDup (order ++ ["BTN"]).
Proof.
  intros Hc.
  assert (Hcases : (count = 3 \/ count = 4 \/ count = 5 \/ count = 6 \/ count = 7
                    \/ count = 8 \/ count = 9)%nat) by lia.
  destruct Hcases as [-> | [-> | [-> | [-> | [-> | [-> | ->]]]]]]; cbn [POSITIONS_BY_COUNT].
  - exists ["SB"; "BB"]. split; [done |]. split; [done |]. compute_done.
  - exists ["SB"; "BB"; "CO"]. split; [done |]. split; [done |]. compute_done.
  - exists ["SB"; "BB"; "HJ"; "CO"]. split; [done |]. split; [done |]. compute_done.
  - exists ["SB"; "BB"; "LJ"; "HJ"; "CO"]. split; [done |]. split; [done |].
    compute_done.
  - exists ["SB"; "BB"; "UTG"; "LJ"; "HJ"; "CO"]. split; [done |]. split; [done |].
    compute_done.
  - exists ["SB"; "BB"; "UTG"; "UTG+1"; "LJ"; "HJ"; "CO"]. split; [done |]. split; [done |].
    compute_done.
  - exists ["SB"; "BB"; "UTG"; "UTG+1"; "UTG+2"; "LJ"; "HJ"; "CO"]. split; [done |].
    split; [done |]. compute_done.
Qed.


Lemma rotation_index_back (n d j : Z) :
  (0 <= d < n -> 0 <= j < n -> (d - (n - 1 - (j - d - 1) mod n)) mod n = j)%Z.
Proof.
  intros Hd Hj. rewrite (Z.mod_eq (j - d - 1) n) by lia.
  symmetry. apply (Z.mod_unique_pos _ _ (-1 - (j - d - 1) / n)); [lia | ring].
Qed.

Lemma truthy_ne (s : string) : s <> "" -> truthy s = true.
Proof. intros H. unfold truthy. apply negb_true_iff, String.eqb_neq, H. Qed.

Lemma inb_true {A} `{EqDecision A} (x : A) (l : list A) : x ∈ l -> inb x l = true.
Proof. intros H. unfold inb. by apply bool_decide_eq_true. Qed.

(** The dealer branch of [_assign_positions_from_seats], once its guards
    are known to hold. *)
Lemma by_dealer_branch (players : list Player) (dealt_players : gset string)
    (sb : option string) (dealer : string) (order : list string) (dealer_idx : nat) :
  players <> [] -> dealt_players <> ∅ ->
  POSITIONS_BY_COUNT (size dealt_players) = Some order ->
  length order = size dealt_players ->
  dealer <> "" -> dealer ∈ dealt_players -> "BTN" ∈ order ->
  find_index (fun p => String.eqb (name p) dealer) (seat_sorted_of players dealt_players)
  = Some dealer_idx ->
  _assign_positions_from_seats players dealt_players sb (Some dealer)
  = Some (assign order
            (rotate_by (fun i => Z.of_nat dealer_idx - (Z.of_nat (size dealt_players) - 1 - i))%Z
                       (size dealt_players) (seat_sorted_of players dealt_players))).
Proof.
  intros Hp Hd Horder Hlen Hne Hin Hbtn Hidx. unfold _assign_positions_from_seats.
  rewrite (bool_decide_eq_false_2 _ Hp), (bool_decide_eq_false_2 _ Hd). cbn [orb].
  rewrite Horder, Hlen, Nat.eqb_refl. cbn [negb].
  rewrite (truthy_ne _ Hne), (bool_decide_eq_true_2 _ Hin), (inb_true _ _ Hbtn). cbn [andb].
  fold (seat_sorted_of players dealt_players). rewrite Hidx. reflexivity.
Qed.

(** C5 (amended).  With three to nine dealt players, all of them seated
    under distinct names, and the dealer among them, the seat rotation gives
    the dealer BTN and every dealt player one position of the canonical list,
    whatever the small blind did (here: not posted); no position is given
    twice and nobody else gets one. *)
Theorem dead_blind_seat_rotation
    (players : list Player) (dealt_players : gset string) (dealer : string) :
  3 <= size dealt_players <= 9 ->
  NoDup (name <$> players) ->
  dealt_players ⊆ list_to_set (name <$> players) ->
  dealer ∈ dealt_players -> dealer <> "" ->
  exists mapping,
    _assign_positions_from_seats players dealt_players None (Some dealer) = Some mapping
    /\ mapping !! dealer = Some "BTN"
    /\ (forall p, p ∈ dealt_players <-> is_Some (mapping !! p))
    /\ (forall p q l, mapping !! p = Some l -> mapping !! q = Some l -> p = q).
Proof.
  intros Hcount Hnd Hsub Hdealer Hne.
  assert (Hseated : forall p, p ∈ dealt_players -> p ∈ name <$> players).
  { intros p Hp. apply Hsub in Hp. by rewrite elem_of_list_to_set in Hp. }
  set (count := size dealt_players) in *.
  set (ss := seat_sorted_of players dealt_players).
  assert (Hlen : length ss = count) by (by apply seat_sorted_length).
  assert (Hss : ss <> []) by (intros E; rewrite E in Hlen; simpl in Hlen; lia).
  assert (Hdne : dealt_players <> ∅).
  { intros E. subst count. rewrite E, size_empty in Hcount. lia. }
  assert (Hpne : players <> []).
  { intros E. subst players. apply Hseated in Hdealer. by apply elem_of_nil in Hdealer. }
  destruct (positions_with_button count Hcount) as (order & Horder & Holen & Hond).
  (* the dealer is found in the seat list *)
  pose proof (proj2 (seat_sorted_names players dealt_players Hseated dealer) Hdealer) as Hd'.
  apply list_elem_of_fmap in Hd' as (pd & Hpd & Hpdin).
  destruct (find_index_is_Some (fun p => String.eqb (name p) dealer) ss pd Hpdin)
    as [dealer_idx Hidx]; [by apply String.eqb_eq |].
  destruct (find_index_Some _ _ _ Hidx) as (pd' & Hpd' & Hname). apply String.eqb_eq in Hname.
  pose proof (lookup_lt_Some _ _ _ Hpd') as Hdlt.
  eexists. split.
  { apply (by_dealer_branch players dealt_players None dealer (order ++ ["BTN"]) dealer_idx);
      try done. apply elem_of_app. right. left. }
  fold count ss.
  set (f := (fun i => Z.of_nat dealer_idx - (Z.of_nat count - 1 - i))%Z).
  set (rotation := rotate_by f count ss).
  assert (Hrlen : length rotation = count) by (by apply rotate_by_length).
  assert (Hrot : forall i, (i < count)%nat ->
                   rotation !! i = ss !! Z.to_nat (f (Z.of_nat i) mod Z.of_nat count)).
  { intros i Hi. unfold rotation. rewrite rotate_by_lookup by done. by rewrite Hlen. }
  (* every seat is reached by the rotation *)
  assert (Hreach : forall q, q ∈ ss -> q ∈ rotation).
  { intros q [j Hj]%list_elem_of_lookup_1. pose proof (lookup_lt_Some _ _ _ Hj) as Hjlt.
    apply list_elem_of_lookup_2 with
      (i := Z.to_nat ((Z.of_nat j - Z.of_nat dealer_idx - 1) mod Z.of_nat count)).
    rewrite Hrot by (apply mod_index_lt; lia). rewrite <- Hj. f_equal. unfold f.
    pose proof (Z.mod_pos_bound (Z.of_nat j - Z.of_nat dealer_idx - 1) (Z.of_nat count)
                  ltac:(lia)) as Hb.
    rewrite Z2Nat.id by lia. rewrite rotation_index_back by lia. apply Nat2Z.id. }
  assert (Hback : forall q, q ∈ rotation -> q ∈ ss).
  { intros q [i Hi]%list_elem_of_lookup_1. pose proof (lookup_lt_Some _ _ _ Hi) as Hilt.
    rewrite Hrot in Hi by lia. by apply list_elem_of_lookup_2 in Hi. }
  (* the last seat of the rotation is the dealer's *)
  assert (Hlast : rotation !! (count - 1)%nat = Some pd').
  { rewrite Hrot by lia. rewrite <- Hpd'. f_equal. unfold f.
    replace (Z.of_nat dealer_idx - (Z.of_nat count - 1 - Z.of_nat (count - 1)))%Z
      with (Z.of_nat dealer_idx) by lia.
    rewrite Z.mod_small by lia. apply Nat2Z.id. }
  assert (Hsplit : rotation = take (count - 1) rotation ++ [pd']).
  { rewrite <- (take_S_r _ _ _ Hlast). rewrite take_ge; [done | lia]. }
  assert (Hzip : zip (order ++ ["BTN"]) rotation
                 = zip order (take (count - 1) rotation) ++ [("BTN", pd')]).
  { rewrite Hsplit at 1. rewrite zip_with_app; [done |].
    rewrite length_take, Hrlen. rewrite length_app in Holen. simpl in Holen. lia. }
  assert (Hsnd : (zip (order ++ ["BTN"]) rotation).*2 = rotation).
  { apply snd_zip. lia. }
  split; [| split].
  - unfold assign. rewrite Hzip, <- Hname. apply put_last.
  - intros p. split.
    + intros Hp. unfold assign. apply put_is_Some. left. rewrite Hsnd.
      apply (seat_sorted_names players dealt_players Hseated) in Hp.
      apply list_elem_of_fmap in Hp as (q & -> & Hq). apply list_elem_of_fmap.
      exists q. split; [done |]. by apply Hreach.
    + intros [l Hl]. unfold assign in Hl. apply put_value in Hl as [Hl | (q & Hq & <-)];
        [by rewrite lookup_empty in Hl |].
      apply elem_of_zip_r, Hback in Hq.
      by apply elem_of_seat_sorted in Hq as [_ ?].
  - intros p q l Hp Hq. unfold assign in Hp, Hq.
    apply put_value in Hp as [Hp | (p' & Hp' & <-)]; [by rewrite lookup_empty in Hp |].
    apply put_value in Hq as [Hq | (q' & Hq' & <-)]; [by rewrite lookup_empty in Hq |].
    f_equal. by eapply zip_fst_inj.
Qed.

Lemma dead_blind_seat_rotation_witness :
  exists mapping,
    _assign_positions_from_seats
      [mkPlayer "A" 1 false; mkPlayer "B" 2 false; mkPlayer "C" 3 false;
       mkPlayer "D" 4 true; mkPlayer "E" 5 false; mkPlayer "F" 8 false]
      {["A"; "B"; "C"; "D"; "E"; "F"]} None (Some "D") = Some mapping
    /\ mapping !! "D" = Some "BTN".
Proof.
  destruct (dead_blind_seat_rotation
              [mkPlayer "A" 1 false; mkPlayer "B" 2 false; mkPlayer "C" 3 false;
               mkPlayer "D" 4 true; mkPlayer "E" 5 false; mkPlayer "F" 8 false]
              {["A"; "B"; "C"; "D"; "E"; "F"]} "D")
    as (mapping & Hm & Hbtn & _).
  - vm_compute. lia.
  - compute_done.
  - compute_done.
  - compute_done.
  - done.
  - exists mapping. split; [exact Hm | exact Hbtn].
Defined.

(** C5, as stated, fails heads-up: with two dealt players the button label is
    not in the canonical list, the dealer branch is skipped, and with no small
    blind posted the lowest seat is SB, so the dealer in seat 2 is BB, not BTN. *)
Lemma dead_blind_heads_up_dealer_not_btn :
  exists mapping,
    _assign_positions_from_seats [mkPlayer "A" 1 false; mkPlayer "B" 2 true]
                                 {["A"; "B"]} None (Some "B") = Some mapping
    /\ mapping !! "B" = Some "BB" /\ mapping !! "A" = Some "SB".
Proof. eexists. split; [vm_compute; reflexivity |]. split; reflexivity. Qed.

(** Heads-up, the resolver knows two labels only: whatever it assigns is SB
    or BB, and the dealer marker plays no part. *)
Theorem heads_up_only_blinds
    (players : list Player) (dealt_players : gset string)
    (small_blind_name dealer_name : option string) (mapping : gmap string string) :
  size dealt_players = 2%nat ->
  _assign_positions_from_seats players dealt_players small_blind_name dealer_name
  = Some mapping ->
  forall p l, mapping !! p = Some l -> l = "SB" \/ l = "BB".
Proof.
  intros Hsize Hres p l Hl. unfold _assign_positions_from_seats in Hres.
  destruct (bool_decide (players = []) || bool_decide (dealt_players = ∅)).
  { inversion Hres; subst. by rewrite lookup_empty in Hl. }
  rewrite Hsize in Hres. cbn [POSITIONS_BY_COUNT length Nat.eqb negb] in Hres.
  assert (Hnb : inb "BTN" ["SB"; "BB"] = false) by reflexivity.
  rewrite Hnb in Hres.
  assert (Hlabel : forall rotation, assign ["SB"; "BB"] rotation !! p = Some l ->
                                    l = "SB" \/ l = "BB").
  { intros rotation H. unfold assign in H.
    apply put_value in H as [H | (q & Hq & _)]; [by rewrite lookup_empty in H |].
    apply elem_of_zip_l in Hq. apply elem_of_cons in Hq as [-> | Hq]; [by left |].
    apply list_elem_of_singleton in Hq. by right. }
  destruct dealer_name as [d |];
    [rewrite andb_false_r in Hres |];
    match type of Hres with
    | match ?x with Some _ => _ | None => None end = _ =>
        destruct x; [| done]; inversion Hres; subst; by eapply Hlabel
    end.
Qed.

Lemma heads_up_only_blinds_witness :
  (_assign_positions_from_seats [mkPlayer "A" 1 true; mkPlayer "B" 2 false] {["A"; "B"]}
                                (Some "A") (Some "A")) ≫= (fun m => m !! "B")
  = Some "BB"
  /\ ("BB" = "SB" \/ "BB" = "BB").
Proof.
  split; [reflexivity |].
  assert (Hsize : size ({["A"; "B"]} : gset string) = 2%nat) by (vm_compute; reflexivity).
  assert (Hres : _assign_positions_from_seats [mkPlayer "A" 1 true; mkPlayer "B" 2 false]
                   {["A"; "B"]} (Some "A") (Some "A")
                 = Some (assign ["SB"; "BB"] [mkPlayer "A" 1 true; mkPlayer "B" 2 false]))
    by (vm_compute; reflexivity).
  exact (heads_up_only_blinds _ _ _ _ _ Hsize Hres "B" "BB" eq_refl).
Defined.

End PositionFacts.

Module PositionLabelsFacts.
Import HandHistory FlopMatrix.

(** C6 on the labels of the flop walker.  Heads-up, [_position_labels] labels
    the dealer BTN and the other player SB, where the table of the resolver
    has SB and BB only. *)
Theorem position_labels_heads_up_button :
  _position_labels [mkPlayerInfo "Hero" 1 true; mkPlayerInfo "Villain" 3 false] !! "Hero"
  = Some "BTN"
  /\ _position_labels [mkPlayerInfo "Hero" 1 true; mkPlayerInfo "Villain" 3 false] !! "Villain"
     = Some "SB"
  /\ OpponentPerformance.POSITIONS_BY_COUNT 2 = Some ["SB"; "BB"].
Proof. repeat split. Qed.

End PositionLabelsFacts.

(** ** flop_response_matrix_builder.py: pot and bet event *)

Module FlopMatrixFacts.
Import Py HandHistory FlopMatrix.

Lemma Qpos_lt (q : Q) : Qpos q = true <-> (0 < q)%Q.
Proof.
  unfold Qpos. rewrite negb_true_iff. split.
  - intros H. apply Qnot_le_lt. intros Hle. apply Qle_bool_iff in Hle. congruence.
  - intros H. destruct (Qle_bool q 0) eqn:E; [| done].
    apply Qle_bool_iff in E. exfalso. by apply (Qlt_not_le _ _ H).
Qed.

(** An action of the pre-flop or flop loop that is not skipped by [continue]. *)
Definition valid (a : Action) : bool := truthy (player a) && truthy (atype a).

(** A positive bet, raise or all-in: what sets [flop_bet_seen]. *)
Definition aggressive (a : Action) : bool :=
  (inb (atype a) BET_TYPES || inb (atype a) RAISE_TYPES) && Qpos (sum a).

(** The amounts a round adds to the pot, in order: in the pre-flop and flop
    loops the actions without player or type are skipped first, in the other
    rounds every action counts. *)
Definition counted (rnd : Round) : list Q :=
  if (no rnd =? 1)%Z || (no rnd =? 2)%Z
  then sum <$> List.filter valid (actions rnd)
  else sum <$> actions rnd.

Definition pot_after (pot : Q) (amounts : list Q) : Q := foldl add_amount pot amounts.

Lemma add_amount_le (pot amount : Q) : (pot <= add_amount pot amount)%Q.
Proof.
  unfold add_amount. destruct (Qpos amount) eqn:E; [| apply Qle_refl].
  apply Qpos_lt in E. rewrite <- (Qplus_0_r pot) at 1.
  apply Qplus_le_r. by apply Qlt_le_weak.
Qed.

Lemma pot_after_le (pot : Q) (amounts : list Q) : (pot <= pot_after pot amounts)%Q.
Proof.
  revert pot. induction amounts as [| x l IH]; intros pot; [apply Qle_refl |].
  simpl. eapply Qle_trans; [apply add_amount_le | apply IH].
Qed.

Section hand.
Context (hero hero_position_label : string) (position_index : gmap string nat) (big_blind : Q).

Local Abbreviation flop_step := (flop_step hero hero_position_label position_index big_blind).
Local Abbreviation flop_loop := (flop_loop hero hero_position_label position_index big_blind).
Local Abbreviation round_step := (round_step hero hero_position_label position_index big_blind).
Local Abbreviation walk := (walk hero hero_position_label position_index big_blind).
Local Abbreviation hero_event := (hero_event hero hero_position_label position_index big_blind).

Lemma preflop_pot (st : State) (acts : list Action) :
  total_pot (foldl preflop_step st acts)
  = pot_after (total_pot st) (sum <$> List.filter valid acts).
Proof.
  revert st. induction acts as [| a acts IH]; intros st; [done |].
  cbn [foldl List.filter]. rewrite IH. unfold FlopMatrix.preflop_step, valid.
  destruct (truthy (player a)), (truthy (atype a)); reflexivity.
Qed.

Lemma flop_step_pot (st : State) (a : Action) (later : list Action) :
  total_pot (flop_step st a later)
  = if valid a then add_amount (total_pot st) (sum a) else total_pot st.
Proof.
  unfold FlopMatrix.flop_step, valid.
  destruct (truthy (player a)), (truthy (atype a)); reflexivity.
Qed.

Lemma flop_pot (st : State) (acts : list Action) :
  total_pot (flop_loop st acts)
  = pot_after (total_pot st) (sum <$> List.filter valid acts).
Proof.
  revert st. induction acts as [| a acts IH]; intros st; [done |].
  cbn [FlopMatrix.flop_loop List.filter]. rewrite IH, flop_step_pot.
  destruct (valid a); reflexivity.
Qed.

Lemma other_pot (st : State) (acts : list Action) :
  total_pot (foldl other_step st acts) = pot_after (total_pot st) (sum <$> acts).
Proof.
  revert st. induction acts as [| a acts IH]; intros st; [done |].
  cbn [foldl]. rewrite IH. unfold other_step.
  destruct (truthy (player a) && inb (atype a) FOLD_TYPES); reflexivity.
Qed.

(** The rounds the loop gets through before a [break]. *)
Fixpoint processed (st : State) (rounds : list Round) : list Round :=
  match rounds with
  | [] => []
  | rnd :: rest =>
      match round_step st rnd with
      | inl st' => rnd :: processed st' rest
      | inr _ => []
      end
  end.

Lemma round_step_pot (st : State) (rnd : Round) :
  match round_step st rnd with
  | inl st' => total_pot st' = pot_after (total_pot st) (counted rnd)
  | inr st' => st' = st
  end.
Proof.
  unfold FlopMatrix.round_step, counted.
  destruct (no rnd =? 1)%Z; [apply preflop_pot |].
  destruct (no rnd =? 2)%Z; cbn [orb]; [| apply other_pot].
  destruct (size (active_players st) <? 2)%nat; [done |]. by rewrite flop_pot.
Qed.

Lemma walk_pot (st : State) (rounds : list Round) :
  total_pot (walk st rounds)
  = pot_after (total_pot st) (List.flat_map counted (processed st rounds)).
Proof.
  revert st. induction rounds as [| rnd rest IH]; intros st; [done |].
  cbn [FlopMatrix.walk processed]. pose proof (round_step_pot st rnd) as Hstep.
  destruct (round_step st rnd) as [st' | st']; [| by subst].
  rewrite IH, Hstep. cbn [List.flat_map]. unfold pot_after. by rewrite foldl_app.
Qed.

(** C4.  A round never resets the running pot: after a round the pot is the
    pot before it plus the positive amounts of the round's actions, in
    order, and over a whole hand it only grows; entering the flop keeps the
    pot and starts the acted-player set empty and the bet-seen flag false,
    whatever they were. *)
Theorem pot_persists_across_streets (st : State) (rnd : Round) (rounds : list Round) :
  match round_step st rnd with
  | inl st' => total_pot st' = pot_after (total_pot st) (counted rnd)
  | inr st' => st' = st
  end
  /\ total_pot (walk st rounds)
     = pot_after (total_pot st) (List.flat_map counted (processed st rounds))
  /\ (total_pot st <= total_pot (walk st rounds))%Q
  /\ total_pot (enter_flop st) = total_pot st
  /\ players_acted (enter_flop st) = ∅
  /\ flop_bet_seen (enter_flop st) = false
  /\ ((no rnd =? 2)%Z = true -> (size (active_players st) <? 2)%nat = false ->
      round_step st rnd = inl (flop_loop (enter_flop st) (actions rnd))).
Proof.
  split; [apply round_step_pot |]. split; [apply walk_pot |].
  split; [rewrite walk_pot; apply pot_after_le |].
  repeat split.
  intros H2 Hact. unfold FlopMatrix.round_step. rewrite H2, Hact.
  destruct (no rnd =? 1)%Z eqn:H1; [| done].
  apply Z.eqb_eq in H1, H2. congruence.
Qed.

(** *** The bet-event rule on one flop street *)

(** The locals as they are just before action [i] of the street. *)
Fixpoint state_before (i : nat) (st : State) (acts : list Action) : State :=
  match i, acts with
  | S i', a :: later => state_before i' (flop_step st a later) later
  | _, _ => st
  end.

(** The event appended while action [i] is processed, if any. *)
Definition emitted_at (st : State) (acts : list Action) (i : nat) : option Event :=
  match acts !! i with
  | Some a => if valid a then hero_event (state_before i st acts) a (drop (S i) acts) else None
  | None => None
  end.

(** The guard on the flop snapshot in the event block. *)
Definition flop_guard (st : State) : Prop :=
  exists c s, flop_player_count st = Some c /\ 2 <= c
              /\ flop_active_snapshot st = Some s /\ s <> ∅.

Lemma flop_loop_state_before (st : State) (acts : list Action) :
  flop_loop st acts = state_before (length acts) st acts.
Proof.
  revert st. induction acts as [| a later IH]; intros st; [done |]. apply IH.
Qed.

Lemma flop_step_events (st : State) (a : Action) (later : list Action) :
  events (flop_step st a later)
  = events st ++ match (if valid a then hero_event st a later else None) with
                 | Some e => [e]
                 | None => []
                 end.
Proof.
  unfold FlopMatrix.flop_step, valid.
  destruct (truthy (player a)), (truthy (atype a)); cbn [negb orb andb];
    try (by rewrite app_nil_r).
  destruct (hero_event st a later); cbn [events]; [done | by rewrite app_nil_r].
Qed.

Lemma emitted_at_0 (st : State) (a : Action) (later : list Action) :
  emitted_at st (a :: later) 0 = if valid a then hero_event st a later else None.
Proof. unfold emitted_at. cbn. by rewrite drop_0. Qed.

Lemma emitted_at_S (st : State) (a : Action) (later : list Action) (i : nat) :
  emitted_at st (a :: later) (S i) = emitted_at (flop_step st a later) later i.
Proof. reflexivity. Qed.

Lemma omap_seq_S {A} (f : nat -> option A) (n : nat) :
  omap f (seq 1 n) = omap (fun i => f (S i)) (seq 0 n).
Proof.
  rewrite <- fmap_S_seq. generalize (seq 0 n). intros l.
  induction l as [| x l IH]; [done |]. rewrite fmap_cons. cbn [omap list_omap].
  destruct (f (S x)); by rewrite IH.
Qed.

(** The events of a street are the events emitted at its actions, in order. *)
Lemma flop_loop_events (st : State) (acts : list Action) :
  events (flop_loop st acts) = events st ++ omap (emitted_at st acts) (seq 0 (length acts)).
Proof.
  revert st. induction acts as [| a later IH]; intros st; [by rewrite app_nil_r |].
  cbn [FlopMatrix.flop_loop length seq]. rewrite IH, flop_step_events, <- app_assoc. f_equal.
  cbn [omap list_omap]. rewrite emitted_at_0, omap_seq_S.
  destruct (if valid a then hero_event st a later else None); reflexivity.
Qed.

Lemma flop_step_frame (st : State) (a : Action) (later : list Action) :
  flop_player_count (flop_step st a later) = flop_player_count st
  /\ flop_active_snapshot (flop_step st a later) = flop_active_snapshot st
  /\ preflop_aggressor (flop_step st a later) = preflop_aggressor st.
Proof.
  unfold FlopMatrix.flop_step. destruct (negb (truthy (player a)) || negb (truthy (atype a)));
    repeat split.
Qed.

Lemma flop_step_seen (st : State) (a : Action) (later : list Action) :
  flop_bet_seen (flop_step st a later) = flop_bet_seen st || (valid a && aggressive a).
Proof.
  unfold FlopMatrix.flop_step, valid, aggressive.
  destruct (truthy (player a)), (truthy (atype a)); cbn [negb orb andb];
    rewrite ?orb_false_r; try reflexivity.
  cbn [flop_bet_seen].
  destruct ((inb (atype a) BET_TYPES || inb (atype a) RAISE_TYPES) && Qpos (sum a));
    by rewrite ?orb_true_r, ?orb_false_r.
Qed.

(** The guard of the event block, written out. *)
Lemma hero_event_is_Some (st : State) (a : Action) (later : list Action) :
  flop_guard st ->
  (is_Some (hero_event st a later) <->
   hero_event_recorded st = false /\ player a = hero /\ inb (atype a) BET_TYPES = true
   /\ Qpos (sum a) = true /\ flop_bet_seen st = false /\ Qpos (total_pot st) = true).
Proof.
  intros (c & s & Hc & Hc2 & Hs & Hsne). unfold FlopMatrix.hero_event. rewrite Hc, Hs.
  rewrite (bool_decide_eq_false_2 _ Hsne).
  replace (c =? 0)%nat with false by (symmetry; apply Nat.eqb_neq; lia).
  replace (2 <=? c)%nat with true by (symmetry; apply Nat.leb_le; lia).
  cbn [negb]. rewrite !andb_true_r.
  destruct (hero_event_recorded st); cbn [negb andb];
    [split; [intros [? ?]; done | intros [? _]; done] |].
  destruct (String.eqb (player a) hero) eqn:Hp; cbn [andb].
  2: { apply String.eqb_neq in Hp. split; [intros [? ?]; done | intros (_ & ? & _); done]. }
  apply String.eqb_eq in Hp.
  destruct (inb (atype a) BET_TYPES); cbn [andb];
    [| split; [intros [? ?]; done | intros (_ & _ & ? & _); done]].
  destruct (Qpos (sum a)) eqn:Hsum; cbn [andb];
    [| split; [intros [? ?]; done | intros (_ & _ & _ & ? & _); done]].
  destruct (flop_bet_seen st); cbn [negb];
    [split; [intros [? ?]; done | intros (_ & _ & _ & _ & ? & _); done] |].
  destruct (Qpos (total_pot st)) eqn:Hpot; cbn [fmap option_fmap option_map].
  - assert (Hge : BetSizing.fge (BetSizing.Fin (sum a / total_pot st)) (BetSizing.Fin 0) = true).
    { apply Qpos_lt in Hsum, Hpot. unfold BetSizing.fge, BetSizing.flt.
      rewrite negb_involutive. apply Qle_bool_iff, Qlt_le_weak.
      apply Qlt_shift_div_l; [done |]. by rewrite Qmult_0_l. }
    destruct (BetSizingFacts.find_some_bucket _ Hge) as (b & Hb & _). rewrite Hb.
    split; [done | eauto].
  - split; [intros [? ?]; done | intros (_ & _ & _ & _ & _ & ?); done].
Qed.

Lemma hero_event_ratio (st : State) (a : Action) (later : list Action) (e : Event) :
  hero_event st a later = Some e -> ratio e = (sum a / total_pot st)%Q.
Proof.
  unfold FlopMatrix.hero_event. intros H.
  destruct (flop_player_count st); [| done]. destruct (flop_active_snapshot st); [| done].
  match type of H with (if ?b then _ else _) = _ => destruct b; [| done] end.
  destruct (Qpos (total_pot st)); cbn [fmap option_fmap option_map] in H; [| done].
  destruct (BetSizing.bucket_for_ratio _); [| done]. by inversion H.
Qed.

Lemma hero_event_aggressive (st : State) (a : Action) (later : list Action) :
  is_Some (hero_event st a later) -> aggressive a = true.
Proof.
  unfold FlopMatrix.hero_event, aggressive. intros [e H].
  destruct (flop_player_count st); [| done]. destruct (flop_active_snapshot st); [| done].
  match type of H with (if ?b then _ else _) = _ => destruct b eqn:Hb; [| done] end.
  repeat (apply andb_true_iff in Hb as [Hb ?]).
  apply andb_true_iff. split; [apply orb_true_iff; by left | done].
Qed.

Lemma state_before_frame (i : nat) (st : State) (acts : list Action) :
  flop_guard st -> flop_guard (state_before i st acts).
Proof.
  revert st acts. induction i as [| i IH]; intros st acts Hg; [done |].
  destruct acts as [| a later]; [done |]. cbn [state_before]. apply IH.
  destruct (flop_step_frame st a later) as (Hc & Hs & _).
  unfold flop_guard. by rewrite Hc, Hs.
Qed.

Lemma state_before_pot (i : nat) (st : State) (acts : list Action) :
  total_pot (state_before i st acts)
  = pot_after (total_pot st) (sum <$> List.filter valid (take i acts)).
Proof.
  revert st acts. induction i as [| i IH]; intros st acts; [done |].
  destruct acts as [| a later]; [done |]. cbn [state_before take List.filter].
  rewrite IH, flop_step_pot. destruct (valid a); reflexivity.
Qed.

Lemma state_before_seen (i : nat) (st : State) (acts : list Action) :
  flop_bet_seen (state_before i st acts)
  = flop_bet_seen st || existsb (fun a => valid a && aggressive a) (take i acts).
Proof.
  revert st acts. induction i as [| i IH]; intros st acts; [by rewrite orb_false_r |].
  destruct acts as [| a later]; [by rewrite orb_false_r |].
  cbn [state_before take existsb]. by rewrite IH, flop_step_seen, orb_assoc.
Qed.

Lemma flop_step_recorded (st : State) (a : Action) (later : list Action) :
  flop_bet_seen (flop_step st a later) = false ->
  hero_event_recorded (flop_step st a later) = hero_event_recorded st.
Proof.
  rewrite flop_step_seen. intros Hseen. apply orb_false_iff in Hseen as [_ Hagg].
  unfold FlopMatrix.flop_step. unfold valid in Hagg.
  destruct (truthy (player a)), (truthy (atype a)); cbn [negb orb andb] in *; try reflexivity.
  destruct (hero_event st a later) eqn:He; [| reflexivity].
  rewrite (hero_event_aggressive st a later) in Hagg by eauto. done.
Qed.

(** As long as no bet has been seen, no event has been recorded either. *)
Lemma state_before_recorded (i : nat) (st : State) (acts : list Action) :
  flop_bet_seen (state_before i st acts) = false ->
  hero_event_recorded (state_before i st acts) = hero_event_recorded st.
Proof.
  revert st acts. induction i as [| i IH]; intros st acts Hseen; [done |].
  destruct acts as [| a later]; [done |]. cbn [state_before] in *.
  rewrite IH by done. apply flop_step_recorded.
  rewrite state_before_seen in Hseen. by apply orb_false_iff in Hseen as [? _].
Qed.

Lemma not_seen_before (i : nat) (st : State) (acts : list Action) :
  flop_bet_seen (state_before i st acts) = false <->
  flop_bet_seen st = false
  /\ forall j a', (j < i)%nat -> acts !! j = Some a' -> valid a' = true -> aggressive a' = false.
Proof.
  rewrite state_before_seen, orb_false_iff. apply and_iff_compat_l.
  split.
  - intros Hex j a' Hj Ha' Hv. destruct (aggressive a') eqn:Hagg; [| done].
    assert (Hin : In a' (take i acts)).
    { apply list_elem_of_In, list_elem_of_lookup. exists j. by rewrite lookup_take_lt. }
    assert (existsb (fun a => valid a && aggressive a) (take i acts) = true).
    { apply existsb_exists. exists a'. by rewrite Hv, Hagg. }
    congruence.
  - intros Hall. destruct (existsb _ (take i acts)) eqn:Hex; [| done].
    apply existsb_exists in Hex as (a' & Hin & Hb). apply andb_true_iff in Hb as [Hv Hagg].
    apply list_elem_of_In, list_elem_of_lookup in Hin as [j Hj].
    pose proof (lookup_lt_Some _ _ _ Hj) as Hlt. rewrite length_take in Hlt.
    rewrite lookup_take_lt in Hj by lia. rewrite (Hall j a') in Hagg by (done || lia). done.
Qed.

(** *** At most one event per hand *)

Definition one_event (st : State) : Prop :=
  length (events st) <= 1 /\ (hero_event_recorded st = false -> events st = []).

Lemma hero_event_unrecorded (st : State) (a : Action) (later : list Action) :
  is_Some (hero_event st a later) -> hero_event_recorded st = false.
Proof.
  unfold FlopMatrix.hero_event. intros [e H].
  destruct (flop_player_count st); [| done]. destruct (flop_active_snapshot st); [| done].
  destruct (hero_event_recorded st); [done | reflexivity].
Qed.

Lemma flop_step_one_event (st : State) (a : Action) (later : list Action) :
  one_event st -> one_event (flop_step st a later).
Proof.
  intros [Hlen Hrec]. unfold one_event. rewrite flop_step_events.
  unfold FlopMatrix.flop_step, valid.
  destruct (truthy (player a)), (truthy (atype a)); cbn [negb orb andb];
    rewrite ?app_nil_r; try done.
  destruct (hero_event st a later) eqn:He; cbn [hero_event_recorded]; rewrite ?app_nil_r;
    [| done].
  rewrite Hrec by (apply (hero_event_unrecorded st a later); eauto). split; [done | done].
Qed.

Lemma flop_loop_one_event (st : State) (acts : list Action) :
  one_event st -> one_event (flop_loop st acts).
Proof.
  revert st. induction acts as [| a later IH]; intros st H; [done |].
  apply IH. by apply flop_step_one_event.
Qed.

Lemma preflop_one_event (st : State) (acts : list Action) :
  one_event st -> one_event (foldl preflop_step st acts).
Proof.
  revert st. induction acts as [| a later IH]; intros st H; [done |].
  apply IH. unfold preflop_step, one_event.
  destruct (negb (truthy (player a)) || negb (truthy (atype a))); exact H.
Qed.

Lemma other_one_event (st : State) (acts : list Action) :
  one_event st -> one_event (foldl other_step st acts).
Proof.
  revert st. induction acts as [| a later IH]; intros st H; [done |].
  apply IH. unfold other_step, one_event.
  destruct (truthy (player a) && inb (atype a) FOLD_TYPES); exact H.
Qed.

Lemma walk_one_event (st : State) (rounds : list Round) :
  one_event st -> one_event (walk st rounds).
Proof.
  revert st. induction rounds as [| rnd rest IH]; intros st H; [done |].
  cbn [FlopMatrix.walk]. unfold FlopMatrix.round_step.
  destruct (no rnd =? 1)%Z; [by apply IH, preflop_one_event |].
  destruct (no rnd =? 2)%Z; [| by apply IH, other_one_event].
  destruct (size (active_players st) <? 2)%nat; [done |].
  apply IH, flop_loop_one_event. exact H.
Qed.

(** *** The snapshot guard holds whenever the flop is entered *)

Definition guard_inv (st : State) : Prop := flop_player_count st = None \/ flop_guard st.

Lemma enter_flop_guard (st : State) :
  guard_inv st -> 2 <= size (active_players st) -> flop_guard (enter_flop st).
Proof.
  intros [Hnone | (c & s & Hc & Hc2 & Hs & Hne)] Hsize; unfold flop_guard, enter_flop.
  - rewrite Hnone. exists (size (active_players st)), (active_players st).
    repeat split; [done |]. intros E. rewrite E, size_empty in Hsize. lia.
  - rewrite Hc. exists c, s. by repeat split.
Qed.

End hand.

Lemma events_from_hand_history_le_1 (h : Hand) : length (_events_from_hand_history h) <= 1.
Proof.
  unfold _events_from_hand_history.
  repeat match goal with
         | |- context [if ?b then _ else _] => destruct b; [simpl; lia |]
         | |- context [match ?x with Some _ => _ | None => _ end] =>
             destruct x; [| simpl; lia]
         end.
  apply walk_one_event. split; [simpl; lia | done].
Qed.

(** C1 (amended).  On a flop street entered from [st] with at least two
    active players, the walker emits an event at action [i] exactly when that
    action names player and type, is the hero's, has a bet or all-in type
    ("5" or "7"; a raise "23" does not count), has a positive amount, comes
    before any positive bet, raise or all-in of the street by anyone, no event
    was recorded earlier in the hand, and the pot before it is positive; the
    event's ratio is the amount divided by that pot.  The events of the street
    are the events so emitted, at most one of them, and a hand has at most one
    event. *)
Theorem hero_bet_event_rule
    (hero hero_position_label : string) (position_index : gmap string nat) (big_blind : Q)
    (st : State) (acts : list Action) (i : nat) :
  guard_inv st -> 2 <= size (active_players st) ->
  let emitted := emitted_at hero hero_position_label position_index big_blind
                            (enter_flop st) acts in
  let pot_before := pot_after (total_pot st) (sum <$> List.filter valid (take i acts)) in
  (is_Some (emitted i) <->
   exists a, acts !! i = Some a /\ valid a = true /\ player a = hero
     /\ inb (atype a) BET_TYPES = true /\ Qpos (sum a) = true
     /\ (forall j a', (j < i)%nat -> acts !! j = Some a' -> valid a' = true ->
                      aggressive a' = false)
     /\ hero_event_recorded st = false /\ Qpos pot_before = true)
  /\ (forall e a, emitted i = Some e -> acts !! i = Some a ->
                  ratio e = (sum a / pot_before)%Q)
  /\ events (flop_loop hero hero_position_label position_index big_blind (enter_flop st) acts)
     = events st ++ omap emitted (seq 0 (length acts))
  /\ (forall j, is_Some (emitted i) -> is_Some (emitted j) -> i = j)
  /\ (forall h, length (_events_from_hand_history h) <= 1).
Proof.
  intros Hinv Hsize emitted pot_before.
  pose proof (enter_flop_guard st Hinv Hsize) as Hguard.
  set (st0 := enter_flop st) in *.
  assert (Hpot : forall k, total_pot (state_before hero hero_position_label position_index
                                                   big_blind k st0 acts)
                           = pot_after (total_pot st)
                                       (sum <$> List.filter valid (take k acts))).
  { intros k. by rewrite state_before_pot. }
  assert (Hchar : forall k,
    is_Some (emitted k) <->
    exists a, acts !! k = Some a /\ valid a = true /\ player a = hero
      /\ inb (atype a) BET_TYPES = true /\ Qpos (sum a) = true
      /\ (forall j a', (j < k)%nat -> acts !! j = Some a' -> valid a' = true ->
                       aggressive a' = false)
      /\ hero_event_recorded st = false
      /\ Qpos (pot_after (total_pot st) (sum <$> List.filter valid (take k acts))) = true).
  { intros k. unfold emitted, emitted_at.
    destruct (acts !! k) as [a |] eqn:Ha; [| split; [intros [? ?]; done | intros (? & ? & _); done]].
    destruct (valid a) eqn:Hv.
    2: { split; [intros [? ?]; done |]. intros (a' & [= <-] & Hv' & _). congruence. }
    rewrite hero_event_is_Some by (by apply state_before_frame).
    rewrite Hpot, not_seen_before. split.
    - intros (Hrec & Hp & Hb & Hs & [_ Hnone] & Hq). exists a.
      repeat split; try done.
      rewrite state_before_recorded in Hrec; [done |]. by apply not_seen_before.
    - intros (a' & [= <-] & _ & Hp & Hb & Hs & Hnone & Hrec & Hq).
      repeat split; try done.
      rewrite state_before_recorded; [done |]. by apply not_seen_before. }
  split; [apply Hchar |]. split; [| split; [| split]].
  - intros e a He Ha. unfold emitted, emitted_at in He. rewrite Ha in He.
    destruct (valid a); [| done]. apply hero_event_ratio in He. by rewrite He, Hpot.
  - unfold emitted. by rewrite flop_loop_events.
  - intros j Hi Hj.
    assert (Hagg : forall k, is_Some (emitted k) ->
                     exists a, acts !! k = Some a /\ valid a = true /\ aggressive a = true).
    { intros k Hk. apply Hchar in Hk as (a & Ha & Hv & _ & Hb & Hs & _).
      exists a. repeat split; try done. unfold aggressive. by rewrite Hb, Hs. }
    destruct (Nat.lt_trichotomy i j) as [Hlt | [-> | Hlt]]; [exfalso | done | exfalso].
    + destruct (Hagg i Hi) as (a & Ha & Hv & Hg).
      apply Hchar in Hj as (_ & _ & _ & _ & _ & _ & Hnone & _).
      rewrite (Hnone i a Hlt Ha Hv) in Hg. done.
    + destruct (Hagg j Hj) as (a & Ha & Hv & Hg).
      apply Hchar in Hi as (_ & _ & _ & _ & _ & _ & Hnone & _).
      rewrite (Hnone j a Hlt Ha Hv) in Hg. done.
  - apply events_from_hand_history_le_1.
Qed.

Local Open Scope Q_scope.

(** A heads-up hand: the hero opens pre-flop, the villain calls, and on the
    flop the villain checks and the hero acts with type [t] for 0.20. *)
Definition flop_hand (t : string) : Hand :=
  mkHand "Hero" [mkPlayerInfo "Hero" 1 true; mkPlayerInfo "Villain" 3 false] (Some 0.10)
    [ mkRound 0 [] [mkAction "Hero" "1" 0.05; mkAction "Villain" "2" 0.10];
      mkRound 1 [] [mkAction "Hero" "23" 0.30; mkAction "Villain" "3" 0.30];
      mkRound 2 [] [mkAction "Villain" "4" 0; mkAction "Hero" t 0.20;
                    mkAction "Villain" "0" 0] ].

(** The locals of [flop_hand] when its flop is entered. *)
Definition flop_hand_state : State :=
  walk "Hero" "BTN" (_position_index (players (flop_hand "5"))) 0.10
       (initial_state (players (flop_hand "5")))
       (take 2 (sorted_rounds (rounds (flop_hand "5")))).

Lemma hero_bet_event_rule_witness :
  is_Some (emitted_at "Hero" "BTN" (_position_index (players (flop_hand "5"))) 0.10
                      (enter_flop flop_hand_state)
                      [mkAction "Villain" "4" 0; mkAction "Hero" "5" 0.20;
                       mkAction "Villain" "0" 0] 1)
  /\ (ratio <$> _events_from_hand_history (flop_hand "5")) = [2000000000 # 7500000000].
Proof.
  split; [| reflexivity].
  apply (proj1 (hero_bet_event_rule "Hero" "BTN" (_position_index (players (flop_hand "5")))
                  0.10 flop_hand_state
                  [mkAction "Villain" "4" 0; mkAction "Hero" "5" 0.20;
                   mkAction "Villain" "0" 0] 1
                  ltac:(left; reflexivity) ltac:(vm_compute; lia))).
  exists (mkAction "Hero" "5" 0.20). repeat split.
  intros j a' Hj Ha' _. destruct j as [| j]; [| lia]. by inversion Ha'.
Defined.

(** C1, as stated, fails on the walker: the hero's first flop action is a
    raise (type "23") of a positive amount into a positive pot, before any
    other bet of the street, and no event is emitted; the same hand with a bet
    (type "5") emits one. *)
Lemma hero_raise_emits_no_event :
  inb "23" RAISE_TYPES = true
  /\ total_pot flop_hand_state == 0.75
  /\ _events_from_hand_history (flop_hand "23") = []
  /\ length (_events_from_hand_history (flop_hand "5")) = 1%nat.
Proof. repeat split. Qed.

End FlopMatrixFacts.

(** ** cbet_utils.py: responses to the c-bet *)

Module CbetLoaderFacts.
Import Py HandHistory CbetUtils CbetLoader.

(** The responses a run of flop actions adds for a bettor, given the
    opponents already recorded: each opponent's first action after the bet
    that has a response type. *)
Fixpoint new_responses (bettor : string) (recorded : gset string) (acts : list Action)
    : list Response :=
  match acts with
  | [] => []
  | a :: rest =>
      if truthy (player a) && negb (String.eqb (player a) bettor)
         && negb (bool_decide (player a ∈ recorded))
      then match response_kind (atype a) with
           | Some kind =>
               mkResponse (player a) (atype a) kind (sum a)
               :: new_responses bettor (recorded ∪ {[player a]}) rest
           | None => new_responses bettor recorded rest
           end
      else new_responses bettor recorded rest
  end.

(** [r] records the first action of its player, among [acts], that has a
    response type; the player is an opponent of [bettor]. *)
Definition first_response (bettor : string) (recorded : gset string) (acts : list Action)
    (r : Response) : Prop :=
  exists i a,
    acts !! i = Some a /\ truthy (player a) = true /\ (player a <> bettor)
    /\ (player a ∉ recorded)
    /\ response_kind (atype a) = Some (r_response r)
    /\ r = mkResponse (player a) (atype a) (r_response r) (sum a)
    /\ forall j a', (j < i)%nat -> acts !! j = Some a' -> player a' = player a ->
                    response_kind (atype a') = None.

Lemma new_responses_players (bettor : string) (acts : list Action) (recorded : gset string) :
  NoDup (r_player <$> new_responses bettor recorded acts)
  /\ forall r, r ∈ new_responses bettor recorded acts ->
               (r_player r ∉ recorded) /\ (r_player r <> bettor).
Proof.
  revert recorded. induction acts as [| a rest IH]; intros recorded.
  - split; [constructor | intros r Hr; by apply elem_of_nil in Hr].
  - cbn [new_responses].
    destruct (truthy (player a)) eqn:Ht; cbn [andb]; [| apply IH].
    destruct (String.eqb (player a) bettor) eqn:Hb; cbn [negb andb]; [apply IH |].
    case_bool_decide as Hrec; cbn [negb]; [apply IH |].
    destruct (response_kind (atype a)) as [kind |]; [| apply IH].
    destruct (IH (recorded ∪ {[player a]})) as [Hnd Hin].
    apply String.eqb_neq in Hb. split.
    + rewrite fmap_cons. apply NoDup_cons. split; [| exact Hnd]. cbn [r_player].
      intros (r & Hr & Hrin)%list_elem_of_fmap. apply Hin in Hrin as [Hnot _].
      apply Hnot. rewrite <- Hr. apply elem_of_union. right. by apply elem_of_singleton.
    + intros r [-> | Hr]%elem_of_cons; [done |].
      apply Hin in Hr as [Hnot Hne]. split; [| done].
      intros Hc. apply Hnot, elem_of_union. by left.
Qed.

Lemma new_responses_spec (bettor : string) (acts : list Action) (recorded : gset string)
    (r : Response) :
  r ∈ new_responses bettor recorded acts <-> first_response bettor recorded acts r.
Proof.
  revert recorded. induction acts as [| a rest IH]; intros recorded.
  - split; [intros H; by apply elem_of_nil in H | intros (i & a & H & _); done].
  - cbn [new_responses].
    assert (Hshift : forall R,
      (forall j a', (j < 1)%nat -> (a :: rest) !! j = Some a' ->
                    forall p, p ∉ R -> truthy p = true -> p <> bettor -> player a' = p ->
                    response_kind (atype a') = None) ->
      first_response bettor R rest r -> first_response bettor R (a :: rest) r).
    { intros R Hhead (i & a0 & Hi & Ht & Hne & HR & Hk & Hr & Hfirst).
      exists (S i), a0. repeat split; try done.
      intros j a' Hj Ha' Hp. destruct j as [| j].
      - by apply (Hhead 0%nat a' ltac:(lia) Ha' (player a0)).
      - apply (Hfirst j a'); [lia | done | done]. }
    destruct (truthy (player a) && negb (String.eqb (player a) bettor)
              && negb (bool_decide (player a ∈ recorded))) eqn:Hcond.
    + apply andb_true_iff in Hcond as [Hcond Hrec].
      apply andb_true_iff in Hcond as [Ht Hb].
      apply negb_true_iff, String.eqb_neq in Hb.
      apply negb_true_iff, bool_decide_eq_false in Hrec.
      destruct (response_kind (atype a)) as [kind |] eqn:Hkind.
      * rewrite elem_of_cons, IH. split.
        -- intros [-> | (i & a0 & Hi & Ht0 & Hne & HR & Hk & Hr & Hfirst)].
           ++ exists 0%nat, a. repeat split; try done. intros j a' Hj. lia.
           ++ exists (S i), a0. repeat split; try done.
              ** intros Hc. apply HR, elem_of_union. by left.
              ** intros j a' Hj Ha' Hp. destruct j as [| j].
                 --- inversion Ha'; subst a'. exfalso. apply HR, elem_of_union. right.
                     by apply elem_of_singleton.
                 --- apply (Hfirst j a'); [lia | done | done].
        -- intros (i & a0 & Hi & Ht0 & Hne & HR & Hk & Hr & Hfirst).
           destruct i as [| i].
           ++ inversion Hi; subst a0. left. rewrite Hr. f_equal. congruence.
           ++ right. exists i, a0. repeat split; try done.
              ** intros [Hc | Hc%elem_of_singleton]%elem_of_union; [done |].
                 rewrite (Hfirst 0%nat a) in Hkind; [done | lia | done | done].
              ** intros j a' Hj Ha' Hp. apply (Hfirst (S j) a'); [lia | done | done].
      * rewrite IH. split.
        -- apply Hshift. intros j a' Hj Ha' p _ _ _ _.
           destruct j as [| j]; [| lia]. by inversion Ha'; subst a'.
        -- intros (i & a0 & Hi & Ht0 & Hne & HR & Hk & Hr & Hfirst).
           destruct i as [| i]; [inversion Hi; subst a0; congruence |].
           exists i, a0. repeat split; try done.
           intros j a' Hj Ha' Hp. apply (Hfirst (S j) a'); [lia | done | done].
    + rewrite IH. split.
      * apply Hshift. intros j a' Hj Ha' p HR Ht Hne Hp.
        destruct j as [| j]; [| lia]. inversion Ha'; subst a'. exfalso.
        rewrite Hp, Ht in Hcond. cbn [andb] in Hcond.
        rewrite (proj2 (String.eqb_neq _ _) Hne) in Hcond. cbn [negb andb] in Hcond.
        rewrite bool_decide_eq_false_2 in Hcond by done. done.
      * intros (i & a0 & Hi & Ht0 & Hne & HR & Hk & Hr & Hfirst).
        destruct i as [| i].
        -- inversion Hi; subst a0. exfalso.
           rewrite Ht0 in Hcond. cbn [andb] in Hcond.
           rewrite (proj2 (String.eqb_neq _ _) Hne) in Hcond. cbn [negb andb] in Hcond.
           rewrite bool_decide_eq_false_2 in Hcond by done. done.
        -- exists i, a0. repeat split; try done.
           intros j a' Hj Ha' Hp. apply (Hfirst (S j) a'); [lia | done | done].
Qed.

(** The opponents recorded after a run of flop actions. *)
Fixpoint recorded_after (bettor : string) (recorded : gset string) (acts : list Action)
    : gset string :=
  match acts with
  | [] => recorded
  | a :: rest =>
      if truthy (player a) && negb (String.eqb (player a) bettor)
         && negb (bool_decide (player a ∈ recorded))
      then match response_kind (atype a) with
           | Some _ => recorded_after bettor (recorded ∪ {[player a]}) rest
           | None => recorded_after bettor recorded rest
           end
      else recorded_after bettor recorded rest
  end.

Lemma new_responses_app (bettor : string) (l1 l2 : list Action) (recorded : gset string) :
  new_responses bettor recorded (l1 ++ l2)
  = new_responses bettor recorded l1
    ++ new_responses bettor (recorded_after bettor recorded l1) l2.
Proof.
  revert recorded. induction l1 as [| a l1 IH]; intros recorded; [done |].
  cbn [app new_responses recorded_after].
  destruct (truthy (player a) && negb (String.eqb (player a) bettor)
            && negb (bool_decide (player a ∈ recorded))); [| apply IH].
  destruct (response_kind (atype a)); [| apply IH].
  by rewrite IH.
Qed.

Lemma recorded_after_app (bettor : string) (l1 l2 : list Action) (recorded : gset string) :
  recorded_after bettor recorded (l1 ++ l2)
  = recorded_after bettor (recorded_after bettor recorded l1) l2.
Proof.
  revert recorded. induction l1 as [| a l1 IH]; intros recorded; [done |].
  cbn [app recorded_after].
  destruct (truthy (player a) && negb (String.eqb (player a) bettor)
            && negb (bool_decide (player a ∈ recorded))); [| apply IH].
  destruct (response_kind (atype a)); apply IH.
Qed.

(** An event with its response list replaced. *)
Definition with_responses (e : Event) (rs : list Response) : Event :=
  mkEvent (e_hand_number e) (e_player e) (e_ratio e) (e_primary e) (e_hole_cards e)
          (e_flop_cards e) (e_has_flush_draw e) (e_has_oesd e) (e_made_flush e)
          (e_made_straight e) (e_made_full_house e) (e_in_position e) (e_flop_players e) rs.

Lemma with_responses_id (e : Event) : with_responses e (e_responses e) = e.
Proof. by destruct e. Qed.

Section hand.
Context (hand_number : Z) (pocket_cards : gmap string (list card)).

Local Abbreviation action_step := (action_step hand_number pocket_cards).
Local Abbreviation round_step := (round_step hand_number pocket_cards).
Local Abbreviation flop_bet_step := (flop_bet_step hand_number pocket_cards).

(** Once the c-bet is logged, the c-bet test only notes the actor. *)
Lemma flop_bet_step_logged (st : State) (a : Action) :
  cbet_logged st = true ->
  let st' := flop_bet_step st a in
  cbet_logged st' = true /\ current_event st' = current_event st
  /\ responders_recorded st' = responders_recorded st /\ events st' = events st.
Proof. intros Hl. unfold CbetLoader.flop_bet_step. rewrite Hl. by cbn. Qed.

Lemma add_to_pot_frame (st : State) (a : Action) :
  cbet_logged (add_to_pot st a) = cbet_logged st
  /\ current_event (add_to_pot st a) = current_event st
  /\ responders_recorded (add_to_pot st a) = responders_recorded st
  /\ events (add_to_pot st a) = events st.
Proof. unfold add_to_pot. destruct (Qpos (sum a)); done. Qed.

(** The response block on a flop action of a named player. *)
Lemma response_step_response (st : State) (a : Action) (idx : nat) (ev : Event) :
  current_event st = Some idx -> events st !! idx = Some ev ->
  truthy (player a) = true ->
  let st' := response_step 2 st a in
  cbet_logged st' = cbet_logged st /\ current_event st' = Some idx
  /\ responders_recorded st' = recorded_after (e_player ev) (responders_recorded st) [a]
  /\ events st' !! idx
     = Some (with_responses ev (e_responses ev
                                ++ new_responses (e_player ev) (responders_recorded st) [a])).
Proof.
  intros Hc He Ht. cbn zeta. unfold response_step. rewrite Hc, He.
  change ((2 =? 2)%Z) with true. cbn [andb new_responses recorded_after]. rewrite Ht.
  cbn [andb].
  destruct (negb (String.eqb (player a) (e_player ev))
            && negb (bool_decide (player a ∈ responders_recorded st)));
    [| by rewrite app_nil_r, with_responses_id].
  destruct (response_kind (atype a)) as [kind |];
    [| by rewrite app_nil_r, with_responses_id].
  cbn [cbet_logged current_event responders_recorded events].
  repeat split. rewrite list_lookup_alter, decide_True, He by done. reflexivity.
Qed.

(** One flop action after the bet. *)
Lemma action_step_response (st : State) (a : Action) (idx : nat) (ev : Event) :
  cbet_logged st = true -> current_event st = Some idx -> events st !! idx = Some ev ->
  let st' := action_step 2 st a in
  cbet_logged st' = true /\ current_event st' = Some idx
  /\ responders_recorded st' = recorded_after (e_player ev) (responders_recorded st) [a]
  /\ events st' !! idx
     = Some (with_responses ev (e_responses ev
                                ++ new_responses (e_player ev) (responders_recorded st) [a])).
Proof.
  intros Hl Hc He. cbn zeta. unfold CbetLoader.action_step.
  destruct (truthy (player a)) eqn:Ht; cbn [negb].
  2: { cbn [new_responses recorded_after]. rewrite Ht. cbn [andb].
       by rewrite app_nil_r, with_responses_id. }
  change ((2 =? 1)%Z) with false. change ((2 =? 2)%Z) with true. cbn [andb].
  destruct (flop_bet_step_logged st a Hl) as (Hl1 & Hc1 & Hr1 & He1).
  set (st1 := flop_bet_step st a) in *.
  rewrite <- He1 in He. rewrite <- Hc1 in Hc.
  destruct (response_step_response st1 a idx ev Hc He Ht) as (Hl2 & Hc2 & Hr2 & He2).
  destruct (add_to_pot_frame (response_step 2 st1 a) a) as (Hl3 & Hc3 & Hr3 & He3).
  rewrite Hl3, Hc3, Hr3, He3, Hl2, Hc2, Hr2, He2, Hl1, Hr1. done.
Qed.

(** The flop actions after the bet, in one round. *)
Lemma flop_actions_responses (acts : list Action) (st : State) (idx : nat) (ev : Event) :
  cbet_logged st = true -> current_event st = Some idx -> events st !! idx = Some ev ->
  let st' := foldl (action_step 2) st acts in
  cbet_logged st' = true /\ current_event st' = Some idx
  /\ responders_recorded st' = recorded_after (e_player ev) (responders_recorded st) acts
  /\ events st' !! idx
     = Some (with_responses ev (e_responses ev
                                ++ new_responses (e_player ev) (responders_recorded st) acts)).
Proof.
  revert st ev. induction acts as [| a rest IH]; intros st ev Hl Hc He; cbn zeta.
  - cbn [foldl new_responses recorded_after]. by rewrite app_nil_r, with_responses_id.
  - cbn [foldl]. destruct (action_step_response st a idx ev Hl Hc He) as (Hl1 & Hc1 & Hr1 & He1).
    destruct (IH _ _ Hl1 Hc1 He1) as (Hl2 & Hc2 & Hr2 & He2).
    change (a :: rest) with ([a] ++ rest).
    rewrite new_responses_app, recorded_after_app, app_assoc.
    rewrite Hl2, Hc2, Hr2, He2, Hr1. done.
Qed.

(** The same over further flop rounds. *)
Lemma flop_rounds_responses (more : list Round) (st : State) (idx : nat) (ev : Event) :
  Forall (fun rnd => no rnd = 2%Z) more ->
  cbet_logged st = true -> current_event st = Some idx -> events st !! idx = Some ev ->
  let st' := foldl round_step st more in
  cbet_logged st' = true /\ current_event st' = Some idx
  /\ events st' !! idx
     = Some (with_responses ev
               (e_responses ev
                ++ new_responses (e_player ev) (responders_recorded st)
                                 (List.flat_map actions more))).
Proof.
  revert st ev. induction more as [| rnd more IH]; intros st ev Hall Hl Hc He; cbn zeta.
  - cbn [foldl List.flat_map new_responses]. by rewrite app_nil_r, with_responses_id.
  - apply Forall_cons in Hall as [Hno Hall]. cbn [foldl List.flat_map].
    assert (Hstep : CbetLoader.round_step hand_number pocket_cards st rnd
                    = foldl (action_step 2) (enter_round st rnd) (actions rnd)).
    { unfold CbetLoader.round_step, leave_round. by rewrite Hno. }
    rewrite Hstep.
    destruct (flop_actions_responses (actions rnd) (enter_round st rnd) idx ev Hl Hc He)
      as (Hl1 & Hc1 & Hr1 & He1).
    destruct (IH _ _ Hall Hl1 Hc1 He1) as (Hl2 & Hc2 & He2).
    rewrite new_responses_app, app_assoc, Hl2, Hc2, He2, Hr1. done.
Qed.

(** Rounds other than the flop leave the event list alone. *)
Lemma response_step_other (round_no : Z) (st : State) (a : Action) :
  round_no <> 2%Z -> response_step round_no st a = st.
Proof.
  intros Hno. unfold response_step. rewrite (proj2 (Z.eqb_neq _ _) Hno). cbn [andb].
  destruct (current_event st); [| done]. by destruct (events st !! _).
Qed.

Lemma action_step_other (round_no : Z) (st : State) (a : Action) :
  round_no <> 2%Z -> events (action_step round_no st a) = events st.
Proof.
  intros Hno. unfold CbetLoader.action_step.
  destruct (negb (truthy (player a))); [done |].
  rewrite response_step_other by done.
  destruct (add_to_pot_frame
              (if (round_no =? 1)%Z && inb (atype a) RAISE_TYPES && Qpos (sum a)
               then set_last_aggressor st (player a)
               else if (round_no =? 2)%Z then flop_bet_step st a else st) a)
    as (_ & _ & _ & ->).
  rewrite (proj2 (Z.eqb_neq _ _) Hno).
  by destruct ((round_no =? 1)%Z && inb (atype a) RAISE_TYPES && Qpos (sum a)).
Qed.

Lemma round_step_other (st : State) (rnd : Round) :
  no rnd <> 2%Z -> events (round_step st rnd) = events st.
Proof.
  intros Hno. unfold CbetLoader.round_step, leave_round.
  rewrite (proj2 (Z.eqb_neq _ _) Hno). cbn [events].
  assert (H : forall acts s, events (foldl (action_step (no rnd)) s acts) = events s).
  { induction acts as [| a acts IH]; intros s; [done |]. cbn [foldl].
    by rewrite IH, action_step_other. }
  rewrite H. unfold enter_round. reflexivity.
Qed.

(** The c-bet test either leaves the event list alone or appends the event
    of the acting player, with no response yet, and makes it current. *)
Lemma flop_bet_step_cases (st : State) (a : Action) :
  let st' := flop_bet_step st a in
  events st' = events st /\ current_event st' = current_event st
  \/ (cbet_logged st' = true /\ current_event st' = Some (length (events st))
      /\ responders_recorded st' = ∅
      /\ exists ev, events st' = events st ++ [ev] /\ e_player ev = player a
                    /\ e_responses ev = []).
Proof.
  cbn zeta. unfold CbetLoader.flop_bet_step.
  destruct (negb (cbet_logged st) && bool_decide (last_aggressor st = Some (player a))
            && (inb (atype a) BET_TYPES || inb (atype a) RAISE_TYPES) && Qpos (sum a));
    [| by left].
  destruct (flop_cards st) as [[| fc0 fcs] |]; [by left | | by left].
  destruct (pocket_cards !! player a) as [hole |]; [| by left].
  destruct (Qpos (total_pot st)); [| by left].
  right. cbn [cbet_logged current_event responders_recorded events].
  repeat split. eexists. repeat split.
Qed.

Lemma response_step_length (round_no : Z) (st : State) (a : Action) :
  length (events (response_step round_no st a)) = length (events st).
Proof.
  unfold response_step. destruct (current_event st) as [idx |]; [| done].
  destruct (events st !! idx); [| done].
  match goal with |- context [if ?b then _ else _] => destruct b; [| done] end.
  destruct (response_kind (atype a)); [| done]. cbn [events]. apply length_alter.
Qed.

(** An action that lengthens the event list has emitted its player's event. *)
Lemma action_step_emits (st : State) (a : Action) :
  length (events (action_step 2 st a)) = S (length (events st)) ->
  let st' := action_step 2 st a in
  cbet_logged st' = true /\ current_event st' = Some (length (events st))
  /\ responders_recorded st' = ∅
  /\ exists ev, events st' !! length (events st) = Some ev /\ e_player ev = player a
                /\ e_responses ev = [].
Proof.
  cbn zeta. unfold CbetLoader.action_step.
  destruct (truthy (player a)) eqn:Ht; cbn [negb]; [| lia].
  change ((2 =? 1)%Z) with false. change ((2 =? 2)%Z) with true. cbn [andb].
  pose proof (flop_bet_step_cases st a) as Hcases. cbn zeta in Hcases.
  set (st1 := flop_bet_step st a) in *.
  destruct (add_to_pot_frame (response_step 2 st1 a) a) as (Hl3 & Hc3 & Hr3 & He3).
  rewrite Hl3, Hc3, Hr3, He3.
  destruct Hcases as [[He _] | (Hl & Hc & Hr & ev & He & Hp & Hrs)].
  - rewrite response_step_length, He. lia.
  - intros _.
    assert (Hlook : events st1 !! length (events st) = Some ev).
    { rewrite He, lookup_app_r by lia. by rewrite Nat.sub_diag. }
    assert (Hid : response_step 2 st1 a = st1).
    { unfold response_step. rewrite Hc, Hlook, Hp, String.eqb_refl. done. }
    rewrite Hid. repeat split; try done. by exists ev.
Qed.

End hand.



(** C3 (amended).  When a flop action emits a bet event, the actions that
    follow it on the flop (the rest of its round, then any further flop round)
    leave that event with one response per opponent at most: the responders are
    distinct, none is the bettor, and a response is recorded for an opponent
    exactly from that opponent's first following action whose type is a fold
    or check ("0", "4": Fold), a call ("3": Call), or a raise, all-in or bet
    ("23", "7", "5": Raise); an action of another type is passed over and
    leaves the opponent unrecorded, and every later action of a recorded
    opponent is ignored.  Rounds other than the flop change no event. *)
Theorem first_response_per_opponent
    (hand_number : Z) (pocket_cards : gmap string (list card))
    (st : State) (a : Action) (rest : list Action) (more : list Round) :
  length (events (action_step hand_number pocket_cards 2 st a)) = S (length (events st)) ->
  Forall (fun rnd => no rnd = 2%Z) more ->
  let following := rest ++ List.flat_map actions more in
  let st' := foldl (round_step hand_number pocket_cards)
                   (foldl (action_step hand_number pocket_cards 2)
                          (action_step hand_number pocket_cards 2 st a) rest) more in
  exists ev,
    events st' !! length (events st) = Some ev
    /\ e_player ev = player a
    /\ NoDup (r_player <$> e_responses ev)
    /\ (forall r, r ∈ e_responses ev <-> first_response (player a) ∅ following r)
    /\ (forall s rnd, no rnd <> 2%Z ->
          events (round_step hand_number pocket_cards s rnd) = events s).
Proof.
  intros Hemit Hmore following st'.
  destruct (action_step_emits hand_number pocket_cards st a Hemit)
    as (Hl & Hc & Hr & ev & He & Hp & Hrs).
  destruct (flop_actions_responses hand_number pocket_cards rest _ _ _ Hl Hc He)
    as (Hl1 & Hc1 & Hr1 & He1).
  destruct (flop_rounds_responses hand_number pocket_cards more _ _ _ Hmore Hl1 Hc1 He1)
    as (_ & _ & He2).
  eexists. split; [exact He2 |]. cbn [with_responses e_player e_responses].
  rewrite Hr1, Hr, Hrs, Hp. cbn [app].
  rewrite <- new_responses_app. fold following.
  split; [done |]. split; [apply new_responses_players |].
  split; [intros r; apply new_responses_spec |].
  intros s rnd Hno. by apply round_step_other.
Qed.

Local Open Scope Q_scope.

(** A three-handed hand: A opens pre-flop and bets the flop after B checks;
    B then acts with type [t], C calls, and B calls. *)
Definition cbet_hand (t : string) : Hand :=
  mkHand 7 (Some 0.10) ["A"; "B"; "C"]
    [ mkRound 0 [] [mkAction "B" "1" 0.05; mkAction "C" "2" 0.10];
      mkRound 1 [mkCardsNode "A" "Pocket" (Some "HA HK")]
        [mkAction "A" "23" 0.30; mkAction "B" "3" 0.25; mkAction "C" "3" 0.20];
      mkRound 2 [mkCardsNode "" "Flop" (Some "HQ HJ C2")]
        [mkAction "B" "4" 0; mkAction "A" "5" 0.30; mkAction "B" t 0;
         mkAction "C" "3" 0.30; mkAction "B" "3" 0.30] ].

(** The locals of [cbet_hand] just before A's flop bet. *)
Definition cbet_hand_state : State :=
  let h := cbet_hand "0" in
  let step := round_step (hand_number h) (pocket_cards_of h) in
  let rnd := mkRound 2 [mkCardsNode "" "Flop" (Some "HQ HJ C2")] [] in
  action_step (hand_number h) (pocket_cards_of h) 2
    (enter_round (foldl step (initial_state []) (take 2 (sorted_rounds (rounds h)))) rnd)
    (mkAction "B" "4" 0).

Lemma first_response_per_opponent_witness :
  exists ev,
    events (foldl (action_step 7 (pocket_cards_of (cbet_hand "0")) 2)
                  (action_step 7 (pocket_cards_of (cbet_hand "0")) 2 cbet_hand_state
                               (mkAction "A" "5" 0.30))
                  [mkAction "B" "0" 0; mkAction "C" "3" 0.30; mkAction "B" "3" 0.30])
      !! 0%nat = Some ev
    /\ e_player ev = "A" /\ NoDup (r_player <$> e_responses ev).
Proof.
  destruct (first_response_per_opponent 7 (pocket_cards_of (cbet_hand "0")) cbet_hand_state
              (mkAction "A" "5" 0.30)
              [mkAction "B" "0" 0; mkAction "C" "3" 0.30; mkAction "B" "3" 0.30] []
              ltac:(vm_compute; reflexivity) ltac:(constructor))
    as (ev & Hev & Hp & Hnd & _).
  exists ev. split; [exact Hev |]. split; [exact Hp | exact Hnd].
Defined.

(** C3, as stated, fails when an opponent's first action after the bet has a
    type outside the response types (here B posts, type "2"): that action is
    passed over, B stays unrecorded, and the response recorded for B is B's
    later call, not B's first action after the bet. *)
Lemma later_action_recorded_after_unclassified :
  response_kind "2" = None
  /\ (e_responses <$> hand_events (cbet_hand "2") [])
     = [[mkResponse "C" "3" Call 0.30; mkResponse "B" "3" Call 0.30]]
  /\ (e_responses <$> hand_events (cbet_hand "0") [])
     = [[mkResponse "B" "0" Fold 0; mkResponse "C" "3" Call 0.30]].
Proof. repeat split. Qed.

End CbetLoaderFacts.

(** ** textures.py: tokens and keys *)

Module TextureTokenFacts.
Import Py ListFacts Textures TexturesFacts.

(** Every value of the rank table is between 2 and 14. *)
Lemma rank_lookup_bounds (r : ascii) (v : nat) :
  Cards.rank_lookup RANK_VALUES r = Some v -> (2 <= v <= 14)%nat.
Proof.
  unfold RANK_VALUES, Cards.CARD_RANKS. cbn [Cards.rank_lookup].
  repeat (destruct (Ascii.eqb r _); [intros [= <-]; lia |]). discriminate.
Qed.

Lemma in_ranks_value (r s : ascii) :
  in_ranks r = true -> (2 <= rank_value (mkCard r s) <= 14)%nat.
Proof.
  intros H. apply bool_decide_eq_true in H as [v Hv].
  unfold rank_value. cbn [rank]. rewrite Hv. simpl. by apply rank_lookup_bounds in Hv.
Qed.

(** The ranks and the suits, one by one. *)
Lemma in_ranks_cases (r : ascii) :
  in_ranks r = true ->
  r ∈ ["2"; "3"; "4"; "5"; "6"; "7"; "8"; "9"; "T"; "J"; "Q"; "K"; "A"]%char.
Proof.
  intros H. apply bool_decide_eq_true in H as [v Hv]. revert Hv.
  unfold RANK_VALUES, Cards.CARD_RANKS. cbn [Cards.rank_lookup].
  repeat match goal with
         | |- context [Ascii.eqb r ?c] =>
             destruct (Ascii.eqb_spec r c) as [-> | _];
             [intros _; repeat first [apply list_elem_of_here | apply list_elem_of_further] |]
         end.
  discriminate.
Qed.

(** A card that [_parse_token] returns has a rank of the rank table and a suit
    letter: [Card.rank_value] never meets a missing key on a parsed card. *)
Theorem parse_token_valid_card (raw : string) (c : Card) :
  _parse_token raw = Some c ->
  in_ranks (rank c) = true /\ suit c ∈ SUIT_CHARS /\ (2 <= rank_value c <= 14)%nat.
Proof.
  unfold _parse_token. cbv zeta.
  destruct (negb _); [discriminate |].
  destruct (PyStr.replace_10_T _) as [| first [| second rest]] eqn:Htok; try discriminate.
  destruct (in_ranks first && inb second SUIT_CHARS) eqn:H1.
  { intros [= <-]. apply andb_true_iff in H1 as [Hr Hs].
    apply bool_decide_eq_true in Hs. split; [done |]. split; [done |]. by apply in_ranks_value. }
  destruct (inb first SUIT_CHARS && in_ranks second) eqn:H2.
  { intros [= <-]. apply andb_true_iff in H2 as [Hs Hr].
    apply bool_decide_eq_true in Hs. split; [done |]. split; [done |]. by apply in_ranks_value. }
  destruct (PyStr.last_char _) as [l |]; [| discriminate].
  destruct (inb l SUIT_CHARS && in_ranks first) eqn:H3; [| discriminate].
  intros [= <-]. apply andb_true_iff in H3 as [Hs Hr].
  apply bool_decide_eq_true in Hs. split; [done |]. split; [done |]. by apply in_ranks_value.
Qed.

Lemma parse_token_valid_card_witness :
  _parse_token " 10h " = Some (mkCard "T" "H")
  /\ in_ranks "T" = true /\ "H"%char ∈ SUIT_CHARS /\ (2 <= rank_value (mkCard "T" "H") <= 14)%nat.
Proof.
  split; [reflexivity |].
  exact (parse_token_valid_card " 10h " (mkCard "T" "H") eq_refl).
Defined.

(** The spellings of one card.  For every rank character [r] and suit letter
    [s], the token is read as the same card rank first or suit first, in upper
    or lower case, and with a slash between the two characters; a ten may be
    written [10]. *)
Theorem parse_token_spellings (r s : ascii) :
  in_ranks r = true -> s ∈ SUIT_CHARS ->
  let card := Some (mkCard r s) in
  let str (l : list ascii) := string_of_list_ascii l in
  _parse_token (str [r; s]) = card
  /\ _parse_token (str [s; r]) = card
  /\ _parse_token (str [PyStr.lower_char r; PyStr.lower_char s]) = card
  /\ _parse_token (str [PyStr.lower_char s; PyStr.lower_char r]) = card
  /\ _parse_token (str [r; "/"; s]%char) = card
  /\ (r = "T"%char -> _parse_token (str ["1"; "0"; s]%char) = card).
Proof.
  intros Hr Hs. apply in_ranks_cases in Hr.
  repeat (apply elem_of_cons in Hr as [-> | Hr]);
    try (by apply elem_of_nil in Hr);
    repeat (apply elem_of_cons in Hs as [-> | Hs]);
    try (by apply elem_of_nil in Hs);
    vm_compute; repeat split; first [reflexivity | intros H; first [discriminate H | reflexivity]].
Qed.

Lemma parse_token_spellings_witness :
  _parse_token "Qd" = Some (mkCard "Q" "D") /\ _parse_token "dq" = Some (mkCard "Q" "D").
Proof.
  pose proof (parse_token_spellings "Q" "D" eq_refl ltac:(vm_compute; repeat first [apply list_elem_of_here | apply list_elem_of_further])) as H.
  cbv zeta in H. destruct H as (H1 & _ & _ & H4 & _). split; [exact H1 | exact H4].
Defined.

(** A key is reported exactly when three cards were read and the predicate of
    the entry with that key holds. *)
Lemma texture_keys_spec (text : option string) (k : string) :
  k ∈ texture_keys text <->
  length (parse_flop text) = 3%nat
  /\ exists spec, spec ∈ FLOP_TEXTURE_SPECS /\ key spec = k
                  /\ predicate spec (parse_flop text) = true.
Proof.
  unfold texture_keys, detect_textures, textures_of_cards.
  destruct (length (parse_flop text) =? 3)%nat eqn:Hlen; cbn [negb].
  - apply Nat.eqb_eq in Hlen. rewrite list_elem_of_fmap. split.
    + intros (spec & -> & Hin). apply elem_of_List_filter in Hin as [Hin Hp]. eauto 6.
    + intros (_ & spec & Hin & <- & Hp). exists spec. split; [done |].
      apply elem_of_List_filter. done.
  - apply Nat.eqb_neq in Hlen. split; [intros H; by apply elem_of_nil in H | intros [? _]; done].
Qed.

Ltac spec_cases H :=
  unfold FLOP_TEXTURE_SPECS in H;
  repeat (apply elem_of_cons in H as [-> | H]); [.. | by apply elem_of_nil in H].

Lemma list_max_elem (l : list nat) : l <> [] -> list_max l ∈ l.
Proof.
  induction l as [| x l IH]; [done |]. intros _. unfold list_max in *. cbn [foldr].
  destruct l as [| y l].
  - simpl. rewrite Nat.max_0_r. apply list_elem_of_here.
  - destruct (Nat.max_dec x (foldr Nat.max 0%nat (y :: l))) as [-> | ->].
    + apply list_elem_of_here.
    + apply list_elem_of_further. by apply IH.
Qed.

(** A flop reported as low (no card above a ten) is never reported as high
    (two Broadway ranks) nor as ace high. *)
Theorem low_flop_not_high (text : option string) :
  "low" ∈ texture_keys text ->
  ("high" ∉ texture_keys text) /\ ("ace_high" ∉ texture_keys text).
Proof.
  intros Hlow. apply texture_keys_spec in Hlow as (Hlen & spec & Hin & Hk & Hp).
  set (cards := parse_flop text) in *.
  assert (Hall : forall c, c ∈ cards -> (rank_value c <= 10)%nat).
  { spec_cases Hin; try discriminate Hk. cbn [predicate] in Hp. unfold low_pred in Hp.
    apply andb_true_iff in Hp as [_ Hp]. unfold all in Hp. rewrite forallb_forall in Hp.
    intros c Hc. apply Nat.leb_le, Hp. by apply list_elem_of_In. }
  clear spec Hin Hk Hp. split; intros Hk.
  - apply texture_keys_spec in Hk as (_ & spec & Hin & Hk & Hp). fold cards in Hp.
    spec_cases Hin; try discriminate Hk. cbn [predicate] in Hp. unfold _two_broadways in Hp.
    apply Nat.leb_le in Hp.
    destruct (filter (fun c => inb (rank c) BROADWAY_RANKS = true) cards) as [| c l] eqn:Hf;
      [simpl in Hp; lia |].
    assert (Hc : c ∈ filter (fun c => inb (rank c) BROADWAY_RANKS = true) cards)
      by (rewrite Hf; apply list_elem_of_here).
    apply list_elem_of_filter in Hc as [Hb Hc]. specialize (Hall c Hc).
    apply bool_decide_eq_true in Hb. destruct c as [r s]. cbn [rank] in Hb.
    unfold BROADWAY_RANKS in Hb.
    repeat (apply elem_of_cons in Hb as [-> | Hb]); try (by apply elem_of_nil in Hb);
      vm_compute in Hall; lia.
  - apply texture_keys_spec in Hk as (_ & spec & Hin & Hk & Hp). fold cards in Hp.
    spec_cases Hin; try discriminate Hk. cbn [predicate] in Hp. unfold ace_high_pred in Hp.
    apply andb_true_iff in Hp as [Hne Hmax]. apply Nat.eqb_eq in Hmax.
    assert (Hm : list_max (rank_value <$> cards) ∈ rank_value <$> cards).
    { apply list_max_elem. destruct cards; [discriminate | done]. }
    rewrite Hmax in Hm. apply list_elem_of_fmap in Hm as (c & Hv & Hc).
    specialize (Hall c Hc). lia.
Qed.

Lemma low_flop_not_high_witness :
  texture_keys (Some "2d 6c 9h") = ["rainbow"; "low"]
  /\ "high" ∉ texture_keys (Some "2d 6c 9h").
Proof.
  split; [reflexivity |].
  exact (proj1 (low_flop_not_high (Some "2d 6c 9h") ltac:(vm_compute; repeat first [apply list_elem_of_here | apply list_elem_of_further]))).
Defined.

(** [detect_textures] is empty exactly when the text does not hold three
    readable cards: a flop of three cards always has its suit texture. *)
Theorem detect_textures_empty_iff (text : option string) :
  detect_textures text = [] <-> length (parse_flop text) <> 3%nat.
Proof.
  unfold detect_textures, textures_of_cards.
  destruct (length (parse_flop text) =? 3)%nat eqn:Hlen; simpl.
  - apply Nat.eqb_eq in Hlen. split; [| done]. intros Hnil. exfalso.
    pose proof (suit_count_flop _ Hlen) as Hc.
    unfold rainbow_pred, monotone_pred, two_tone_pred in Hnil. rewrite Hlen in Hnil.
    assert (Hcases : (suit_count (parse_flop text) = 1 \/ suit_count (parse_flop text) = 2
                      \/ suit_count (parse_flop text) = 3)%nat) by lia.
    destruct Hcases as [H | [H | H]]; rewrite H in Hnil; simpl in Hnil;
      repeat match type of Hnil with
             | context [if ?b then _ else _] => destruct b
             end; discriminate.
  - apply Nat.eqb_neq in Hlen. done.
Qed.

Lemma sublist_List_filter_fmap {A B} (f : A -> B) (p : A -> bool) (l : list A) :
  sublist (f <$> List.filter p l) (f <$> l).
Proof.
  induction l as [| x l IH]; simpl; [constructor |].
  destruct (p x); rewrite ?fmap_cons; [by apply sublist_skip | by apply sublist_cons].
Qed.

Lemma texture_keys_sublist (text : option string) :
  sublist (texture_keys text) (key <$> FLOP_TEXTURE_SPECS).
Proof.
  unfold texture_keys, detect_textures, textures_of_cards.
  destruct (negb _); [apply sublist_nil_l |]. apply sublist_List_filter_fmap.
Qed.

Lemma texture_keys_NoDup (text : option string) : NoDup (texture_keys text).
Proof. eapply sublist_NoDup; [| apply texture_keys_sublist]. compute_done. Qed.

(** The keys come out in the order of the table, each at most once. *)
Theorem texture_keys_in_table_order (text : option string) :
  sublist (texture_keys text) (key <$> FLOP_TEXTURE_SPECS) /\ NoDup (texture_keys text).
Proof.
  assert (Hsub : sublist (texture_keys text) (key <$> FLOP_TEXTURE_SPECS)).
  { unfold texture_keys, detect_textures, textures_of_cards.
    destruct (negb _); [apply sublist_nil_l |]. apply sublist_List_filter_fmap. }
  split; [done |]. eapply sublist_NoDup; [| exact Hsub]. compute_done.
Qed.

End TextureTokenFacts.

(** ** cards.py: the strict parser *)

Module CardTextFacts.
Import Py PyStr Cards.


Lemma upper_char_idem (c : ascii) : upper_char (upper_char c) = upper_char c.
Proof. destruct c as [[] [] [] [] [] [] [] []]; reflexivity. Qed.

Lemma upper_idem (s : string) : upper (upper s) = upper s.
Proof. induction s as [| c s IH]; simpl; [done |]. by rewrite upper_char_idem, IH. Qed.

Lemma upper_suit (c : ascii) : inb c SUITS = true -> upper_char c = c.
Proof.
  intros H. apply bool_decide_eq_true in H. unfold SUITS in H.
  repeat (apply elem_of_cons in H as [-> | H]); try reflexivity. by apply elem_of_nil in H.
Qed.

Lemma upper_rank (c : ascii) (v : nat) : rank_lookup CARD_RANKS c = Some v -> upper_char c = c.
Proof.
  unfold CARD_RANKS. cbn [rank_lookup].
  repeat match goal with
         | |- context [Ascii.eqb c ?k] =>
             destruct (Ascii.eqb_spec c k) as [-> | _]; [reflexivity |]
         end.
  discriminate.
Qed.

Lemma rank_bounds (c : ascii) (v : nat) : rank_lookup CARD_RANKS c = Some v -> (2 <= v <= 14)%nat.
Proof.
  unfold CARD_RANKS. cbn [rank_lookup].
  repeat (destruct (Ascii.eqb c _); [intros [= <-]; lia |]). discriminate.
Qed.

(** *** The two strict parsers agree where the legacy one succeeds *)

Lemma parse_loops_agree (parts : list string) (cards : list card) :
  CbetUtils.parse_loop parts cards = [] \/ CbetUtils.parse_loop parts cards = parse_loop parts cards.
Proof.
  revert cards. induction parts as [| part rest IH]; intros cards; [by right |].
  cbn [CbetUtils.parse_loop parse_loop]. cbv zeta. unfold CbetUtils.CARD_RANKS, CbetUtils.SUITS.
  destruct part as [| c0 [| c1 [| ? ?]]]; try (by left).
  destruct (rank_lookup CARD_RANKS c1) as [v |] eqn:Hrank; [| by left].
  destruct (inb c0 SUITS) eqn:Hsuit; [| by left].
  rewrite (upper_rank _ _ Hrank), (upper_suit _ Hsuit), Hrank, Hsuit. apply IH.
Qed.

(** [parse_cards_text] of cards.py mirrors the legacy [_parse_cards] of
    cbet_utils.py: whenever the legacy parser returns cards, the new one
    returns the same list. *)
Theorem strict_parsers_agree (text : option string) :
  CbetUtils._parse_cards text <> [] -> parse_cards_text text = CbetUtils._parse_cards text.
Proof.
  unfold CbetUtils._parse_cards, parse_cards_text. destruct text as [t |]; [| done].
  destruct (truthy t); [| done].
  destruct (parse_loops_agree (parts_of t) []) as [-> | ->]; done.
Qed.

Lemma strict_parsers_agree_witness :
  parse_cards_text (Some "HK D2") = [("H"%char, 13%nat, "HK"); ("D"%char, 2%nat, "D2")].
Proof.
  rewrite (strict_parsers_agree (Some "HK D2")); [reflexivity | discriminate].
Defined.

(** *** The new parser does not look at the case of the letters *)











(** *** What a returned card looks like *)

Definition valid_card (c : card) : Prop :=
  card_suit c ∈ SUITS
  /\ (2 <= card_rank c <= 14)%nat
  /\ exists r, rank_lookup CARD_RANKS r = Some (card_rank c)
               /\ card_token c = String (card_suit c) (String r EmptyString).

Lemma parse_loop_valid (parts : list string) (cards : list card) :
  Forall valid_card cards -> Forall valid_card (parse_loop parts cards).
Proof.
  revert cards. induction parts as [| part rest IH]; intros cards Hc; [done |].
  cbn [parse_loop]. cbv zeta.
  destruct part as [| c0 [| c1 [| ? ?]]]; try constructor.
  destruct (rank_lookup CARD_RANKS (upper_char c1)) as [v |] eqn:Hrank; [| constructor].
  destruct (inb (upper_char c0) SUITS) eqn:Hsuit; [| constructor].
  apply IH, Forall_app. split; [done |]. constructor; [| constructor].
  unfold valid_card, card_suit, card_rank, card_token. cbn [fst snd].
  split; [by apply bool_decide_eq_true in Hsuit |].
  split; [by apply rank_bounds in Hrank |]. eauto.
Qed.

Lemma parse_loop_length (parts : list string) (cards : list card) :
  parse_loop parts cards = []
  \/ length (parse_loop parts cards) = (length cards + length parts)%nat.
Proof.
  revert cards. induction parts as [| part rest IH]; intros cards; [right; simpl; lia |].
  cbn [parse_loop]. cbv zeta.
  destruct part as [| c0 [| c1 [| ? ?]]]; try (by left).
  destruct (rank_lookup CARD_RANKS (upper_char c1)) as [v |]; [| by left].
  destruct (inb (upper_char c0) SUITS); [| by left].
  destruct (IH (cards ++ [(upper_char c0, v, String (upper_char c0) (String (upper_char c1) EmptyString))]))
    as [-> | ->]; [by left | right].
  rewrite length_app. simpl. lia.
Qed.

(** Every card that [parse_cards_text] returns has a suit of [SUITS], a rank
    value from 2 to 14, and as its token the suit letter followed by the
    character of that rank; the result is empty or has one card per token of
    the text. *)
Theorem parse_cards_text_valid (text : option string) :
  Forall valid_card (parse_cards_text text)
  /\ (parse_cards_text text = []
      \/ exists t, text = Some t /\ length (parse_cards_text text) = length (parts_of t)).
Proof.
  unfold parse_cards_text. destruct text as [t |]; [| split; [constructor | by left]].
  destruct (truthy t); [| split; [constructor | by left]]. split.
  - apply parse_loop_valid. constructor.
  - destruct (parse_loop_length (parts_of t) []) as [-> | Hlen]; [by left |].
    right. exists t. split; [done |]. rewrite Hlen. done.
Qed.

End CardTextFacts.

(** ** bet_sizing.py: order and bounds of the buckets *)

Module BucketOrderFacts.
Import BetSizing BetSizingFacts.

Lemma flt_fin_false (p q : Q) : flt (Fin p) (Fin q) = false <-> (q <= p)%Q.
Proof. unfold flt. rewrite negb_false_iff. apply Qle_bool_iff. Qed.

Lemma flt_fin_true (p q : Q) : flt (Fin p) (Fin q) = true <-> (p < q)%Q.
Proof.
  unfold flt. rewrite negb_true_iff. split.
  - intros H. apply Qnot_le_lt. intros Hle. apply Qle_bool_iff in Hle. congruence.
  - intros H. destruct (Qle_bool q p) eqn:Hle; [| done].
    apply Qle_bool_iff in Hle. exfalso. by apply (Qlt_not_le p q).
Qed.

(** A bucket with finite bounds holds the ratios from its lower bound up to,
    but not including, its upper bound. *)
Lemma contains_fin_bounds (k lbl : string) (l u q : Q) :
  contains (mkBucket k lbl (Fin l) (Fin u)) (Fin q) = true -> (l <= q)%Q /\ (q < u)%Q.
Proof.
  unfold contains. cbn [lower upper feq].
  destruct (flt (Fin q) (Fin l)) eqn:Hl; [discriminate |].
  intros Hu. split; [by apply flt_fin_false | by apply flt_fin_true].
Qed.

Lemma contains_inf_bounds (k lbl : string) (l q : Q) :
  contains (mkBucket k lbl (Fin l) PosInf) (Fin q) = true -> (l <= q)%Q.
Proof.
  unfold contains. cbn [lower upper feq].
  destruct (flt (Fin q) (Fin l)) eqn:Hl; [discriminate |].
  intros _. by apply flt_fin_false.
Qed.

Ltac bounds H :=
  first [apply contains_fin_bounds in H as [? ?] | apply contains_inf_bounds in H].

Ltac close_q :=
  repeat match goal with
         | H : (_ <= _)%Q |- _ => unfold Qle in H; simpl in H
         | H : (_ < _)%Q |- _ => unfold Qlt in H; simpl in H
         end; lia.

(** The buckets are in the order of the ratios: of two ratios, the larger one
    never gets a bucket that starts lower. *)
Theorem bucket_for_ratio_monotone (r1 r2 : pyfloat) :
  fge r1 (Fin 0) = true -> fge r2 r1 = true ->
  exists b1 b2,
    bucket_for_ratio (Some r1) = Some b1 /\ bucket_for_ratio (Some r2) = Some b2
    /\ fge (lower b2) (lower b1) = true.
Proof.
  intros H1 H12.
  assert (H2 : fge r2 (Fin 0) = true).
  { destruct r1 as [q1 | | |], r2 as [q2 | | |]; try discriminate; try reflexivity.
    unfold fge in *. rewrite negb_true_iff in *.
    apply flt_fin_false in H1, H12. apply flt_fin_false. by apply Qle_trans with q1. }
  destruct (find_some_bucket r1 H1) as (b1 & Hb1 & Hf1).
  destruct (find_some_bucket r2 H2) as (b2 & Hb2 & Hf2).
  exists b1, b2. split; [done |]. split; [done |].
  apply find_some in Hf1 as [Hin1 C1], Hf2 as [Hin2 C2].
  apply list_elem_of_In in Hin1, Hin2.
  destruct r1 as [q1 | | |], r2 as [q2 | | |]; try discriminate.
  - assert (Hle : (q1 <= q2)%Q).
    { unfold fge in H12. rewrite negb_true_iff in H12. by apply flt_fin_false. }
    bucket_cases Hin1; bucket_cases Hin2; try reflexivity; exfalso;
      bounds C1; bounds C2;
      match goal with
      | Ha : (?l <= q1)%Q, Hb : (q2 < ?u)%Q |- _ =>
          assert (l < u)%Q by (apply Qle_lt_trans with q2; [by apply Qle_trans with q1 | done])
      end; close_q.
  - bucket_cases Hin1; bucket_cases Hin2; try reflexivity; discriminate.
  - bucket_cases Hin1; bucket_cases Hin2; try reflexivity; discriminate.
Qed.

Lemma bucket_for_ratio_monotone_witness :
  exists b1 b2,
    bucket_for_ratio (Some (Fin 0.33)) = Some b1 /\ bucket_for_ratio (Some (Fin 1.5)) = Some b2
    /\ fge (lower b2) (lower b1) = true.
Proof. exact (bucket_for_ratio_monotone (Fin 0.33) (Fin 1.5) eq_refl eq_refl). Defined.

(** The bounds of the table: the lower bound of a bucket belongs to it, the
    upper bound of a closed bucket does not (it starts the next one), and plus
    infinity belongs to the open bucket at the end. *)
Theorem bucket_bounds (b : BetSizeBucket) :
  b ∈ BET_SIZE_BUCKETS ->
  bucket_for_ratio (Some (lower b)) = Some b
  /\ (upper b <> PosInf ->
      contains b (upper b) = false
      /\ exists b', bucket_for_ratio (Some (upper b)) = Some b' /\ lower b' = upper b)
  /\ (upper b = PosInf -> bucket_for_ratio (Some PosInf) = Some b).
Proof.
  intros Hin. bucket_cases Hin;
    (split; [reflexivity |]; split;
     [intros Hu; first [by exfalso; apply Hu | split; [reflexivity | eexists; split; reflexivity]]
     | intros Hu; first [discriminate Hu | reflexivity]]).
Qed.

Lemma bucket_bounds_witness :
  bucket_for_ratio (Some (Fin 0.25)) = Some (mkBucket "pct_25_40" "25-40%" (Fin 0.25) (Fin 0.40)).
Proof.
  refine (proj1 (bucket_bounds (mkBucket "pct_25_40" "25-40%" (Fin 0.25) (Fin 0.40)) _)).
  apply list_elem_of_further, list_elem_of_here.
Defined.

End BucketOrderFacts.

(** ** cbet_utils.py: flags of the classifier *)

Module ClassifierFlagFacts.
Import Py PyFacts ListFacts CbetUtils ClassifierFacts ClassifySpec ClassifyRefines.

Lemma classify_straight_flags (hole board : list card) :
  made_straight (_classify_hand hole board) = (_straight_info hole board).1
  /\ oesd (_classify_hand hole board) = (_straight_info hole board).2.
Proof. unfold _classify_hand. destruct (_straight_info hole board). split; reflexivity. Qed.

Lemma classify_made_full (hole board : list card) :
  made_full (_classify_hand hole board) =
  match sorted_desc (values (Counter (card_rank <$> (hole ++ board)))) with
  | c0 :: c1 :: _ => (3 <=? c0)%nat && (2 <=? c1)%nat
  | _ => false
  end.
Proof. unfold _classify_hand. destruct (_straight_info hole board). reflexivity. Qed.

(** The four ranks [start .. start + 3]. *)
Lemma elem_of_window (start x : nat) :
  x ∈ (list_to_set [start; start + 1; start + 2; start + 3]%nat : gset nat)
  <-> exists k, (k < 4)%nat /\ x = (start + k)%nat.
Proof.
  rewrite elem_of_list_to_set, !elem_of_cons, elem_of_nil. split.
  - intros [-> | [-> | [-> | [-> | []]]]];
      [exists 0%nat | exists 1%nat | exists 2%nat | exists 3%nat]; lia.
  - intros (k & Hk & ->).
    assert (Hc : (k = 0 \/ k = 1 \/ k = 2 \/ k = 3)%nat) by lia.
    destruct Hc as [-> | [-> | [-> | ->]]]; rewrite ?Nat.add_0_r; tauto.
Qed.

(** A run of four consecutive ranks that is open at both ends: it starts at
    2 or above and ends at a king or below, every rank of it is among the hole
    and board cards, and at least one is held in the hole. *)
Definition open_ended_run (hole board : list card) (start : nat) : Prop :=
  (2 <= start <= 10)%nat
  /\ (forall k, (k < 4)%nat -> (start + k)%nat ∈ card_rank <$> (hole ++ board))
  /\ exists k, (k < 4)%nat /\ (start + k)%nat ∈ card_rank <$> hole.

Lemma window_test (hole board : list card) (start : nat) :
  (let unique := with_wheel (list_to_set (card_rank <$> (hole ++ board))) in
   let hole_ranks := with_wheel (list_to_set (card_rank <$> hole)) in
   let window : gset nat := list_to_set [start; start + 1; start + 2; start + 3]%nat in
   bool_decide (window ⊆ unique) && negb (bool_decide (window ∩ hole_ranks = ∅))
   && ((1 <=? start - 1)%nat && (start + 4 <=? 14)%nat)) = true
  <-> open_ended_run hole board start.
Proof.
  cbv zeta. unfold open_ended_run.
  rewrite !andb_true_iff, bool_decide_eq_true, negb_true_iff, bool_decide_eq_false,
    !Nat.leb_le.
  split.
  - intros [[Hsub Hne] [Hlo Hhi]]. split; [lia |]. split.
    + intros k Hk.
      assert (Hin : (start + k)%nat ∈ with_wheel (list_to_set (card_rank <$> (hole ++ board)))).
      { apply Hsub, elem_of_window. eauto. }
      apply elem_of_with_wheel in Hin as [Hin | [H1 _]]; [done | lia].
    + apply set_choose_L in Hne as (x & Hx). apply elem_of_intersection in Hx as [Hw Hh].
      apply elem_of_window in Hw as (k & Hk & ->). exists k. split; [done |].
      apply elem_of_with_wheel in Hh as [Hh | [H1 _]]; [done | lia].
  - intros (Hb & Hall & k & Hk & Hh). split; [| lia]. split.
    + intros x Hx. apply elem_of_window in Hx as (j & Hj & ->).
      apply elem_of_with_wheel. left. by apply Hall.
    + intros Hempty.
      assert (Hin : (start + k)%nat
                    ∈ (list_to_set [start; start + 1; start + 2; start + 3]%nat : gset nat)
                      ∩ with_wheel (list_to_set (card_rank <$> hole))).
      { apply elem_of_intersection. split; [apply elem_of_window; eauto |].
        apply elem_of_with_wheel. by left. }
      rewrite Hempty in Hin. by apply elem_of_empty in Hin.
Qed.

(** The open-ended straight draw flag is set exactly when no straight is made
    and the cards hold an open-ended run with a hole card in it.  The run lies
    between 2 and the king: an ace never takes part in it, in either role. *)
Theorem oesd_flag_iff (hole board : list card) :
  oesd (_classify_hand hole board) = true <->
  made_straight (_classify_hand hole board) = false
  /\ exists start, open_ended_run hole board start.
Proof.
  destruct (classify_straight_flags hole board) as [-> ->].
  unfold _straight_info. cbv zeta.
  match goal with |- context [if ?b then (true, false) else _] => destruct b end;
    cbn [fst snd]; [split; [discriminate | intros [? _]; discriminate] |].
  match goal with |- context [if ?b then (false, true) else _] => destruct b eqn:Hany end;
    cbn [fst snd].
  - split; [| done]. intros _. split; [done |].
    unfold any in Hany. apply existsb_exists in Hany as (start & _ & Hw).
    exists start. by apply (window_test hole board start).
  - split; [discriminate |]. intros [_ (start & Hrun)]. exfalso.
    apply not_true_iff_false in Hany. apply Hany.
    unfold any. apply existsb_exists. exists start. split.
    + unfold range. apply in_seq. destruct Hrun as [? _]. lia.
    + by apply (window_test hole board start).
Qed.

(** The flags of a classification agree with its primary category and with
    each other: the full-house flag is the Full House category; Flush and
    Straight carry their made flag; a made flush or straight is never ranked
    below Flush or Straight; a draw flag is never set beside the made hand it
    draws to. *)
Theorem classification_flags_agree (hole board : list card) :
  let c := _classify_hand hole board in
  (made_full c = true <-> primary c = FullHouse)
  /\ (primary c = Flush -> made_flush c = true)
  /\ (primary c = Straight -> made_straight c = true /\ made_flush c = false)
  /\ (made_flush c = true -> primary c = Flush \/ primary c = FullHouse \/ primary c = Quads)
  /\ (made_straight c = true ->
      primary c = Straight \/ primary c = Flush \/ primary c = FullHouse \/ primary c = Quads)
  /\ (flush_draw c = true -> made_flush c = false)
  /\ (oesd c = true -> made_straight c = false).
Proof.
  cbv zeta.
  destruct (classify_straight_flags hole board) as [-> Hoesd].
  rewrite classify_made_full, classify_made_flush, classify_flush_draw, primary_chain.
  cbv zeta.
  assert (Ho : oesd (_classify_hand hole board) = true -> (_straight_info hole board).1 = false).
  { rewrite Hoesd. unfold _straight_info. cbv zeta.
    match goal with |- context [if ?b then (true, false) else _] => destruct b end;
      cbn [fst snd]; [discriminate |].
    match goal with |- context [if ?b then (false, true) else _] => destruct b end; done. }
  revert Ho. generalize (oesd (_classify_hand hole board)). intros o Ho.
  repeat match goal with
         | |- context [if ?b then _ else _] => destruct b
         end;
    repeat split; intros; try discriminate; try done; auto.
Qed.

End ClassifierFlagFacts.

(** ** opponent_performance.py: the seat resolver in general *)

Module SeatRotationFacts.
Import Py OpponentPerformance PositionFacts.

(** *** The table of position names *)

Lemma positions_by_count_spec (count : nat) (order : list string) :
  POSITIONS_BY_COUNT count = Some order ->
  (2 <= count <= 9)%nat /\ length order = count /\ NoDup order
  /\ exists rest, order = "SB" :: "BB" :: rest.
Proof.
  do 10 (try (destruct count as [| count]; try discriminate));
    intros [= <-]; (split; [lia |]); (split; [reflexivity |]);
    (split; [compute_done | eexists; reflexivity]).
Qed.

Lemma positions_by_count_some (count : nat) :
  (2 <= count <= 9)%nat -> is_Some (POSITIONS_BY_COUNT count).
Proof.
  intros H. do 10 (try (destruct count as [| count]; [first [lia | eexists; reflexivity] |])). lia.
Qed.

(** *** Rotations of the seat list *)

(** Both rotations of the resolver shift the seat index by a constant, so
    they run through every seat. *)
Lemma shift_reaches (f : Z -> Z) (c : Z) (ss : list Player) (q : Player) :
  (forall i, f i = (c + i)%Z) -> q ∈ ss -> q ∈ rotate_by f (length ss) ss.
Proof.
  intros Hf [j Hj]%list_elem_of_lookup_1. pose proof (lookup_lt_Some _ _ _ Hj) as Hjlt.
  assert (Hss : ss <> []) by (intros ->; simpl in Hjlt; lia).
  set (n := Z.of_nat (length ss)).
  apply list_elem_of_lookup_2 with (i := Z.to_nat ((Z.of_nat j - c) mod n)).
  rewrite rotate_by_lookup; [| done | apply mod_index_lt; lia].
  rewrite <- Hj. f_equal. fold n.
  pose proof (Z.mod_pos_bound (Z.of_nat j - c) n ltac:(lia)) as Hb.
  rewrite Z2Nat.id by lia. rewrite Hf, Zplus_mod_idemp_r.
  replace (c + (Z.of_nat j - c))%Z with (Z.of_nat j) by lia.
  rewrite Z.mod_small by lia. apply Nat2Z.id.
Qed.

Lemma rotation_back (f : Z -> Z) (count : nat) (ss : list Player) (q : Player) :
  ss <> [] -> q ∈ rotate_by f count ss -> q ∈ ss.
Proof.
  intros Hss [i Hi]%list_elem_of_lookup_1.
  assert (Hlt : (i < count)%nat).
  { apply lookup_lt_Some in Hi. by rewrite rotate_by_length in Hi. }
  rewrite rotate_by_lookup in Hi by done. by apply list_elem_of_lookup_2 in Hi.
Qed.

(** *** The shape of the result *)

(** The rotation from the small blind's seat, once the seat is known. *)
Ltac fallback sb :=
  lazy beta iota;
  match goal with
  | |- exists f c, _ /\ match ?x with Some _ => _ | None => _ end = _ =>
      let Hx := fresh "Hx" in
      assert (Hx : is_Some x);
      [ destruct sb as [sb0 |]; [| done]; destruct (truthy sb0); [| done];
        destruct (_ !! sb0); [eauto | done]
      | destruct Hx as [sb_seat ->]; eexists _, _; split; [| reflexivity];
        intros i; reflexivity ]
  end.

(** With at least one dealt player in a seat, the resolver returns the dict
    filled from the table and a rotation of the seat list by a constant
    shift. *)
Lemma seats_result_shape (players : list Player) (dealt_players : gset string)
    (sb dealer : option string) (order : list string) :
  POSITIONS_BY_COUNT (size dealt_players) = Some order ->
  seat_sorted_of players dealt_players <> [] ->
  exists f c, (forall i, f i = (c + i)%Z)
    /\ _assign_positions_from_seats players dealt_players sb dealer
       = Some (assign order (rotate_by f (size dealt_players)
                                       (seat_sorted_of players dealt_players))).
Proof.
  intros Horder Hss. unfold _assign_positions_from_seats.
  destruct (positions_by_count_spec _ _ Horder) as (Hc & Hlen & _ & _).
  assert (Hp : players <> []).
  { intros ->. by apply Hss. }
  assert (Hd : dealt_players <> ∅).
  { intros E. rewrite E, size_empty in Hc. lia. }
  rewrite (bool_decide_eq_false_2 _ Hp), (bool_decide_eq_false_2 _ Hd). cbn [orb].
  rewrite Horder, Hlen, Nat.eqb_refl. cbn [negb].
  fold (seat_sorted_of players dealt_players).
  set (ss := seat_sorted_of players dealt_players) in *.
  assert (Hhead : is_Some (seat <$> head ss)) by (destruct ss; [done | simpl; eauto]).
  destruct dealer as [d |]; [| fallback sb].
  destruct (truthy d && bool_decide (d ∈ dealt_players) && inb "BTN" order);
    [| fallback sb].
  destruct (find_index (fun p => String.eqb (name p) d) ss) as [dealer_idx |];
    [| fallback sb].
  exists (fun i => Z.of_nat dealer_idx - (Z.of_nat (size dealt_players) - 1 - i))%Z,
         (Z.of_nat dealer_idx - (Z.of_nat (size dealt_players) - 1))%Z.
  split; [intros i; lia | reflexivity].
Qed.

(** *** When the resolver fails *)

Lemma seat_sorted_nil (players : list Player) (dealt_players : gset string) :
  seat_sorted_of players dealt_players = [] <->
  forall p, p ∈ players -> name p ∉ dealt_players.
Proof.
  split.
  - intros Hnil p Hp Hd.
    assert (Hin : p ∈ seat_sorted_of players dealt_players).
    { unfold seat_sorted_of. rewrite sorted_by_perm, list_elem_of_In, filter_In.
      rewrite <- list_elem_of_In, bool_decide_eq_true. done. }
    rewrite Hnil in Hin. by apply elem_of_nil in Hin.
  - intros Hall. destruct (seat_sorted_of players dealt_players) as [| q l] eqn:E; [done |].
    assert (Hin : q ∈ seat_sorted_of players dealt_players) by (rewrite E; left).
    unfold seat_sorted_of in Hin.
    rewrite sorted_by_perm, list_elem_of_In, filter_In, <- list_elem_of_In,
      bool_decide_eq_true in Hin.
    destruct Hin as [Hq Hd]. by apply Hall in Hq.
Qed.

(** [_assign_positions_from_seats] raises (the [IndexError] of
    [seat_sorted[0]]) exactly when there are players, the number of dealt names
    is one the table knows (2 to 9), and none of the dealt names belongs to a
    player of the list.  In particular it returns a dict as soon as one dealt
    player is seated. *)
Theorem assign_from_seats_raises_iff (players : list Player) (dealt_players : gset string)
    (sb dealer : option string) :
  _assign_positions_from_seats players dealt_players sb dealer = None <->
  players <> [] /\ (2 <= size dealt_players <= 9)%nat
  /\ forall p, p ∈ players -> name p ∉ dealt_players.
Proof.
  rewrite <- seat_sorted_nil. split.
  - intros Hnone. unfold _assign_positions_from_seats in Hnone.
    destruct (bool_decide (players = [])) eqn:Hp; [discriminate |].
    destruct (bool_decide (dealt_players = ∅)) eqn:Hd; [discriminate |]. cbn [orb] in Hnone.
    apply bool_decide_eq_false in Hp. split; [done |].
    destruct (POSITIONS_BY_COUNT (size dealt_players)) as [order |] eqn:Horder; [| discriminate].
    destruct (positions_by_count_spec _ _ Horder) as (Hc & _). split; [done |].
    destruct (seat_sorted_of players dealt_players) as [| q l] eqn:Hss; [done |]. exfalso.
    destruct (seats_result_shape players dealt_players sb dealer order Horder) as (f & c & _ & Hres).
    { by rewrite Hss. }
    unfold _assign_positions_from_seats in Hres.
    rewrite (bool_decide_eq_false_2 _ Hp), Hd, Horder in Hres. cbn [orb] in Hres.
    rewrite Hres in Hnone. discriminate.
  - intros (Hp & Hc & Hss). unfold _assign_positions_from_seats.
    assert (Hd : dealt_players <> ∅).
    { intros E. rewrite E, size_empty in Hc. lia. }
    rewrite (bool_decide_eq_false_2 _ Hp), (bool_decide_eq_false_2 _ Hd). cbn [orb].
    destruct (positions_by_count_some _ Hc) as [order Horder]. rewrite Horder.
    destruct (positions_by_count_spec _ _ Horder) as (_ & Hlen & _).
    rewrite Hlen, Nat.eqb_refl. cbn [negb].
    fold (seat_sorted_of players dealt_players). rewrite Hss. cbn [find_index head fmap option_fmap option_map foldl].
    destruct dealer as [d |];
      [destruct (truthy d && bool_decide (d ∈ dealt_players) && inb "BTN" order) |];
      destruct sb as [sb0 |]; try reflexivity;
      destruct (truthy sb0); try reflexivity; rewrite lookup_empty; reflexivity.
Qed.

(** *** Every dealt player gets a position *)

(** What the dict filled from a shifted rotation holds, when the dealt players
    are seated under distinct names. *)
Lemma assign_shift_spec (players : list Player) (dealt_players : gset string)
    (order : list string) (f : Z -> Z) (c : Z) :
  NoDup (name <$> players) ->
  (forall p, p ∈ dealt_players -> p ∈ name <$> players) ->
  POSITIONS_BY_COUNT (size dealt_players) = Some order ->
  (forall i, f i = (c + i)%Z) ->
  let ss := seat_sorted_of players dealt_players in
  let mapping := assign order (rotate_by f (size dealt_players) ss) in
  (forall p, p ∈ dealt_players <-> is_Some (mapping !! p))
  /\ (forall p l, mapping !! p = Some l -> l ∈ order)
  /\ (forall p q l, mapping !! p = Some l -> mapping !! q = Some l -> p = q).
Proof.
  intros Hnd Hseated Horder Hf ss.
  destruct (positions_by_count_spec _ _ Horder) as (Hc & Holen & Hond & _).
  assert (Hlen : length ss = size dealt_players) by (by apply seat_sorted_length).
  assert (Hss : ss <> []) by (intros E; rewrite E in Hlen; simpl in Hlen; lia).
  rewrite <- Hlen.
  set (rotation := rotate_by f (length ss) ss) in *.
  assert (Hrlen : length rotation = length ss) by (by apply rotate_by_length).
  assert (Hsnd : (zip order rotation).*2 = rotation) by (apply snd_zip; lia).
  cbv zeta. split; [| split].
  - intros p. split.
    + intros Hp. unfold assign. apply put_is_Some. left. rewrite Hsnd.
      apply (seat_sorted_names players dealt_players Hseated) in Hp.
      apply list_elem_of_fmap in Hp as (q & -> & Hq). apply list_elem_of_fmap.
      exists q. split; [done |]. by apply (shift_reaches f c).
    + intros [l Hl]. unfold assign in Hl. apply put_value in Hl as [Hl | (q & Hq & <-)];
        [by rewrite lookup_empty in Hl |].
      apply elem_of_zip_r, rotation_back in Hq; [| done].
      by apply elem_of_seat_sorted in Hq as [_ ?].
  - intros p l Hl. unfold assign in Hl. apply put_value in Hl as [Hl | (q & Hq & _)];
      [by rewrite lookup_empty in Hl |]. by apply elem_of_zip_l in Hq.
  - intros p q l Hp Hq. unfold assign in Hp, Hq.
    apply put_value in Hp as [Hp | (p' & Hp' & <-)]; [by rewrite lookup_empty in Hp |].
    apply put_value in Hq as [Hq | (q' & Hq' & <-)]; [by rewrite lookup_empty in Hq |].
    f_equal. by eapply zip_fst_inj.
Qed.

Lemma subseteq_seated (players : list Player) (dealt_players : gset string) :
  dealt_players ⊆ list_to_set (name <$> players) ->
  forall p, p ∈ dealt_players -> p ∈ name <$> players.
Proof. intros Hsub p Hp. apply Hsub in Hp. by rewrite elem_of_list_to_set in Hp. Qed.

(** With two to nine dealt players, all seated under distinct names, the
    resolver gives every dealt player a position of the table for that number
    of players, nobody else gets one, and no position is given twice:
    whatever the small blind and the dealer marker are. *)
Theorem assign_from_seats_total (players : list Player) (dealt_players : gset string)
    (sb dealer : option string) :
  (2 <= size dealt_players <= 9)%nat ->
  NoDup (name <$> players) ->
  dealt_players ⊆ list_to_set (name <$> players) ->
  exists mapping order,
    _assign_positions_from_seats players dealt_players sb dealer = Some mapping
    /\ POSITIONS_BY_COUNT (size dealt_players) = Some order
    /\ (forall p, p ∈ dealt_players <-> is_Some (mapping !! p))
    /\ (forall p l, mapping !! p = Some l -> l ∈ order)
    /\ (forall p q l, mapping !! p = Some l -> mapping !! q = Some l -> p = q).
Proof.
  intros Hc Hnd Hsub. pose proof (subseteq_seated _ _ Hsub) as Hseated.
  destruct (positions_by_count_some _ Hc) as [order Horder].
  assert (Hlen : length (seat_sorted_of players dealt_players) = size dealt_players)
    by (by apply seat_sorted_length).
  assert (Hss : seat_sorted_of players dealt_players <> [])
    by (intros E; rewrite E in Hlen; simpl in Hlen; lia).
  destruct (seats_result_shape players dealt_players sb dealer order Horder Hss)
    as (f & c & Hf & Hres).
  eexists _, order. split; [exact Hres |]. split; [done |].
  by apply (assign_shift_spec players dealt_players order f c).
Qed.

Lemma assign_from_seats_total_witness :
  exists mapping order,
    _assign_positions_from_seats
      [mkPlayer "A" 2 false; mkPlayer "B" 5 false; mkPlayer "C" 9 false; mkPlayer "D" 7 false]
      {["A"; "B"; "C"]} (Some "C") None = Some mapping
    /\ POSITIONS_BY_COUNT 3 = Some order
    /\ mapping !! "C" = Some "SB" /\ mapping !! "A" = Some "BB" /\ mapping !! "B" = Some "BTN"
    /\ mapping !! "D" = None.
Proof.
  destruct (assign_from_seats_total
              [mkPlayer "A" 2 false; mkPlayer "B" 5 false; mkPlayer "C" 9 false;
               mkPlayer "D" 7 false]
              {["A"; "B"; "C"]} (Some "C") None)
    as (mapping & order & Hm & Ho & _).
  - vm_compute. lia.
  - compute_done.
  - compute_done.
  - exists mapping, order. split; [exact Hm |].
    vm_compute in Hm. injection Hm as <-. vm_compute in Ho. injection Ho as <-.
    repeat split; reflexivity.
Defined.

(** *** Who is the small blind *)

Lemma foldl_insert_notin (l : list Player) (m : gmap string Player) (k : string) :
  k ∉ name <$> l -> foldl (fun m p => <[name p := p]> m) m l !! k = m !! k.
Proof.
  revert m. induction l as [| x l IH]; intros m Hk; [done |].
  rewrite fmap_cons, not_elem_of_cons in Hk. destruct Hk as [Hne Hk].
  cbn [foldl]. rewrite IH by done. by rewrite lookup_insert_ne.
Qed.

(** [name_to_player] finds a player of the seat list under its name. *)
Lemma name_to_player_lookup (l : list Player) (m : gmap string Player) (p : Player) :
  NoDup (name <$> l) -> p ∈ l -> foldl (fun m p => <[name p := p]> m) m l !! name p = Some p.
Proof.
  revert m. induction l as [| x l IH]; intros m Hnd Hp; [by apply elem_of_nil in Hp |].
  rewrite fmap_cons in Hnd. apply NoDup_cons in Hnd as [Hx Hnd]. cbn [foldl].
  apply elem_of_cons in Hp as [-> | Hp]; [| by apply IH].
  rewrite foldl_insert_notin by done. apply lookup_insert_eq.
Qed.

Lemma NoDup_fmap_eq {A B} (f : A -> B) (l : list A) (x y : A) :
  NoDup (f <$> l) -> x ∈ l -> y ∈ l -> f x = f y -> x = y.
Proof.
  intros Hnd [i Hi]%list_elem_of_lookup_1 [j Hj]%list_elem_of_lookup_1 Hf.
  assert (i = j).
  { eapply NoDup_lookup; [exact Hnd | |]; rewrite list_lookup_fmap.
    - by rewrite Hi.
    - rewrite Hj. simpl. by rewrite Hf. }
  subst j. congruence.
Qed.

Lemma shift_mod_zero (n i k : Z) :
  (0 <= i < n -> 0 <= k < n -> (i + k) mod n = i -> k = 0)%Z.
Proof.
  intros Hi Hk Hmod. destruct (Z_lt_dec (i + k) n) as [Hlt | Hge].
  - rewrite Z.mod_small in Hmod by lia. lia.
  - assert (Heq : (i + k - n = (i + k) mod n)%Z).
    { apply (Z.mod_unique_pos _ _ 1); lia. }
    lia.
Qed.

(** When the dealer rotation is not used (no dealer marker, or a heads-up
    hand) and the players sit in distinct seats, the player who posted the
    small blind is SB. *)
Theorem small_blind_is_sb (players : list Player) (dealt_players : gset string)
    (sb : string) (dealer : option string) :
  (2 <= size dealt_players <= 9)%nat ->
  NoDup (name <$> players) -> NoDup (seat <$> players) ->
  dealt_players ⊆ list_to_set (name <$> players) ->
  sb ∈ dealt_players -> sb <> "" ->
  dealer = None \/ size dealt_players = 2%nat ->
  exists mapping,
    _assign_positions_from_seats players dealt_players (Some sb) dealer = Some mapping
    /\ mapping !! sb = Some "SB".
Proof.
  intros Hc Hnd Hseats Hsub Hsb Hne Hdealer.
  pose proof (subseteq_seated _ _ Hsub) as Hseated.
  destruct (positions_by_count_some _ Hc) as [order Horder].
  destruct (positions_by_count_spec _ _ Horder) as (_ & Holen & Hond & rest & Hrest).
  set (ss := seat_sorted_of players dealt_players).
  assert (Hlen : length ss = size dealt_players) by (by apply seat_sorted_length).
  assert (Hss : ss <> []) by (intros E; rewrite E in Hlen; simpl in Hlen; lia).
  assert (Hssnd : NoDup (name <$> ss)) by (by apply seat_sorted_NoDup).
  assert (Hssseat : NoDup (seat <$> ss)).
  { unfold ss, seat_sorted_of. rewrite sorted_by_perm. by apply NoDup_fmap_List_filter. }
  (* the small blind in the seat list *)
  pose proof (proj2 (seat_sorted_names players dealt_players Hseated sb) Hsb) as Hin.
  apply list_elem_of_fmap in Hin as (p & Hname & Hp). fold ss in Hp.
  pose proof (name_to_player_lookup ss ∅ p Hssnd Hp) as Hlook. rewrite <- Hname in Hlook.
  destruct (find_index_is_Some (fun q => (seat q =? seat p)%Z) ss p Hp (Z.eqb_refl _))
    as [start Hstart].
  destruct (find_index_Some _ _ _ Hstart) as (q & Hq & Hqs). apply Z.eqb_eq in Hqs.
  assert (q = p).
  { apply (NoDup_fmap_eq seat ss); try done. by apply list_elem_of_lookup_2 in Hq. }
  subst q. pose proof (lookup_lt_Some _ _ _ Hq) as Hslt.
  (* the branch taken *)
  assert (Hp0 : players <> []).
  { intros E. apply elem_of_seat_sorted in Hp as [Hp _]. rewrite E in Hp.
    by apply elem_of_nil in Hp. }
  assert (Hd0 : dealt_players <> ∅).
  { intros E. rewrite E, size_empty in Hc. lia. }
  set (f := (fun i => Z.of_nat start + i)%Z).
  assert (Hres : _assign_positions_from_seats players dealt_players (Some sb) dealer
                 = Some (assign order (rotate_by f (size dealt_players) ss))).
  { unfold _assign_positions_from_seats.
    rewrite (bool_decide_eq_false_2 _ Hp0), (bool_decide_eq_false_2 _ Hd0). cbn [orb].
    rewrite Horder, Holen, Nat.eqb_refl. cbn [negb].
    fold (seat_sorted_of players dealt_players). fold ss.
    assert (Hby : match dealer with
                  | Some d =>
                      if truthy d && bool_decide (d ∈ dealt_players) && inb "BTN" order
                      then match find_index (fun p => String.eqb (name p) d) ss with
                           | Some dealer_idx =>
                               Some (assign order
                                       (rotate_by (fun i => Z.of_nat dealer_idx
                                                            - (Z.of_nat (size dealt_players) - 1 - i))%Z
                                                  (size dealt_players) ss))
                           | None => None
                           end
                      else None
                  | None => None
                  end = None).
    { destruct Hdealer as [-> | H2]; [done |]. destruct dealer as [d |]; [| done].
      rewrite H2 in Horder. injection Horder as <-.
      replace (inb "BTN" ["SB"; "BB"]) with false by reflexivity.
      by rewrite andb_false_r. }
    rewrite Hby. rewrite (truthy_ne _ Hne), Hlook. cbn [default].
    rewrite Hstart. reflexivity. }
  eexists. split; [exact Hres |].
  destruct (assign_shift_spec players dealt_players order f (Z.of_nat start) Hnd Hseated Horder
              ltac:(done)) as (Hdom & _ & _).
  fold ss in Hdom. destruct (proj1 (Hdom sb) Hsb) as [l Hl]. rewrite Hl. f_equal.
  unfold assign in Hl. apply put_value in Hl as [Hl | (q & Hq' & Hqn)];
    [by rewrite lookup_empty in Hl |].
  apply list_elem_of_lookup_1 in Hq' as [k Hk]. apply lookup_zip_Some in Hk as [Hko Hkr].
  assert (Hklt : (k < size dealt_players)%nat).
  { apply lookup_lt_Some in Hko. lia. }
  rewrite rotate_by_lookup in Hkr by done.
  assert (q = p).
  { apply (NoDup_fmap_eq name ss); try done; [| congruence].
    by apply list_elem_of_lookup_2 in Hkr. }
  subst q.
  assert (Hidx : Z.to_nat (f (Z.of_nat k) mod Z.of_nat (length ss)) = start).
  { eapply NoDup_lookup; [apply (NoDup_fmap_1 name), Hssnd | exact Hkr | exact Hq]. }
  assert (k = 0)%nat.
  { pose proof (Z.mod_pos_bound (f (Z.of_nat k)) (Z.of_nat (length ss)) ltac:(lia)) as Hb.
    assert (Hz : (f (Z.of_nat k) mod Z.of_nat (length ss) = Z.of_nat start)%Z) by lia.
    unfold f in Hz. apply shift_mod_zero in Hz; lia. }
  subst k. rewrite Hrest in Hko. simpl in Hko. congruence.
Qed.

Lemma small_blind_is_sb_witness :
  exists mapping,
    _assign_positions_from_seats
      [mkPlayer "A" 2 false; mkPlayer "B" 5 false; mkPlayer "C" 9 false]
      {["A"; "B"; "C"]} (Some "B") None = Some mapping
    /\ mapping !! "B" = Some "SB".
Proof.
  apply (small_blind_is_sb
           [mkPlayer "A" 2 false; mkPlayer "B" 5 false; mkPlayer "C" 9 false]
           {["A"; "B"; "C"]} "B" None).
  - vm_compute. lia.
  - compute_done.
  - compute_done.
  - compute_done.
  - compute_done.
  - done.
  - by left.
Defined.

End SeatRotationFacts.

(** ** opponent_performance.py: the action resolver *)

Module ActionOrderFacts.
Import Py OpponentPerformance PositionFacts SeatRotationFacts.

(** *** The dict filled from the acting order *)

Abbreviation put_name := (fun (m : gmap string string) '(p, position_label) =>
                            <[p := position_label]> m).

Lemma put_name_value (pairs : list (string * string)) (m : gmap string string) (k v : string) :
  foldl put_name m pairs !! k = Some v -> m !! k = Some v \/ (k, v) ∈ pairs.
Proof.
  revert m. induction pairs as [| [p l] pairs IH]; intros m H; [by left |].
  cbn [foldl] in H. apply IH in H as [H | H]; [| right; by right].
  destruct (decide (k = p)) as [-> | Hne].
  - rewrite lookup_insert_eq in H. inversion H; subst. right. left.
  - rewrite lookup_insert_ne in H by done. by left.
Qed.

Lemma put_name_notin (pairs : list (string * string)) (m : gmap string string) (k : string) :
  k ∉ pairs.*1 -> foldl put_name m pairs !! k = m !! k.
Proof.
  revert m. induction pairs as [| [p l] pairs IH]; intros m Hk; [done |].
  rewrite fmap_cons, not_elem_of_cons in Hk. destruct Hk as [Hne Hk]. cbn [fst] in Hne.
  cbn [foldl]. rewrite IH by done. by rewrite lookup_insert_ne.
Qed.

Lemma zip_snd_inj {A B} (l1 : list A) (l2 : list B) (a1 a2 : A) (b : B) :
  NoDup l2 -> (a1, b) ∈ zip l1 l2 -> (a2, b) ∈ zip l1 l2 -> a1 = a2.
Proof.
  intros Hnd [i Hi]%list_elem_of_lookup_1 [j Hj]%list_elem_of_lookup_1.
  apply lookup_zip_Some in Hi as [Hi1 Hi2]. apply lookup_zip_Some in Hj as [Hj1 Hj2].
  assert (i = j) by (eapply NoDup_lookup; eauto). subst j. congruence.
Qed.

Lemma elem_of_zip_fst {A B} (l1 : list A) (l2 : list B) (a : A) :
  a ∈ (zip l1 l2).*1 -> a ∈ l1.
Proof.
  intros ([x y] & -> & Hin)%list_elem_of_fmap. by apply elem_of_zip_l in Hin.
Qed.

(** What [_assign_positions_from_actions] returns: the blinds get SB and BB,
    the other dealt players get the remaining positions of the table in the
    order in which they first act.  Every key is a dealt player and every
    label a position of the table; only the player who posted the small blind
    can be SB, so with a dead small blind nobody is; the big blind, when dealt,
    is BB; and no position is given to two players. *)
Theorem assign_from_actions_sound
    (dealt_players : gset string) (sb bb : option string) (acting_order : list string) :
  let m := _assign_positions_from_actions dealt_players sb bb acting_order in
  (forall p l, m !! p = Some l ->
     p ∈ dealt_players
     /\ exists order, POSITIONS_BY_COUNT (size dealt_players) = Some order /\ l ∈ order)
  /\ (forall p, m !! p = Some "SB" -> sb = Some p)
  /\ (forall b, bb = Some b -> b <> "" -> b ∈ dealt_players ->
      (2 <= size dealt_players <= 9)%nat -> m !! b = Some "BB")
  /\ (forall p q l, m !! p = Some l -> m !! q = Some l -> p = q).
Proof.
  cbv zeta. unfold _assign_positions_from_actions.
  destruct (POSITIONS_BY_COUNT (size dealt_players)) as [order |] eqn:Horder.
  2:{ repeat split.
      - by rewrite lookup_empty in H.
      - by rewrite lookup_empty in H.
      - intros p Hp. by rewrite lookup_empty in Hp.
      - intros b _ _ _ Hc. destruct (positions_by_count_some _ Hc) as [? ?]. congruence.
      - intros p q l Hp. by rewrite lookup_empty in Hp. }
  destruct (positions_by_count_spec _ _ Horder) as (Hc & _ & Hond & rest & ->).
  assert (H1 : (1 <=? size dealt_players)%nat = true) by (apply Nat.leb_le; lia).
  assert (H2 : (2 <=? size dealt_players)%nat = true) by (apply Nat.leb_le; lia).
  cbv zeta. rewrite H1, H2.
  change (("SB" :: "BB" :: rest) !! 0%nat) with (Some "SB").
  change (("SB" :: "BB" :: rest) !! 1%nat) with (Some "BB").
  change (drop 2 ("SB" :: "BB" :: rest)) with rest.
  apply NoDup_cons in Hond as [Hsbn Hond]. apply NoDup_cons in Hond as [Hbbn Hrest].
  rewrite not_elem_of_cons in Hsbn. destruct Hsbn as [_ Hsbn].
  set (dealt := fun n : option string =>
                  match n with
                  | Some x => if truthy x && bool_decide (x ∈ dealt_players) then Some x else None
                  | None => None
                  end).
  assert (Hdealt : forall n x, dealt n = Some x -> n = Some x /\ x ∈ dealt_players).
  { intros [y |] x; [| discriminate]. unfold dealt.
    destruct (truthy y && bool_decide (y ∈ dealt_players)) eqn:E; [| discriminate].
    intros [= <-]. apply andb_true_iff in E as [_ E]. by apply bool_decide_eq_true in E. }
  set (m0 := match dealt sb with Some sb0 => {[sb0 := "SB"]} | None => (∅ : gmap string string) end).
  set (m1 := match dealt bb with Some bb0 => <[bb0 := "BB"]> m0 | None => m0 end).
  set (rem := List.filter (fun n => bool_decide (n ∈ dealt_players)
                                    && negb (bool_decide (is_Some (m1 !! n)))) acting_order).
  assert (F0 : forall p l, m0 !! p = Some l -> l = "SB" /\ sb = Some p /\ p ∈ dealt_players).
  { intros p l. unfold m0. destruct (dealt sb) as [s |] eqn:Es.
    - intros [<- <-]%lookup_singleton_Some. by apply Hdealt in Es as [? ?].
    - by rewrite lookup_empty. }
  assert (F1 : forall p l, m1 !! p = Some l ->
                 (l = "SB" /\ sb = Some p /\ p ∈ dealt_players)
                 \/ (l = "BB" /\ bb = Some p /\ p ∈ dealt_players)).
  { intros p l. unfold m1. destruct (dealt bb) as [b |] eqn:Eb.
    - intros [[<- <-] | [_ H]]%lookup_insert_Some.
      + right. by apply Hdealt in Eb as [? ?].
      + left. by apply F0.
    - intros H. left. by apply F0. }
  assert (R : forall p, p ∈ rem -> p ∈ dealt_players /\ m1 !! p = None /\ p ∈ acting_order).
  { intros p Hp. unfold rem in Hp. apply list_elem_of_In, filter_In in Hp as [Hin Hf].
    apply andb_true_iff in Hf as [Hd Hn]. apply bool_decide_eq_true in Hd.
    apply negb_true_iff, bool_decide_eq_false in Hn.
    split; [done |]. split; [| by apply list_elem_of_In].
    destruct (m1 !! p) eqn:E; [| done]. exfalso. apply Hn. eauto. }
  assert (Hcases : forall p l, foldl put_name m1 (zip rem rest) !! p = Some l ->
                     (m1 !! p = Some l /\ (l = "SB" \/ l = "BB"))
                     \/ ((p, l) ∈ zip rem rest /\ l ∈ rest /\ p ∈ rem)).
  { intros p l H. apply put_name_value in H as [H | H].
    - left. split; [done |]. apply F1 in H as [[? _] | [? _]]; auto.
    - right. split; [done |]. split; [by apply elem_of_zip_r in H | by apply elem_of_zip_l in H]. }
  split; [| split; [| split]].
  - intros p l H. apply Hcases in H as [[H Hl] | (H & Hl & Hp)].
    + split.
      * apply F1 in H as [(_ & _ & ?) | (_ & _ & ?)]; done.
      * eexists. split; [reflexivity |].
        destruct Hl as [-> | ->]; [left | right; left].
    + split; [by apply R in Hp as [? _] |]. eexists. split; [reflexivity |].
      by do 2 right.
  - intros p H. apply Hcases in H as [[H _] | (_ & Hl & _)]; [| done].
    apply F1 in H as [(_ & ? & _) | (? & _)]; [done | discriminate].
  - intros b -> Hne Hb _.
    assert (Hm1 : m1 !! b = Some "BB").
    { unfold m1, dealt. rewrite (truthy_ne _ Hne), (bool_decide_eq_true_2 _ Hb). cbn [andb].
      apply lookup_insert_eq. }
    rewrite put_name_notin; [done |]. intros Hin%elem_of_zip_fst.
    apply R in Hin as (_ & Hnone & _). congruence.
  - intros p q l Hp Hq.
    apply Hcases in Hp as [[Hp Hlp] | (Hp & Hlp & _)];
      apply Hcases in Hq as [[Hq Hlq] | (Hq & Hlq & _)].
    + apply F1 in Hp as [(-> & Hp & _) | (-> & Hp & _)];
        apply F1 in Hq as [(E & Hq & _) | (E & Hq & _)]; try discriminate E; congruence.
    + exfalso. destruct Hlp as [-> | ->]; done.
    + exfalso. destruct Hlq as [-> | ->]; done.
    + exact (zip_snd_inj rem rest p q l Hrest Hp Hq).
Qed.

End ActionOrderFacts.

(** ** opponent_performance.py: preflop flags, counters and the hero's position *)

Module OpponentStatsFacts.
Import Py OpponentPerformance OpponentStats PositionFacts SeatRotationFacts.

(** *** The preflop flags *)

Definition is_hero (hero_name : string) (a : PreflopAction) : Prop :=
  pa_player a = Some hero_name.

Definition is_raise (a : PreflopAction) : bool := inb (default "" (pa_type a)) RAISE_TYPES.
Definition is_voluntary (a : PreflopAction) : bool :=
  inb (default "" (pa_type a)) VOLUNTARY_TYPES.

(** The raises among some actions, by anyone. *)
Definition raises (l : list PreflopAction) : nat := length (List.filter is_raise l).

(** Some action of the list is by the hero and satisfies [P], which may look
    at the actions before it. *)
Definition hero_acts (hero_name : string) (P : list PreflopAction -> PreflopAction -> Prop)
    (l : list PreflopAction) : Prop :=
  exists pre a post, l = pre ++ a :: post /\ is_hero hero_name a /\ P pre a.

Lemma hero_acts_snoc (hero_name : string) (P : list PreflopAction -> PreflopAction -> Prop)
    (l : list PreflopAction) (x : PreflopAction) :
  hero_acts hero_name P (l ++ [x])
  <-> hero_acts hero_name P l \/ (is_hero hero_name x /\ P l x).
Proof.
  split.
  - intros (pre & a & post & Heq & Hh & HP).
    destruct post as [| y post _] using rev_ind.
    + apply app_inj_tail in Heq as [-> ->]. by right.
    + rewrite app_comm_cons, app_assoc in Heq. apply app_inj_tail in Heq as [-> ->].
      left. by exists pre, a, post.
  - intros [(pre & a & post & -> & Hh & HP) | [Hh HP]].
    + exists pre, a, (post ++ [x]). by rewrite <- app_assoc.
    + by exists l, x, [].
Qed.

Lemma hero_acts_nil (hero_name : string) (P : list PreflopAction -> PreflopAction -> Prop) :
  ~ hero_acts hero_name P [].
Proof. intros (pre & a & post & Heq & _). by destruct pre. Qed.

Lemma raises_snoc (l : list PreflopAction) (x : PreflopAction) :
  raises (l ++ [x]) = (if is_raise x then S (raises l) else raises l).
Proof.
  unfold raises. rewrite List.filter_app, length_app. simpl.
  destruct (is_raise x); simpl; lia.
Qed.

(** The state of the loop of [_evaluate_preflop] after the actions [l]. *)
Lemma evaluate_preflop_state (hero_name : string) (l : list PreflopAction) :
  let st := foldl (preflop_step hero_name) (mkFlags false false false false, 0%nat) l in
  st.2 = raises l
  /\ (vpip st.1 = true <-> hero_acts hero_name (fun _ a => is_voluntary a = true) l)
  /\ (pfr st.1 = true <-> hero_acts hero_name (fun _ a => is_raise a = true) l)
  /\ (three_bet st.1 = true
      <-> hero_acts hero_name (fun pre a => is_raise a = true /\ (1 <= raises pre)%nat) l)
  /\ (three_bet_opportunity st.1 = true
      <-> hero_acts hero_name (fun pre _ => (1 <= raises pre)%nat) l).
Proof.
  induction l as [| x l IH] using rev_ind.
  - cbv zeta. simpl. repeat split; try done; intros H; by apply hero_acts_nil in H.
  - cbv zeta in *. rewrite foldl_app. cbn [foldl].
    destruct (foldl (preflop_step hero_name) (mkFlags false false false false, 0%nat) l)
      as [fl rc]. cbn [fst snd] in IH. destruct IH as (Hrc & Hv & Hp & Ht & Ho). subst rc.
    unfold preflop_step. cbv zeta. rewrite raises_snoc, !hero_acts_snoc.
    fold (is_raise x) (is_voluntary x). unfold is_hero.
    rewrite <- Hv, <- Hp, <- Ht, <- Ho. clear Hv Hp Ht Ho.
    case_bool_decide as Hh; cbn [fst snd vpip pfr three_bet three_bet_opportunity].
    + split; [done |].
      destruct (is_voluntary x), (is_raise x), (Nat.leb_spec 1 (raises l)) as [Hr | Hr];
        cbn [andb];
        repeat split; intros; try done; try tauto; try (right; done);
        try (right; repeat split; done);
        try (match goal with H : _ \/ _ |- _ => destruct H as [? | ?] end;
             [done | exfalso; intuition (done || lia)]).
    + split; [done |]. repeat split; intros; try tauto.
Qed.

Lemma evaluate_preflop_implies (actions : list PreflopAction) (hero_name : string) :
  let f := _evaluate_preflop actions hero_name in
  (three_bet f = true -> pfr f = true /\ three_bet_opportunity f = true)
  /\ (pfr f = true -> vpip f = true).
Proof.
  cbv zeta. unfold _evaluate_preflop.
  destruct (evaluate_preflop_state hero_name actions) as (_ & Hv & Hp & Ht & Ho). split.
  - rewrite Ht, Hp, Ho. intros (pre & a & post & Heq & Hh & Hr & Hb). split.
    + by exists pre, a, post.
    + by exists pre, a, post.
  - rewrite Hp, Hv. intros (pre & a & post & Heq & Hh & Hr). exists pre, a, post.
    split; [done |]. split; [done |]. unfold is_voluntary, is_raise, VOLUNTARY_TYPES in *.
    apply bool_decide_eq_true. apply bool_decide_eq_true in Hr. apply elem_of_app. by right.
Qed.

(** The flags of [_evaluate_preflop].  A three-bet is a raise of the hero
    after at least one earlier raise (by anyone, the hero included), an
    opportunity is any action of the hero after a raise; so a three-bet is
    always a preflop raise and an opportunity taken, a preflop raise is always
    voluntary money in the pot, and a hero who never acts has no flag set. *)
Theorem evaluate_preflop_flags (actions : list PreflopAction) (hero_name : string) :
  let f := _evaluate_preflop actions hero_name in
  (three_bet f = true
   <-> hero_acts hero_name (fun pre a => is_raise a = true /\ (1 <= raises pre)%nat) actions)
  /\ (three_bet_opportunity f = true
      <-> hero_acts hero_name (fun pre _ => (1 <= raises pre)%nat) actions)
  /\ (three_bet f = true -> pfr f = true /\ three_bet_opportunity f = true)
  /\ (pfr f = true -> vpip f = true)
  /\ ((forall a, a ∈ actions -> pa_player a <> Some hero_name) ->
      f = mkFlags false false false false).
Proof.
  cbv zeta. unfold _evaluate_preflop.
  destruct (evaluate_preflop_state hero_name actions) as (_ & Hv & Hp & Ht & Ho).
  split; [done |]. split; [done |].
  destruct (evaluate_preflop_implies actions hero_name) as [H3 H4].
  split; [exact H3 |]. split; [exact H4 |].
  intros Hnever.
    assert (Hno : forall P, ~ hero_acts hero_name P actions).
    { intros P (pre & a & post & -> & Hh & _). apply (Hnever a); [| done].
      apply elem_of_app. right. left. }
    destruct (foldl (preflop_step hero_name) (mkFlags false false false false, 0%nat) actions).1
      as [v p t o]. cbn [vpip pfr three_bet three_bet_opportunity] in *.
    destruct v; [exfalso; eapply Hno; by apply Hv |].
    destruct p; [exfalso; eapply Hno; by apply Hp |].
    destruct t; [exfalso; eapply Hno; by apply Ht |].
    destruct o; [exfalso; eapply Hno; by apply Ho |]. done.
Qed.

(** *** The counters *)

(** The flags of a kept hand are those [_evaluate_preflop] computed. *)
Definition flags_evaluated (p : Parsed) : Prop :=
  exists actions hero_name, p_flags p = _evaluate_preflop actions hero_name.

Definition counters_ok (acc : Accumulator) : Prop :=
  (three_bet_hands acc <= three_bet_opportunities acc <= hand_count acc)%nat
  /\ (pfr_hands acc <= vpip_hands acc <= hand_count acc)%nat
  /\ (pot_samples acc <= hand_count acc)%nat.

Lemma record_parsed_ok (acc : Accumulator) (p : Parsed) :
  flags_evaluated p -> counters_ok acc -> counters_ok (record_parsed acc p).
Proof.
  intros (actions & hero_name & Hf) (H1 & H2 & H3).
  pose proof (evaluate_preflop_implies actions hero_name) as [Ht Hp]. cbv zeta in Ht, Hp.
  rewrite <- Hf in Ht, Hp. unfold counters_ok, record_parsed, record, bump.
  cbn [hand_count three_bet_hands three_bet_opportunities pfr_hands vpip_hands pot_samples].
  destruct (three_bet (p_flags p)), (pfr (p_flags p)), (vpip (p_flags p)),
    (three_bet_opportunity (p_flags p)), (Qpos (p_pot_bb p));
    try (destruct Ht as [? ?]; [done |]); try (specialize (Hp eq_refl));
    try discriminate; lia.
Qed.

(** [overall[n]] and [by_position[n][pos]], read as the [defaultdict]s do. *)
Definition overall_at (t : Totals) (n : nat) : Accumulator :=
  default new_accumulator (overall t !! n).

Definition position_at (t : Totals) (n : nat) (pos : string) : Accumulator :=
  default new_accumulator (default ∅ (by_position t !! n) !! pos).

Lemma overall_at_step (t : Totals) (p : Parsed) (n : nat) :
  overall_at (accumulate_step t p) n
  = if decide (n = opponents p) then record_parsed (overall_at t n) p else overall_at t n.
Proof.
  unfold overall_at, accumulate_step. cbn [overall]. destruct (decide (n = opponents p)) as [-> | Hne].
  - by rewrite lookup_insert_eq.
  - by rewrite lookup_insert_ne.
Qed.

Lemma position_at_step (t : Totals) (p : Parsed) (n : nat) (pos : string) :
  position_at (accumulate_step t p) n pos
  = if decide (n = opponents p /\ pos = position p)
    then record_parsed (position_at t n pos) p else position_at t n pos.
Proof.
  unfold position_at, accumulate_step. cbn [by_position].
  destruct (decide (n = opponents p)) as [-> | Hne].
  - rewrite lookup_insert_eq. cbn [from_option]. cbv beta delta [id].
    destruct (decide (pos = position p)) as [-> | Hne].
    + rewrite lookup_insert_eq. rewrite decide_True by done. reflexivity.
    + rewrite lookup_insert_ne by done. rewrite decide_False by tauto. reflexivity.
  - rewrite lookup_insert_ne by done. rewrite decide_False by tauto. done.
Qed.

Definition hands_at (n : nat) (parsed : list Parsed) : list Parsed :=
  List.filter (fun p => bool_decide (opponents p = n)) parsed.

Definition hands_in (n : nat) (pos : string) (parsed : list Parsed) : list Parsed :=
  List.filter (fun p => bool_decide (opponents p = n /\ position p = pos)) parsed.

Lemma accumulate_snoc (parsed : list Parsed) (p : Parsed) :
  accumulate (parsed ++ [p]) = accumulate_step (accumulate parsed) p.
Proof. unfold accumulate. by rewrite foldl_app. Qed.

(** The two dicts of [get_opponent_count_performance] count the same hands:
    the accumulator of a table size has recorded the kept hands of that size,
    the accumulator of a position at that size those of them played from the
    position.  When the flags are those of [_evaluate_preflop], no accumulator
    ever holds more three-bets than opportunities, more preflop raises than
    voluntary hands, or more of either than hands. *)
Theorem accumulate_counts (parsed : list Parsed) (n : nat) (pos : string) :
  let t := accumulate parsed in
  hand_count (overall_at t n) = length (hands_at n parsed)
  /\ hand_count (position_at t n pos) = length (hands_in n pos parsed)
  /\ (Forall flags_evaluated parsed ->
      counters_ok (overall_at t n) /\ counters_ok (position_at t n pos)).
Proof.
  cbv zeta. induction parsed as [| p parsed IH] using rev_ind.
  - split; [done |]. split; [done |]. intros _.
    unfold overall_at, position_at, accumulate. simpl. rewrite !lookup_empty. simpl.
    rewrite lookup_empty. simpl. unfold counters_ok. simpl. lia.
  - destruct IH as (IH1 & IH2 & IH3).
    rewrite accumulate_snoc, overall_at_step, position_at_step.
    unfold hands_at, hands_in in *. rewrite !List.filter_app, !length_app. cbn [List.filter].
    split; [| split].
    + destruct (decide (n = opponents p)) as [-> | Hne].
      * rewrite bool_decide_eq_true_2 by done. cbn [record_parsed record hand_count length].
        rewrite IH1. lia.
      * rewrite bool_decide_eq_false_2 by done. simpl. rewrite IH1. lia.
    + destruct (decide (n = opponents p /\ pos = position p)) as [[-> ->] | Hne].
      * rewrite bool_decide_eq_true_2 by done. cbn [record_parsed record hand_count length].
        rewrite IH2. lia.
      * rewrite bool_decide_eq_false_2 by (intros [? ?]; apply Hne; done).
        simpl. rewrite IH2. lia.
    + intros [Hall Hp]%Forall_app. rewrite Forall_singleton in Hp.
      destruct (IH3 Hall) as [Ho Hb]. split.
      * destruct (decide (n = opponents p)); [by apply record_parsed_ok | done].
      * destruct (decide (n = opponents p /\ pos = position p));
          [by apply record_parsed_ok | done].
Qed.

(** *** The position of the hero *)

Lemma positions_no_unknown (count : nat) (order : list string) :
  POSITIONS_BY_COUNT count = Some order -> "UNKNOWN" ∉ order.
Proof.
  do 10 (try (destruct count as [| count]; try discriminate)); intros [= <-]; compute_done.
Qed.

Lemma positions_by_count_none (count : nat) :
  ~ (2 <= count <= 9)%nat -> POSITIONS_BY_COUNT count = None.
Proof.
  intros H. destruct (POSITIONS_BY_COUNT count) as [order |] eqn:E; [| done].
  apply positions_by_count_spec in E as [? _]. done.
Qed.

(** A hero who was dealt in, at a table where the dealt players sit under
    distinct names, gets a position of the table for that number of players
    when two to nine players were dealt, and ['UNKNOWN'] for any other
    number; the resolver does not raise. *)
Theorem hero_position_known (players : list Player) (dealt_players : gset string)
    (sb bb : option string) (acting_order : list string) (dealer : option string)
    (hero_name : string) :
  NoDup (name <$> players) ->
  dealt_players ⊆ list_to_set (name <$> players) ->
  hero_name ∈ dealt_players ->
  exists l,
    _parse_game_position players dealt_players sb bb acting_order dealer hero_name = Some l
    /\ (l = "UNKNOWN" <-> ~ (2 <= size dealt_players <= 9)%nat)
    /\ forall order, POSITIONS_BY_COUNT (size dealt_players) = Some order -> l ∈ order.
Proof.
  intros Hnd Hsub Hhero. pose proof (subseteq_seated _ _ Hsub) as Hseated.
  unfold _parse_game_position.
  destruct (decide (2 <= size dealt_players <= 9)%nat) as [Hc | Hc].
  - destruct (positions_by_count_some _ Hc) as [order Horder].
    assert (Hlen : length (seat_sorted_of players dealt_players) = size dealt_players)
      by (by apply seat_sorted_length).
    assert (Hss : seat_sorted_of players dealt_players <> [])
      by (intros E; rewrite E in Hlen; simpl in Hlen; lia).
    destruct (seats_result_shape players dealt_players sb dealer order Horder Hss)
      as (f & c & Hf & ->).
    destruct (assign_shift_spec players dealt_players order f c Hnd Hseated Horder Hf)
      as (Hdom & Hlab & _).
    destruct (proj1 (Hdom hero_name) Hhero) as [l Hl].
    rewrite bool_decide_eq_true_2 by eauto. rewrite Hl. cbn [default].
    exists l. split; [done |]. pose proof (Hlab _ _ Hl) as Hin. split.
    + split; [| done]. intros ->. by apply positions_no_unknown in Horder.
    + intros order' Ho. congruence.
  - pose proof (positions_by_count_none _ Hc) as Hnone.
    assert (Hseats : _assign_positions_from_seats players dealt_players sb dealer = Some ∅).
    { unfold _assign_positions_from_seats. rewrite Hnone.
      by destruct (bool_decide (players = []) || bool_decide (dealt_players = ∅)). }
    rewrite Hseats, lookup_empty.
    rewrite bool_decide_eq_false_2 by (intros [? ?]; done).
    unfold _assign_positions_from_actions. rewrite Hnone, lookup_empty. cbn [default].
    exists "UNKNOWN". split; [done |]. split; [done |]. intros order Ho. congruence.
Qed.

Lemma hero_position_known_witness :
  _parse_game_position
    [mkPlayer "Hero" 3 false; mkPlayer "V1" 1 true; mkPlayer "V2" 6 false]
    {["Hero"; "V1"; "V2"]} None (Some "Hero") ["V1"; "V2"; "Hero"] (Some "V1") "Hero"
  = Some "SB".
Proof.
  destruct (hero_position_known
              [mkPlayer "Hero" 3 false; mkPlayer "V1" 1 true; mkPlayer "V2" 6 false]
              {["Hero"; "V1"; "V2"]} None (Some "Hero") ["V1"; "V2"; "Hero"] (Some "V1") "Hero")
    as (l & Hl & _).
  - compute_done.
  - compute_done.
  - compute_done.
  - rewrite Hl. vm_compute in Hl. congruence.
Defined.

End OpponentStatsFacts.

(** ** flop_response_matrix_builder.py: outcome and event fields *)

Module FlopEventFacts.
Import Py HandHistory FlopMatrix FlopMatrixFacts.

(** *** The outcome of the villains *)

(** The actions before the hero acts again (or before an action that names
    nobody). *)
Fixpoint before_hero (actions : list Action) (hero : string) : list Action :=
  match actions with
  | [] => []
  | a :: rest =>
      if negb (truthy (player a)) || String.eqb (player a) hero then []
      else a :: before_hero rest hero
  end.

Definition is_bet_or_raise (a : Action) : bool :=
  inb (atype a) BET_TYPES || inb (atype a) RAISE_TYPES.

Definition is_call (a : Action) : bool := inb (atype a) CALL_TYPES.

Lemma villain_loop_spec (outcome : Outcome) (actions : list Action) (hero : string) :
  villain_loop outcome actions hero =
  if existsb is_bet_or_raise (before_hero actions hero) then raise
  else if existsb is_call (before_hero actions hero) then call
  else outcome.
Proof.
  revert outcome. induction actions as [| a rest IH]; intros outcome; [done |].
  cbn [villain_loop before_hero].
  destruct (negb (truthy (player a)) || String.eqb (player a) hero); [done |].
  cbn [existsb]. unfold is_bet_or_raise at 1, is_call at 1.
  destruct (inb (atype a) FOLD_TYPES || inb (atype a) CHECK_TYPES) eqn:Hfc.
  - assert (Hno : inb (atype a) BET_TYPES || inb (atype a) RAISE_TYPES = false
                  /\ inb (atype a) CALL_TYPES = false).
    { apply orb_true_iff in Hfc as [H | H]; apply bool_decide_eq_true in H;
        unfold FOLD_TYPES, CHECK_TYPES in H;
        repeat (apply elem_of_cons in H as [-> | H]); try (by apply elem_of_nil in H);
        split; reflexivity. }
    destruct Hno as [-> ->]. cbn [orb]. apply IH.
  - destruct (inb (atype a) BET_TYPES || inb (atype a) RAISE_TYPES); cbn [orb]; [done |].
    rewrite IH. destruct (inb (atype a) CALL_TYPES); cbn [orb]; [| done].
    by destruct (existsb is_bet_or_raise (before_hero rest hero)),
      (existsb is_call (before_hero rest hero)).
Qed.

(** [_villain_outcome] looks at the actions up to the hero's next action and
    no further: it is raise when one of them is a bet, a raise or an all-in,
    else call when one of them is a call, else fold, whatever their order. *)
Theorem villain_outcome_spec (actions : list Action) (hero : string) :
  _villain_outcome actions hero =
  if existsb is_bet_or_raise (before_hero actions hero) then raise
  else if existsb is_call (before_hero actions hero) then call
  else fold.
Proof. apply villain_loop_spec. Qed.

(** *** The fields of an emitted event *)

(** What every event of a hand looks like. *)
Definition event_ok (label : string) (e : Event) : Prop :=
  hero_position e = label
  /\ (2 <= player_count e)%nat
  /\ (0 < ratio e)%Q
  /\ exists bucket, bucket ∈ BetSizing.BET_SIZE_BUCKETS
                    /\ bucket_key e = BetSizing.key bucket
                    /\ BetSizing.contains bucket (BetSizing.Fin (ratio e)) = true.

Section hand.
Context (hero hero_position_label : string) (position_index : gmap string nat) (big_blind : Q).

Local Abbreviation hero_event := (hero_event hero hero_position_label position_index big_blind).
Local Abbreviation flop_step := (flop_step hero hero_position_label position_index big_blind).
Local Abbreviation flop_loop := (flop_loop hero hero_position_label position_index big_blind).
Local Abbreviation walk := (walk hero hero_position_label position_index big_blind).

Lemma hero_event_ok (st : State) (a : Action) (later : list Action) (e : Event) :
  hero_event st a later = Some e -> event_ok hero_position_label e.
Proof.
  unfold FlopMatrix.hero_event. intros H.
  destruct (flop_player_count st) as [count |]; [| done].
  destruct (flop_active_snapshot st) as [snapshot |]; [| done].
  match type of H with (if ?b then _ else _) = _ => destruct b eqn:Hb; [| done] end.
  repeat (apply andb_true_iff in Hb as [Hb ?]).
  destruct (Qpos (total_pot st)) eqn:Hpot; cbn [fmap option_fmap option_map] in H; [| done].
  assert (Hr : (0 < sum a / total_pot st)%Q).
  { match goal with Hs : Qpos (sum a) = true |- _ => apply Qpos_lt in Hs end.
    apply Qpos_lt in Hpot. apply Qlt_shift_div_l; [done |]. by rewrite Qmult_0_l. }
  assert (Hge : BetSizing.fge (BetSizing.Fin (sum a / total_pot st)) (BetSizing.Fin 0) = true).
  { unfold BetSizing.fge, BetSizing.flt. rewrite negb_involutive.
    by apply Qle_bool_iff, Qlt_le_weak. }
  destruct (BetSizingFacts.find_some_bucket _ Hge) as (b & Hb' & Hfind). rewrite Hb' in H.
  inversion H; subst e. unfold event_ok.
  cbn [FlopMatrix.hero_position player_count ratio bucket_key].
  split; [done |]. split; [by apply Nat.leb_le |]. split; [done |].
  apply find_some in Hfind as [Hin Hc]. exists b. split; [by apply list_elem_of_In | done].
Qed.

Lemma flop_loop_ok (st : State) (acts : list Action) :
  Forall (event_ok hero_position_label) (events st) ->
  Forall (event_ok hero_position_label) (events (flop_loop st acts)).
Proof.
  revert st. induction acts as [| a later IH]; intros st H; [done |].
  cbn [FlopMatrix.flop_loop]. apply IH. rewrite flop_step_events. apply Forall_app. split; [done |].
  destruct (valid a); [| constructor].
  destruct (hero_event st a later) as [e |] eqn:He; [| constructor].
  constructor; [| constructor]. by apply (hero_event_ok st a later).
Qed.

Lemma preflop_events (st : State) (acts : list Action) :
  events (foldl (preflop_step) st acts) = events st.
Proof.
  revert st. induction acts as [| a later IH]; intros st; [done |].
  cbn [foldl]. rewrite IH. unfold preflop_step.
  by destruct (negb (truthy (player a)) || negb (truthy (atype a))).
Qed.

Lemma other_events (st : State) (acts : list Action) :
  events (foldl other_step st acts) = events st.
Proof.
  revert st. induction acts as [| a later IH]; intros st; [done |].
  cbn [foldl]. rewrite IH. unfold other_step.
  by destruct (truthy (player a) && inb (atype a) FOLD_TYPES).
Qed.

Lemma walk_ok (st : State) (rounds : list Round) :
  Forall (event_ok hero_position_label) (events st) ->
  Forall (event_ok hero_position_label) (events (walk st rounds)).
Proof.
  revert st. induction rounds as [| rnd rest IH]; intros st H; [done |].
  cbn [FlopMatrix.walk]. unfold round_step.
  destruct (no rnd =? 1)%Z; [apply IH; by rewrite preflop_events |].
  destruct (no rnd =? 2)%Z; [| apply IH; by rewrite other_events].
  destruct (size (active_players st) <? 2)%nat; [done |].
  apply IH, flop_loop_ok. exact H.
Qed.

End hand.

Lemma hand_events_ok (h : Hand) :
  exists label, Forall (event_ok label) (_events_from_hand_history h).
Proof.
  unfold _events_from_hand_history.
  repeat match goal with
         | |- context [if ?b then [] else _] => destruct b; [exists ""; constructor |]
         end.
  destruct (_position_index (players h) !! hero h); [| exists ""; constructor].
  destruct (_position_labels (players h) !! hero h) as [label |]; [| exists ""; constructor].
  destruct (big_blind h) as [bb |]; [| exists ""; constructor].
  repeat match goal with
         | |- context [if ?b then [] else _] => destruct b; [exists ""; constructor |]
         end.
  exists label. apply walk_ok. constructor.
Qed.

(** Every event that [_events_from_hand_history] returns carries the label
    that [_position_labels] gives the hero, counts at least two players on the
    flop, has a positive ratio, and names the bucket of [BET_SIZE_BUCKETS]
    that contains this ratio. *)
Theorem emitted_event_fields (h : Hand) (e : Event) :
  e ∈ _events_from_hand_history h ->
  _position_labels (players h) !! hero h = Some (hero_position e)
  /\ (2 <= player_count e)%nat
  /\ (0 < ratio e)%Q
  /\ exists bucket, bucket ∈ BetSizing.BET_SIZE_BUCKETS
                    /\ bucket_key e = BetSizing.key bucket
                    /\ BetSizing.contains bucket (BetSizing.Fin (ratio e)) = true.
Proof.
  unfold _events_from_hand_history. intros He.
  repeat match type of He with
         | _ ∈ (if ?b then _ else _) => destruct b; [by apply elem_of_nil in He |]
         end.
  destruct (_position_index (players h) !! hero h); [| by apply elem_of_nil in He].
  destruct (_position_labels (players h) !! hero h) as [label |];
    [| by apply elem_of_nil in He].
  destruct (big_blind h) as [bb |]; [| by apply elem_of_nil in He].
  repeat match type of He with
         | _ ∈ (if ?b then _ else _) => destruct b; [by apply elem_of_nil in He |]
         end.
  match type of He with
  | _ ∈ events (FlopMatrix.walk ?hero ?label ?pi ?bb ?st ?rs) =>
      pose proof (walk_ok hero label pi bb st rs ltac:(constructor)) as Hall
  end.
  rewrite Forall_forall in Hall. destruct (Hall e He) as (Hl & Hrest). by rewrite Hl.
Qed.

Local Open Scope Q_scope.

(** A heads-up hand in which the hero bets half the pot on the flop. *)
Definition half_pot_hand : Hand :=
  mkHand "Hero" [mkPlayerInfo "Hero" 1 true; mkPlayerInfo "Villain" 3 false] (Some 0.10)
    [ mkRound 1 [] [mkAction "Hero" "23" 0.30; mkAction "Villain" "3" 0.30];
      mkRound 2 [] [mkAction "Villain" "4" 0; mkAction "Hero" "5" 0.30;
                    mkAction "Villain" "3" 0.30] ].

Lemma emitted_event_fields_witness :
  exists e, head (_events_from_hand_history half_pot_hand) = Some e
            /\ bucket_key e = "pct_40_60" /\ (2 <= player_count e)%nat /\ 0 < ratio e.
Proof.
  destruct (_events_from_hand_history half_pot_hand) as [| e l] eqn:E;
    [vm_compute in E; discriminate |].
  exists e. split; [reflexivity |].
  destruct (emitted_event_fields half_pot_hand e) as (_ & Hc & Hr & _).
  { rewrite E. left. }
  split; [| split; [exact Hc | exact Hr]].
  vm_compute in E. injection E as <- _. reflexivity.
Defined.

End FlopEventFacts.

(** ** flop_response_matrix_builder.py: the button *)

Module ButtonFacts.
Import Py HandHistory FlopMatrix.
Import OpponentPerformance(find_index).
Import PositionFacts(sorted_by_perm, find_index_Some).

(** *** The dict of an enumeration *)

Lemma index_dict_snoc {V} (f : nat -> V) (l : list PlayerInfo) (x : PlayerInfo) :
  index_dict f (l ++ [x]) = <[name x := f (length l)]> (index_dict f l).
Proof.
  unfold index_dict. rewrite imap_app, foldl_app. simpl. by rewrite Nat.add_0_r.
Qed.

Lemma index_dict_lookup {V} (f : nat -> V) (l : list PlayerInfo) (i : nat) (p : PlayerInfo) :
  NoDup (name <$> l) -> l !! i = Some p -> index_dict f l !! name p = Some (f i).
Proof.
  revert i. induction l as [| x l IH] using rev_ind; intros i Hnd Hi; [done |].
  rewrite index_dict_snoc. rewrite fmap_app in Hnd. apply NoDup_app in Hnd as (Hnd & Hx & _).
  destruct (decide (i = length l)) as [-> | Hne].
  - rewrite list_lookup_middle in Hi by done. inversion Hi; subst. apply lookup_insert_eq.
  - assert (Hlt : (i < length l)%nat).
    { apply lookup_lt_Some in Hi. rewrite length_app in Hi. simpl in Hi. lia. }
    rewrite lookup_app_l in Hi by done.
    rewrite lookup_insert_ne; [by apply IH |].
    intros Heq. apply (Hx (name p)).
    + apply list_elem_of_fmap. exists p. split; [done |]. by apply list_elem_of_lookup_2 in Hi.
    + rewrite <- Heq. simpl. left.
Qed.

Lemma index_dict_Some {V} (f : nat -> V) (l : list PlayerInfo) (k : string) (v : V) :
  index_dict f l !! k = Some v ->
  exists i p, l !! i = Some p /\ name p = k /\ v = f i.
Proof.
  induction l as [| x l IH] using rev_ind;
    [unfold index_dict; simpl; by rewrite lookup_empty |].
  rewrite index_dict_snoc. destruct (decide (k = name x)) as [-> | Hne].
  - rewrite lookup_insert_eq. intros [= <-]. exists (length l), x.
    by rewrite list_lookup_middle.
  - rewrite lookup_insert_ne by done. intros (i & p & Hi & Hk & Hv)%IH.
    exists i, p. split; [| done]. rewrite lookup_app_l; [done |]. by apply lookup_lt_Some in Hi.
Qed.

(** *** The order from the button *)

Lemma order_from_button_perm (players : list PlayerInfo) :
  order_from_button players ≡ₚ players.
Proof.
  unfold order_from_button. cbv zeta.
  rewrite Permutation_app_comm, take_drop. apply sorted_by_perm.
Qed.

Lemma find_index_None {A} (f : A -> bool) (l : list A) :
  find_index f l = None -> forall x, x ∈ l -> f x = false.
Proof.
  induction l as [| y l IH]; intros H x Hx; [by apply elem_of_nil in Hx |].
  simpl in H. destruct (f y) eqn:Hy; [discriminate |].
  destruct (find_index f l); [discriminate |].
  apply elem_of_cons in Hx as [-> | Hx]; [done | by apply IH].
Qed.

(** The head of the order is the first player, by seat, who carries the
    dealer marker; without any marker it is the player in the lowest seat. *)
Lemma button_is_dealer (players : list PlayerInfo) (b : PlayerInfo) :
  head (order_from_button players) = Some b ->
  is_button b = true
  \/ ((forall p, p ∈ players -> is_button p = false)
      /\ head (sorted_by seat players) = Some b).
Proof.
  unfold order_from_button. cbv zeta.
  destruct (find_index is_button (sorted_by seat players)) as [i |] eqn:Hi;
    cbn [from_option]; cbv beta delta [id].
  - apply find_index_Some in Hi as (x & Hx & Hb). intros Hhead. left.
    rewrite (drop_S _ _ _ Hx) in Hhead. simpl in Hhead. congruence.
  - rewrite drop_0, app_nil_r. intros Hhead. right. split; [| done].
    intros p Hp. apply (find_index_None _ _ Hi). by rewrite sorted_by_perm.
Qed.

Lemma max_of_list (l : list nat) (x : nat) :
  x ∈ l -> (forall y, y ∈ l -> (y <= x)%nat) -> foldr Nat.max 0%nat l = x.
Proof.
  intros Hx Hle. apply Nat.le_antisymm.
  - clear Hx. induction l as [| y l IH]; [simpl; lia |]. simpl.
    apply Nat.max_lub; [apply Hle; left | apply IH; intros z Hz; apply Hle; by right].
  - clear Hle. induction l as [| y l IH]; [by apply elem_of_nil in Hx |]. simpl.
    apply elem_of_cons in Hx as [-> | Hx]; [lia |]. specialize (IH Hx). lia.
Qed.

(** The player at the head of the order from the button (the dealer, or the
    lowest seat when nobody carries the marker) is labelled BTN, acts last
    (index one below the number of players), and is in position against any
    set of active players it belongs to. *)
Theorem button_acts_last (players : list PlayerInfo) (b : PlayerInfo) :
  NoDup (name <$> players) ->
  head (order_from_button players) = Some b ->
  (is_button b = true
   \/ ((forall p, p ∈ players -> is_button p = false)
       /\ head (sorted_by seat players) = Some b))
  /\ _position_labels players !! name b = Some "BTN"
  /\ _position_index players !! name b = Some (length players - 1)%nat
  /\ (forall p i, _position_index players !! p = Some i -> (i < length players)%nat)
  /\ (forall snapshot : gset string,
        name b ∈ snapshot ->
        _hero_in_position (name b) (_position_index players) snapshot = true).
Proof.
  intros Hnd Hhead. split; [by apply button_is_dealer |].
  assert (Hne : players <> []).
  { intros ->. by vm_compute in Hhead. }
  pose proof (order_from_button_perm players) as Hperm.
  set (ofb := order_from_button players) in *.
  assert (Hnd' : NoDup (name <$> ofb)) by (by rewrite Hperm).
  assert (Hlen : length ofb = length players) by (by rewrite Hperm).
  destruct ofb as [| b' t] eqn:Hofb; [done |]. simpl in Hhead. injection Hhead as ->.
  assert (Hlab : _position_labels players = index_dict
            (fun idx => default (String.append "P" (pretty idx)) (canonical !! idx)) (b :: t)).
  { unfold _position_labels. destruct players; [done |]. by rewrite <- Hofb. }
  assert (Hidx : _position_index players = index_dict (fun idx => idx) (t ++ [b])).
  { unfold _position_index. destruct players; [done |]. fold ofb. by rewrite Hofb. }
  assert (Hnd2 : NoDup (name <$> (t ++ [b]))).
  { rewrite fmap_app. apply NoDup_app. rewrite fmap_cons in Hnd'.
    apply NoDup_cons in Hnd' as [Hb Ht]. split; [done |]. split.
    - intros x Hx Hx'. apply list_elem_of_singleton in Hx'. by subst.
    - apply NoDup_singleton. }
  assert (Hb : _position_index players !! name b = Some (length players - 1)%nat).
  { rewrite Hidx. rewrite (index_dict_lookup _ (t ++ [b]) (length t) b Hnd2).
    - f_equal. simpl in Hlen. lia.
    - by rewrite list_lookup_middle. }
  assert (Hbound : forall p i, _position_index players !! p = Some i -> (i < length players)%nat).
  { intros p i Hi. rewrite Hidx in Hi. apply index_dict_Some in Hi as (j & q & Hj & _ & ->).
    apply lookup_lt_Some in Hj. rewrite length_app in Hj. simpl in Hj, Hlen. lia. }
  split; [| split; [done | split; [done |]]].
  - rewrite Hlab. by rewrite (index_dict_lookup _ (b :: t) 0 b Hnd').
  - intros snapshot Hin. unfold _hero_in_position. cbv zeta. rewrite Hb.
    set (indices := omap (fun p => _position_index players !! p) (elements snapshot)).
    assert (Hmem : (length players - 1)%nat ∈ indices).
    { unfold indices. apply list_elem_of_omap. exists (name b). split; [| done].
      by apply elem_of_elements. }
    assert (Hmax : foldr Nat.max 0%nat indices = (length players - 1)%nat).
    { apply max_of_list; [done |]. intros y Hy. unfold indices in Hy.
      apply list_elem_of_omap in Hy as (p & _ & Hp). apply Hbound in Hp. lia. }
    destruct indices as [| i0 rest]; [by apply elem_of_nil in Hmem |].
    rewrite Hmax. apply Nat.eqb_refl.
Qed.

Lemma button_acts_last_witness :
  _position_labels [mkPlayerInfo "A" 4 false; mkPlayerInfo "B" 7 true; mkPlayerInfo "C" 2 false]
    !! "B" = Some "BTN"
  /\ _hero_in_position "B"
       (_position_index [mkPlayerInfo "A" 4 false; mkPlayerInfo "B" 7 true;
                         mkPlayerInfo "C" 2 false])
       {["B"; "C"]} = true.
Proof.
  destruct (button_acts_last
              [mkPlayerInfo "A" 4 false; mkPlayerInfo "B" 7 true; mkPlayerInfo "C" 2 false]
              (mkPlayerInfo "B" 7 true)) as (_ & Hl & _ & _ & Hpos).
  - compute_done.
  - reflexivity.
  - split; [exact Hl |]. apply Hpos. compute_done.
Defined.

End ButtonFacts.

(** ** flop_response_matrix_builder.py: the collector *)

Module FlopCollectFacts.
Import Py HandHistory FlopMatrix FlopCollect.

(** Without a limit the collector returns the events of the rows in order. *)
Lemma collect_all (events : list Event) (rows : list (option Hand)) :
  collect_loop None events rows
  = events ++ List.flat_map (fun row => match row with
                                        | Some h => _events_from_hand_history h
                                        | None => []
                                        end) rows.
Proof.
  revert events. induction rows as [| [h |] rest IH]; intros events; cbn [collect_loop List.flat_map].
  - by rewrite app_nil_r.
  - cbv zeta. by rewrite IH, app_assoc.
  - by rewrite IH.
Qed.

Lemma collect_limit (m : Z) (events : list Event) (rows : list (option Hand)) :
  (0 <= m)%Z -> (Z.of_nat (length events) <= m)%Z ->
  collect_loop (Some m) events rows = take (Z.to_nat m) (collect_loop None events rows).
Proof.
  intros Hm. revert events. induction rows as [| [h |] rest IH]; intros events Hlen;
    cbn [collect_loop].
  - rewrite take_ge; [done | lia].
  - cbv zeta. set (events' := events ++ _events_from_hand_history h).
    destruct (Z.leb_spec m (Z.of_nat (length events'))) as [Hge | Hlt].
    + unfold del_from. rewrite (proj2 (Z.leb_le 0 m) Hm).
      rewrite collect_all, take_app_le; [done | lia].
    + apply IH. lia.
  - by apply IH.
Qed.

(** Every event of the collector comes from a hand. *)
Lemma collect_loop_Forall (P : Event -> Prop) (max_hands : option Z) (events : list Event)
    (rows : list (option Hand)) :
  (forall h, Forall P (_events_from_hand_history h)) ->
  Forall P events -> Forall P (collect_loop max_hands events rows).
Proof.
  intros Hh. revert events. induction rows as [| [h |] rest IH]; intros events He;
    cbn [collect_loop]; [done | | by apply IH].
  cbv zeta. assert (He' : Forall P (events ++ _events_from_hand_history h)).
  { apply Forall_app. split; [done | apply Hh]. }
  destruct max_hands as [m |]; [| by apply IH].
  destruct (m <=? Z.of_nat (length (events ++ _events_from_hand_history h)))%Z; [| by apply IH].
  unfold del_from. destruct (0 <=? m)%Z; by apply Forall_take.
Qed.

(** With a limit [max_hands] of zero or more, [collect_flop_bet_events]
    returns the first [max_hands] events of what it returns without a limit:
    the limit counts events, not hands, and the events kept are the earliest
    ones, in the same order. *)
Theorem collect_limit_is_prefix (rows : list (option Hand)) (m : Z) :
  (0 <= m)%Z ->
  collect_flop_bet_events rows (Some m)
  = take (Z.to_nat m) (collect_flop_bet_events rows None)
  /\ (length (collect_flop_bet_events rows (Some m)) <= Z.to_nat m)%nat.
Proof.
  intros Hm. unfold collect_flop_bet_events.
  rewrite collect_limit by (simpl; lia). split; [done |]. rewrite length_take. lia.
Qed.

Definition limp_bet_hand : Hand :=
  mkHand "Hero" [mkPlayerInfo "Hero" 1 true; mkPlayerInfo "Villain" 3 false] (Some 0.10%Q)
    [ mkRound 1 [] [mkAction "Hero" "3" 0.10; mkAction "Villain" "4" 0];
      mkRound 2 [] [mkAction "Villain" "4" 0; mkAction "Hero" "5" 0.20;
                    mkAction "Villain" "0" 0] ].

Lemma collect_limit_is_prefix_witness :
  length (collect_flop_bet_events [Some limp_bet_hand; None; Some limp_bet_hand] None) = 2%nat
  /\ collect_flop_bet_events [Some limp_bet_hand; None; Some limp_bet_hand] (Some 1%Z)
     = take 1 (collect_flop_bet_events [Some limp_bet_hand; None; Some limp_bet_hand] None).
Proof.
  split; [vm_compute; reflexivity |].
  refine (proj1 (collect_limit_is_prefix [Some limp_bet_hand; None; Some limp_bet_hand] 1 _)).
  discriminate.
Defined.

End FlopCollectFacts.

(** ** cbet_utils.py: events of the loader *)

Module CbetHandFacts.
Import Py HandHistory CbetUtils CbetLoader.

(** What holds of the locals of [load_cbet_events] all through a hand that
    started with the event list [events0]: the list has grown by one event at
    most, none before the c-bet is logged, and [current_event] is that event. *)
Definition hand_inv (events0 : list Event) (st : State) : Prop :=
  exists new, events st = events0 ++ new /\ (length new <= 1)%nat
              /\ (cbet_logged st = false -> new = [])
              /\ (forall idx, current_event st = Some idx -> idx = length events0).

Section hand.
Context (hand_number : Z) (pocket_cards : gmap string (list card)) (events0 : list Event).

Lemma flop_bet_step_inv (st : State) (a : Action) :
  hand_inv events0 st -> hand_inv events0 (flop_bet_step hand_number pocket_cards st a).
Proof.
  intros (new & He & Hlen & Hlog & Hcur). unfold flop_bet_step. cbv zeta.
  destruct (negb (cbet_logged st) && bool_decide (last_aggressor st = Some (player a))
            && (inb (atype a) BET_TYPES || inb (atype a) RAISE_TYPES) && Qpos (sum a)) eqn:Hc.
  2:{ exists new. cbn [events cbet_logged current_event]. done. }
  assert (Hl : cbet_logged st = false).
  { repeat (apply andb_true_iff in Hc as [Hc _]). by apply negb_true_iff in Hc. }
  assert (Hskip : forall fps fa, hand_inv events0
            (mkState (total_pot st) (last_aggressor st) true (flop_cards st) fps fa
                     (current_event st) (responders_recorded st) (flop_total_players st)
                     (events st))).
  { intros fps fa. exists new. cbn [events cbet_logged current_event].
    split; [done |]. split; [done |]. split; [| done]. intros _. by apply Hlog. }
  destruct (flop_cards st) as [[| fc0 fcs] |]; [apply Hskip | | apply Hskip].
  destruct (pocket_cards !! player a) as [hole |]; [| apply Hskip].
  destruct (Qpos (total_pot st)); [| apply Hskip].
  rewrite (Hlog Hl), app_nil_r in He.
  eexists [_]. cbn [events cbet_logged current_event]. rewrite He.
  split; [reflexivity |]. split; [simpl; lia |]. split; [done |]. by intros idx [= <-].
Qed.

Lemma response_step_inv (round_no : Z) (st : State) (a : Action) :
  hand_inv events0 st -> hand_inv events0 (response_step round_no st a).
Proof.
  intros Hinv. unfold response_step.
  destruct (current_event st) as [idx |] eqn:Hidx; [| done].
  destruct (events st !! idx) as [ev |]; [| done].
  match goal with |- context [if ?b then _ else _] => destruct b; [| done] end.
  destruct (response_kind (atype a)) as [kind |]; [| done].
  destruct Hinv as (new & He & Hlen & Hlog & Hcur). rewrite (Hcur idx Hidx).
  eexists (alter _ 0%nat new). cbn [events cbet_logged current_event].
  rewrite He. split.
  - rewrite <- (Nat.add_0_r (length events0)) at 1. rewrite alter_app_r. reflexivity.
  - split; [by rewrite length_alter |]. split; [| by intros ? [= <-]].
    intros Hl. by rewrite (Hlog Hl).
Qed.

Lemma action_step_inv (round_no : Z) (st : State) (a : Action) :
  hand_inv events0 st -> hand_inv events0 (action_step hand_number pocket_cards round_no st a).
Proof.
  intros Hinv. unfold action_step. destruct (negb (truthy (player a))); [done |].
  cbv zeta.
  assert (H1 : hand_inv events0
                 (if (round_no =? 1)%Z && inb (atype a) RAISE_TYPES && Qpos (sum a)
                  then set_last_aggressor st (player a)
                  else if (round_no =? 2)%Z
                       then flop_bet_step hand_number pocket_cards st a else st)).
  { destruct ((round_no =? 1)%Z && inb (atype a) RAISE_TYPES && Qpos (sum a)); [done |].
    destruct (round_no =? 2)%Z; [by apply flop_bet_step_inv | done]. }
  apply (response_step_inv round_no _ a) in H1. unfold add_to_pot.
  destruct (Qpos (sum a)); done.
Qed.

Lemma round_step_inv (st : State) (rnd : Round) :
  hand_inv events0 st -> hand_inv events0 (round_step hand_number pocket_cards st rnd).
Proof.
  intros Hinv. unfold round_step.
  assert (Hfold : forall acts s, hand_inv events0 s ->
            hand_inv events0 (foldl (action_step hand_number pocket_cards (no rnd)) s acts)).
  { induction acts as [| a acts IH]; intros s Hs; [done |]. cbn [foldl].
    by apply IH, action_step_inv. }
  assert (Henter : hand_inv events0 (enter_round st rnd)) by done.
  specialize (Hfold (actions rnd) _ Henter). unfold leave_round.
  destruct (no rnd =? 2)%Z; [done |].
  destruct Hfold as (new & He & Hlen & Hlog & _). exists new.
  cbn [events cbet_logged current_event]. done.
Qed.

End hand.

(** [load_cbet_events] logs one c-bet per hand at most: a hand leaves the
    events of the hands before it as they are and appends nothing or one
    event, so the loader never returns more events than it was given hands. *)
Theorem one_cbet_event_per_hand :
  (forall (h : Hand) (events0 : list Event),
     exists new, hand_events h events0 = events0 ++ new /\ (length new <= 1)%nat)
  /\ (forall hands : list Hand, (length (load_cbet_events hands) <= length hands)%nat).
Proof.
  assert (Hhand : forall (h : Hand) (events0 : list Event),
            exists new, hand_events h events0 = events0 ++ new /\ (length new <= 1)%nat).
  { intros h events0.
    assert (Hsame : exists new, events0 = events0 ++ new /\ (length new <= 1)%nat).
    { exists []. rewrite app_nil_r. split; [done | simpl; lia]. }
    unfold hand_events. destruct (big_blind h); [| done].
    destruct (negb (Qpos _)); [done |]. destruct (negb (bool_decide _)); [done |].
    destruct (bool_decide (pocket_cards_of h = ∅)); [done |].
    unfold walk_hand.
    assert (Hwalk : forall rnds st, hand_inv events0 st ->
              hand_inv events0 (foldl (round_step (hand_number h) (pocket_cards_of h)) st rnds)).
    { induction rnds as [| rnd rnds IH]; intros st Hst; [done |]. cbn [foldl].
      by apply IH, round_step_inv. }
    destruct (Hwalk (sorted_rounds (rounds h)) (initial_state events0)) as (new & He & Hlen & _).
    - exists []. cbn [events cbet_logged current_event initial_state].
      rewrite app_nil_r. split; [done |]. split; [simpl; lia |]. done.
    - exists new. done. }
  split; [exact Hhand |].
  intros hands. unfold load_cbet_events.
  assert (Hgen : forall evs, (length (foldl (fun evs h => hand_events h evs) evs hands)
                              <= length evs + length hands)%nat).
  { induction hands as [| h hands IH]; intros evs; [simpl; lia |]. cbn [foldl].
    specialize (IH (hand_events h evs)). destruct (Hhand h evs) as (new & He & Hlen).
    rewrite He in IH at 2. rewrite length_app in IH. simpl. lia. }
  apply (Hgen []).
Qed.

End CbetHandFacts.

(** ** flop_response_matrix.py: outcome and bucket of an event *)

Module ResponseMatrixFacts.
Import Py BetSizing PyObj FlopResponseMatrix.

(** *** The outcome of a list of responses *)

(** What one entry of the responses says: the normalised [response] field of
    a mapping, nothing for any other value. *)
Definition answer (x : pyobj) : option string :=
  match x with
  | PDict response => _normalise_response (get response "response")
  | _ => None
  end.

Definition answers (r : string) (x : pyobj) : Prop := answer x = Some r.

Lemma resolve_loop_cons (has_call : bool) (x : pyobj) (rest : list pyobj) :
  resolve_loop has_call (x :: rest)
  = if bool_decide (answer x = Some "raise") then "raise"
    else if bool_decide (answer x = Some "call") then resolve_loop true rest
    else resolve_loop has_call rest.
Proof. destruct x; reflexivity. Qed.

Lemma resolve_loop_spec (has_call : bool) (items : list pyobj) :
  (resolve_loop has_call items = "raise" <-> Exists (answers "raise") items)
  /\ (resolve_loop has_call items = "call" <->
      ~ Exists (answers "raise") items /\ (has_call = true \/ Exists (answers "call") items))
  /\ (resolve_loop has_call items = "fold" <->
      ~ Exists (answers "raise") items /\ has_call = false /\ ~ Exists (answers "call") items).
Proof.
  revert has_call. induction items as [| x rest IH]; intros has_call.
  - cbn [resolve_loop]. rewrite !Exists_nil.
    destruct has_call; split_and!; split; try discriminate; try tauto; intros H;
      try (destruct H as (_ & [H | H]); done); try (destruct H as (_ & H & _); done).
  - rewrite resolve_loop_cons, !Exists_cons. unfold answers at 1 3 5 6 8.
    case_bool_decide as H1.
    { rewrite H1. split_and!; split; try discriminate; try tauto. }
    case_bool_decide as H2.
    { destruct (IH true) as (I1 & I2 & I3). rewrite I1, I2, I3.
      split_and!; split; try tauto.
      intros (Hn & Hf & _). done. }
    destruct (IH has_call) as (I1 & I2 & I3). rewrite I1, I2, I3. tauto.
Qed.

(** [_resolve_outcome] gives the strongest answer among the responses, in
    whatever order they come: a raise if any response is a raise, else a call
    if any is a call, else a fold.  Entries that are not mappings, or whose
    [response] is not one of the three words (after trimming and lower-casing),
    are ignored; a value that cannot be iterated gives a fold. *)
Theorem resolve_outcome_spec (responses : pyobj) :
  let items := default [] (iterate responses) in
  (_resolve_outcome responses = "raise" <-> Exists (answers "raise") items)
  /\ (_resolve_outcome responses = "call" <->
      ~ Exists (answers "raise") items /\ Exists (answers "call") items)
  /\ (_resolve_outcome responses = "fold" <->
      ~ Exists (answers "raise") items /\ ~ Exists (answers "call") items).
Proof.
  cbv zeta. unfold _resolve_outcome.
  destruct (iterate responses) as [items |]; cbn [from_option]; cbv beta delta [id].
  - destruct (resolve_loop_spec false items) as (I1 & I2 & I3). rewrite I1, I2, I3.
    split_and!; split; try tauto. intros (? & [? | ?]); [discriminate | tauto].
  - rewrite !Exists_nil. split_and!; split; try discriminate; tauto.
Qed.

(** *** The table of scenarios *)

Definition zero : Metrics := mkMetrics 0 0 0 0.

(** The counters of a bucket in a bucket map. *)
Definition cell (m : gmap string Metrics) (b : string) : Metrics := default zero (m !! b).

Definition balanced (x : Metrics) : Prop :=
  (events x = fold_events x + call_events x + raise_events x)%nat.

Lemma BUCKET_KEYS_NoDup : NoDup BUCKET_KEYS.
Proof. compute_done. Qed.

Lemma default_bucket_map_lookup (b : string) (x : Metrics) :
  default_bucket_map !! b = Some x -> b ∈ BUCKET_KEYS /\ x = zero.
Proof.
  unfold default_bucket_map. intros H. apply elem_of_list_to_map_2 in H.
  apply list_elem_of_fmap in H as (b' & [= -> ->] & Hin). done.
Qed.

Lemma cell_default (b : string) : cell default_bucket_map b = zero.
Proof.
  unfold cell. destruct (default_bucket_map !! b) as [x |] eqn:E; [| done].
  apply default_bucket_map_lookup in E as [_ ->]. done.
Qed.

Lemma count_outcome_events (o : string) (x : Metrics) :
  events (count_outcome o x) = S (events x).
Proof. unfold count_outcome. by repeat case_match. Qed.

Lemma count_outcome_balanced (o : string) (x : Metrics) :
  balanced x -> balanced (count_outcome o x).
Proof. unfold balanced, count_outcome. repeat case_match; cbn; lia. Qed.

(** A bucket map of the table: its keys are bucket keys and every bucket is
    balanced. *)
Definition map_ok (m : gmap string Metrics) : Prop :=
  forall b x, m !! b = Some x -> b ∈ BUCKET_KEYS /\ balanced x.

Lemma default_bucket_map_ok : map_ok default_bucket_map.
Proof. intros b x H. apply default_bucket_map_lookup in H as [? ->]. split; [done |]. by cbv. Qed.

Lemma map_ok_insert (m : gmap string Metrics) (b o : string) (x : Metrics) :
  map_ok m -> m !! b = Some x -> map_ok (<[b := count_outcome o x]> m).
Proof.
  intros Hm Hb b' x' H. destruct (decide (b' = b)) as [-> | Hne].
  - rewrite lookup_insert_eq in H. injection H as <-.
    destruct (Hm b x Hb). split; [done | by apply count_outcome_balanced].
  - rewrite lookup_insert_ne in H by done. by apply Hm.
Qed.

Lemma cell_insert (m : gmap string Metrics) (b o b' : string) (x : Metrics) :
  m !! b = Some x ->
  events (cell (<[b := count_outcome o x]> m) b')
  = (events (cell m b') + if decide (b' = b) then 1 else 0)%nat.
Proof.
  intros Hb. unfold cell. destruct (decide (b' = b)) as [-> | Hne].
  - rewrite lookup_insert_eq, Hb. cbn [from_option]. cbv beta delta [id].
    rewrite count_outcome_events. lia.
  - rewrite lookup_insert_ne by done. lia.
Qed.

(** The events of a bucket map, over the buckets of the table. *)
Definition row_total (m : gmap string Metrics) : nat :=
  sum_list ((fun b => events (cell m b)) <$> BUCKET_KEYS).

Lemma sum_list_bump (f g : string -> nat) (b : string) (l : list string) :
  NoDup l -> b ∈ l ->
  (forall b', g b' = (f b' + if decide (b' = b) then 1 else 0)%nat) ->
  sum_list (g <$> l) = S (sum_list (f <$> l)).
Proof.
  intros Hnd Hin Hg. induction l as [| y l IH]; [by apply elem_of_nil in Hin |].
  apply NoDup_cons in Hnd as [Hy Hnd]. rewrite !fmap_cons. cbn [sum_list].
  apply elem_of_cons in Hin as [-> | Hin].
  - rewrite Hg. rewrite decide_True by done.
    assert (Hsame : g <$> l = f <$> l).
    { apply list_fmap_ext. intros i y' Hl. rewrite Hg. apply list_elem_of_lookup_2 in Hl.
      rewrite decide_False by (intros ->; done). lia. }
    rewrite Hsame. cbv beta delta [id]. lia.
  - rewrite IH by done. rewrite Hg. rewrite decide_False by (intros ->; done).
    cbv beta delta [id]. lia.
Qed.

Lemma row_total_insert (m : gmap string Metrics) (b o : string) (x : Metrics) :
  map_ok m -> m !! b = Some x ->
  row_total (<[b := count_outcome o x]> m) = S (row_total m).
Proof.
  intros Hm Hb. unfold row_total.
  apply (sum_list_bump (fun b' => events (cell m b')) _ b).
  - apply BUCKET_KEYS_NoDup.
  - by destruct (Hm b x Hb).
  - intros b'. by apply cell_insert.
Qed.

Lemma row_total_default : row_total default_bucket_map = 0%nat.
Proof. reflexivity. Qed.

(** *** The insertion-ordered dictionary of scenarios *)

Local Abbreviation table := (list (ScenarioKey * gmap string Metrics)).

Lemma lookup_scenario_None (k : ScenarioKey) (agg : table) :
  lookup_scenario k agg = None <-> k ∉ agg.*1.
Proof.
  induction agg as [| [k' m] rest IH]; cbn [lookup_scenario].
  - split; [intros _; apply not_elem_of_nil | done].
  - rewrite fmap_cons, not_elem_of_cons. cbn [fst]. destruct (decide (k = k')) as [-> | Hne].
    + split; [discriminate | intros [? _]; done].
    + rewrite IH. tauto.
Qed.

Lemma lookup_scenario_Some (k : ScenarioKey) (agg : table) (m : gmap string Metrics) :
  lookup_scenario k agg = Some m -> (k, m) ∈ agg.
Proof.
  induction agg as [| [k' m'] rest IH]; cbn [lookup_scenario]; [discriminate |].
  destruct (decide (k = k')) as [-> | Hne].
  - intros [= ->]. apply list_elem_of_here.
  - intros H. apply list_elem_of_further. by apply IH.
Qed.

Lemma store_scenario_keys (k : ScenarioKey) (m : gmap string Metrics) (agg : table) :
  (store_scenario k m agg).*1
  = match lookup_scenario k agg with Some _ => agg.*1 | None => agg.*1 ++ [k] end.
Proof.
  induction agg as [| [k' m'] rest IH]; cbn [store_scenario lookup_scenario]; [done |].
  destruct (decide (k = k')) as [-> | Hne]; [done |].
  rewrite !fmap_cons, IH. by destruct (lookup_scenario k rest).
Qed.

Lemma store_scenario_elem (k k' : ScenarioKey) (m : gmap string Metrics) (agg : table) :
  k' ∈ (store_scenario k m agg).*1 <-> k' = k \/ k' ∈ agg.*1.
Proof.
  rewrite store_scenario_keys. destruct (lookup_scenario k agg) as [m0 |] eqn:E.
  - split; [tauto |]. intros [-> | H]; [| done].
    apply lookup_scenario_Some in E. apply list_elem_of_fmap. by exists (k, m0).
  - rewrite elem_of_app, list_elem_of_singleton. tauto.
Qed.

Lemma store_scenario_NoDup (k : ScenarioKey) (m : gmap string Metrics) (agg : table) :
  NoDup agg.*1 -> NoDup (store_scenario k m agg).*1.
Proof.
  intros Hnd. rewrite store_scenario_keys.
  destruct (lookup_scenario k agg) eqn:E; [done |].
  apply NoDup_app. split; [done |]. split; [| apply NoDup_singleton].
  intros x Hx Hk. apply list_elem_of_singleton in Hk as ->.
  by apply lookup_scenario_None in E.
Qed.

Lemma store_scenario_Forall (P : ScenarioKey * gmap string Metrics -> Prop)
    (k : ScenarioKey) (m : gmap string Metrics) (agg : table) :
  Forall P agg -> P (k, m) -> Forall P (store_scenario k m agg).
Proof.
  intros Hall Hk. induction agg as [| [k' m'] rest IH]; cbn [store_scenario].
  - by constructor.
  - apply Forall_cons in Hall as [H1 H2]. destruct (decide (k = k')) as [-> | Hne].
    + by constructor.
    + constructor; [done | by apply IH].
Qed.

(** Storing a bucket map moves the sum of any measure by the difference
    between the new map and the one that was there. *)
Lemma store_scenario_sum (mu : gmap string Metrics -> nat) (k : ScenarioKey)
    (m : gmap string Metrics) (agg : table) :
  mu default_bucket_map = 0%nat ->
  (sum_list ((fun item => mu item.2) <$> store_scenario k m agg)
   + mu (default default_bucket_map (lookup_scenario k agg))
   = sum_list ((fun item => mu item.2) <$> agg) + mu m)%nat.
Proof.
  intros H0. induction agg as [| [k' m'] rest IH]; cbn [store_scenario lookup_scenario].
  - cbn [from_option]. cbv beta delta [id]. rewrite H0. cbn. lia.
  - destruct (decide (k = k')) as [-> | Hne]; rewrite !fmap_cons; cbn [sum_list snd from_option];
      cbv beta delta [id]; [lia |].
    cbn [from_option] in IH. cbv beta delta [id] in IH. lia.
Qed.

(** *** Sorting by a tuple key *)

Definition tuple_le (a b : Z * Z * Z * Z) : Prop := tuple_lt b a = false.

Lemma tuple_lt_asym (a b : Z * Z * Z * Z) : tuple_lt a b = true -> tuple_le a b.
Proof.
  unfold tuple_le, tuple_lt. destruct a as [[[a1 a2] a3] a4], b as [[[b1 b2] b3] b4].
  repeat match goal with
         | |- context [(?x =? ?y)%Z] => destruct (Z.eqb_spec x y)
         end; rewrite ?Z.ltb_lt, ?Z.ltb_ge; lia.
Qed.

Lemma tuple_le_trans (a b c : Z * Z * Z * Z) : tuple_le a b -> tuple_le b c -> tuple_le a c.
Proof.
  unfold tuple_le, tuple_lt.
  destruct a as [[[a1 a2] a3] a4], b as [[[b1 b2] b3] b4], c as [[[c1 c2] c3] c4].
  repeat match goal with
         | |- context [(?x =? ?y)%Z] => destruct (Z.eqb_spec x y)
         end; rewrite ?Z.ltb_lt, ?Z.ltb_ge; lia.
Qed.

Lemma insert_sorted_perm {A} (key : A -> Z * Z * Z * Z) (x : A) (l : list A) :
  insert_sorted key x l ≡ₚ x :: l.
Proof.
  induction l as [| y l IH]; cbn [insert_sorted]; [done |].
  destruct (tuple_lt (key y) (key x)); [| done]. rewrite IH. apply Permutation_swap.
Qed.

Lemma sorted_by_tuple_perm {A} (key : A -> Z * Z * Z * Z) (l : list A) :
  sorted_by_tuple key l ≡ₚ l.
Proof.
  induction l as [| x l IH]; [done |].
  unfold sorted_by_tuple. cbn [foldr]. rewrite insert_sorted_perm. by constructor.
Qed.

Lemma insert_sorted_sorted {A} (key : A -> Z * Z * Z * Z) (x : A) (l : list A) :
  StronglySorted (fun a b => tuple_le (key a) (key b)) l ->
  StronglySorted (fun a b => tuple_le (key a) (key b)) (insert_sorted key x l).
Proof.
  induction l as [| y l IH]; cbn [insert_sorted]; intros Hs.
  - by repeat constructor.
  - apply StronglySorted_inv in Hs as [Hl Hy].
    destruct (tuple_lt (key y) (key x)) eqn:Hlt.
    + constructor; [by apply IH |].
      rewrite insert_sorted_perm. constructor; [by apply tuple_lt_asym | done].
    + constructor; [by constructor |]. constructor; [done |].
      eapply Forall_impl; [exact Hy |]. intros z Hz. by apply tuple_le_trans with (key y).
Qed.

Lemma sorted_by_tuple_sorted {A} (key : A -> Z * Z * Z * Z) (l : list A) :
  StronglySorted (fun a b => tuple_le (key a) (key b)) (sorted_by_tuple key l).
Proof.
  induction l as [| x l IH]; [constructor |].
  unfold sorted_by_tuple. cbn [foldr]. by apply insert_sorted_sorted.
Qed.

Lemma insert_by_sorted {A} (key : A -> Z) (x : A) (l : list A) :
  StronglySorted (fun a b => (key a <= key b)%Z) l ->
  StronglySorted (fun a b => (key a <= key b)%Z) (insert_by key x l).
Proof.
  induction l as [| y l IH]; cbn [insert_by]; intros Hs.
  - by repeat constructor.
  - apply StronglySorted_inv in Hs as [Hl Hy].
    destruct (Z.leb_spec (key x) (key y)) as [Hle | Hgt].
    + constructor; [by constructor |]. constructor; [done |].
      eapply Forall_impl; [exact Hy |]. intros z Hz. cbv beta in *. lia.
    + constructor; [by apply IH |].
      rewrite PositionFacts.insert_by_perm. constructor; [lia | done].
Qed.

Lemma sorted_by_sorted {A} (key : A -> Z) (l : list A) :
  StronglySorted (fun a b => (key a <= key b)%Z) (sorted_by key l).
Proof.
  induction l as [| x l IH]; [constructor |].
  unfold sorted_by. cbn [foldr]. by apply insert_by_sorted.
Qed.

Lemma sum_list_perm (l1 l2 : list nat) : l1 ≡ₚ l2 -> sum_list l1 = sum_list l2.
Proof.
  induction 1 as [| x l l' _ IH | x y l | l l' l'' _ IH1 _ IH2]; cbn [sum_list].
  - done.
  - rewrite IH. done.
  - cbv beta delta [id]. lia.
  - by rewrite IH1.
Qed.

(** *** What the table promises *)

Definition scenario_key (s : Scenario) : ScenarioKey :=
  (s_hero_position s, s_bet_type s, s_position s, s_player_count s).

(** The events of a scenario, over all its buckets. *)
Definition scenario_events (s : Scenario) : nat := sum_list (m_events <$> s_metrics s).

Definition metric_balanced (m : Metric) : Prop :=
  (m_events m = m_fold_events m + m_call_events m + m_raise_events m)%nat.

Lemma scenario_of_key (item : ScenarioKey * gmap string Metrics) :
  scenario_key (scenario_of item) = item.1.
Proof. by destruct item as [[[[? ?] ?] ?] ?]. Qed.

Lemma scenario_of_events (item : ScenarioKey * gmap string Metrics) :
  scenario_events (scenario_of item) = row_total item.2.
Proof.
  destruct item as [[[[? ?] ?] ?] m]. unfold scenario_events, row_total, BUCKET_KEYS.
  cbn [scenario_of s_metrics snd]. by rewrite <- !list_fmap_compose.
Qed.

Lemma scenario_of_buckets (item : ScenarioKey * gmap string Metrics) :
  m_bucket_key <$> s_metrics (scenario_of item) = BUCKET_KEYS.
Proof.
  destruct item as [[[[? ?] ?] ?] m]. unfold BUCKET_KEYS.
  cbn [scenario_of s_metrics]. by rewrite <- list_fmap_compose.
Qed.

Lemma scenario_of_balanced (item : ScenarioKey * gmap string Metrics) :
  map_ok item.2 -> Forall metric_balanced (s_metrics (scenario_of item)).
Proof.
  destruct item as [[[[? ?] ?] ?] m]. cbn [scenario_of s_metrics snd]. intros Hm.
  apply Forall_fmap, Forall_forall. intros meta _. unfold metric_balanced. cbn.
  destruct (m !! bm_key meta) as [x |] eqn:E; cbn; [| done].
  by destruct (Hm _ _ E).
Qed.

(** *** One event *)

(** The fields that the loop reads off an event. *)
Definition hero_position_of (event : dict) : string :=
  match get event "hero_position" with
  | PStr s => if truthy s then s else "UNKNOWN"
  | _ => "UNKNOWN"
  end.

Definition position_of (event : dict) : string :=
  match get event "position" with
  | PStr position_field => position_field
  | _ => if py_bool (get event "in_position") then "IP" else "OOP"
  end.

Definition player_count_raw_of (event : dict) : pyobj :=
  match get event "player_count" with
  | PNone => get event "flop_players"
  | raw => raw
  end.

Definition outcome_of (event : dict) : string :=
  match get event "villain_outcome" with
  | PStr s => s
  | _ =>
      let responses := get event "responses" in
      _resolve_outcome (if py_bool responses then responses else PList [])
  end.

Definition count_of (c : conv Z) : Z := match c with Value z => z | _ => 0%Z end.

Definition map_full (m : gmap string Metrics) : Prop :=
  forall b, b ∈ BUCKET_KEYS -> is_Some (m !! b).

Lemma default_bucket_map_full : map_full default_bucket_map.
Proof.
  intros b Hb. unfold default_bucket_map. apply elem_of_dom. rewrite dom_list_to_map_L.
  apply elem_of_list_to_set. rewrite <- list_fmap_compose.
  apply list_elem_of_fmap. by exists b.
Qed.

Lemma map_full_insert (m : gmap string Metrics) (b : string) (x : Metrics) :
  map_full m -> map_full (<[b := x]> m).
Proof.
  intros Hm b' Hb'. destruct (decide (b' = b)) as [-> | Hne].
  - rewrite lookup_insert_eq. by eexists.
  - rewrite lookup_insert_ne by done. by apply Hm.
Qed.

Lemma normalise_bet_type_option (value : pyobj) (bet_type : string) :
  _normalise_bet_type value = Some bet_type -> bet_type ∈ BET_TYPE_OPTIONS.
Proof.
  unfold _normalise_bet_type. destruct value; try discriminate. cbv zeta.
  intros H. apply find_some in H as [H _]. by apply list_elem_of_In.
Qed.

Section builtins.
Variable str_to_float : string -> option pyfloat.
Variable str_to_int : string -> option Z.
Variable set_order : gset string -> list string.

Local Abbreviation aggregate_step := (aggregate_step str_to_float str_to_int).
Local Abbreviation aggregate_loop := (aggregate_loop str_to_float str_to_int).
Local Abbreviation _bucket_for_event := (_bucket_for_event str_to_float).
Local Abbreviation _aggregate_events := (_aggregate_events str_to_float str_to_int set_order).

(** The step in terms of these fields. *)
Lemma aggregate_step_eq (st : State) (event : dict) :
  aggregate_step st event =
  let hero_positions' := hero_positions st ∪ {[hero_position_of event]} in
  match _normalise_bet_type (get event "bet_type") with
  | None => Ok (mkState (aggregate st) (player_counts st) hero_positions')
  | Some bet_type =>
      match py_int str_to_int (player_count_raw_of event) with
      | Overflow => Raise OverflowError
      | converted =>
          match _bucket_for_event event with
          | Raise e => Raise e
          | Ok None => Ok (mkState (aggregate st) (player_counts st) hero_positions')
          | Ok (Some bucket_key) =>
              let k := (hero_position_of event, bet_type, position_of event, count_of converted) in
              let bucket_map := default default_bucket_map (lookup_scenario k (aggregate st)) in
              match bucket_map !! bucket_key with
              | None => Raise KeyError
              | Some bucket_metrics =>
                  Ok (mkState
                        (store_scenario k
                           (<[bucket_key := count_outcome (outcome_of event) bucket_metrics]>
                              bucket_map)
                           (aggregate st))
                        (if (count_of converted =? 0)%Z then player_counts st
                         else player_counts st ∪ {[count_of converted]})
                        hero_positions')
              end
          end
      end
  end.
Proof.
  unfold FlopResponseMatrix.aggregate_step. cbv zeta.
  destruct (_normalise_bet_type (get event "bet_type")); [| reflexivity].
  fold (player_count_raw_of event).
  destruct (py_int str_to_int (player_count_raw_of event)); reflexivity.
Qed.

(** What a step does to the table: nothing, or one more event in one bucket
    of one scenario. *)
Definition counted_in (st st' : State) (k : ScenarioKey) (b : string) : Prop :=
  exists o x,
    let m := default default_bucket_map (lookup_scenario k (aggregate st)) in
    m !! b = Some x
    /\ aggregate st' = store_scenario k (<[b := count_outcome o x]> m) (aggregate st)
    /\ player_counts st'
       = (if (k.2 =? 0)%Z then player_counts st else player_counts st ∪ {[k.2]})
    /\ k.1.1.1 ∈ hero_positions st'
    /\ k.1.1.2 ∈ BET_TYPE_OPTIONS.

Lemma aggregate_step_cases (st st' : State) (event : dict) :
  aggregate_step st event = Ok st' ->
  hero_positions st ⊆ hero_positions st'
  /\ ((aggregate st' = aggregate st /\ player_counts st' = player_counts st)
      \/ exists k b, _bucket_for_event event = Ok (Some b) /\ counted_in st st' k b).
Proof.
  rewrite aggregate_step_eq. cbv zeta.
  destruct (_normalise_bet_type (get event "bet_type")) as [bet_type |] eqn:Hbt.
  2: { intros [= <-]. cbn. split; [apply union_subseteq_l | by left]. }
  assert (Hgo : forall c : Z,
    match _bucket_for_event event with
    | Raise e => Raise e
    | Ok None => Ok (mkState (aggregate st) (player_counts st)
                       (hero_positions st ∪ {[hero_position_of event]}))
    | Ok (Some bucket_key) =>
        match default default_bucket_map
                (lookup_scenario (hero_position_of event, bet_type, position_of event, c)
                   (aggregate st)) !! bucket_key with
        | None => Raise KeyError
        | Some bucket_metrics =>
            Ok (mkState
                  (store_scenario (hero_position_of event, bet_type, position_of event, c)
                     (<[bucket_key := count_outcome (outcome_of event) bucket_metrics]>
                        (default default_bucket_map
                           (lookup_scenario
                              (hero_position_of event, bet_type, position_of event, c)
                              (aggregate st))))
                     (aggregate st))
                  (if (c =? 0)%Z then player_counts st else player_counts st ∪ {[c]})
                  (hero_positions st ∪ {[hero_position_of event]}))
        end
    end = Ok st' ->
    hero_positions st ⊆ hero_positions st'
    /\ ((aggregate st' = aggregate st /\ player_counts st' = player_counts st)
        \/ exists k b, _bucket_for_event event = Ok (Some b) /\ counted_in st st' k b)).
  { intros c. destruct (_bucket_for_event event) as [[b |] | e]; [| | discriminate].
    2: { intros [= <-]. cbn. split; [apply union_subseteq_l | by left]. }
    set (key := (hero_position_of event, bet_type, position_of event, c)).
    destruct (default default_bucket_map (lookup_scenario key (aggregate st)) !! b)
      as [x |] eqn:Hx; [| discriminate].
    intros [= <-]. cbn [hero_positions aggregate player_counts].
    split; [apply union_subseteq_l |]. right. exists key, b. split; [done |].
    exists (outcome_of event), x. cbv zeta. split; [exact Hx |]. split; [done |].
    split; [done |]. split.
    - apply elem_of_union_r, elem_of_singleton. reflexivity.
    - by apply (normalise_bet_type_option _ _ Hbt). }
  destruct (py_int str_to_int (player_count_raw_of event)) as [z | |];
    [apply Hgo | apply Hgo | discriminate].
Qed.

(** *** The loop *)

Definition key_count (k : ScenarioKey) : Z := k.2.

Record table_inv (st : State) (n : nat) : Prop := mkInv {
  inv_nodup : NoDup (aggregate st).*1;
  inv_maps : Forall (fun item => map_ok item.2 /\ map_full item.2 /\ (1 <= row_total item.2)%nat)
                    (aggregate st);
  inv_keys : Forall (fun k => k.1.1.1 ∈ hero_positions st /\ k.1.1.2 ∈ BET_TYPE_OPTIONS)
                    (aggregate st).*1;
  inv_total : (sum_list ((fun item => row_total item.2) <$> aggregate st) <= n)%nat;
  inv_counts : forall z, z ∈ player_counts st <-> z <> 0%Z /\ exists k, k ∈ (aggregate st).*1 /\ k.2 = z
}.

Lemma lookup_default_ok (k : ScenarioKey) (agg : table) :
  Forall (fun item => map_ok item.2 /\ map_full item.2 /\ (1 <= row_total item.2)%nat) agg ->
  map_ok (default default_bucket_map (lookup_scenario k agg))
  /\ map_full (default default_bucket_map (lookup_scenario k agg)).
Proof.
  intros Hall. destruct (lookup_scenario k agg) as [m |] eqn:E; cbn [from_option];
    cbv beta delta [id].
  - apply lookup_scenario_Some in E. rewrite Forall_forall in Hall.
    destruct (Hall _ E) as (? & ? & _). done.
  - split; [apply default_bucket_map_ok | apply default_bucket_map_full].
Qed.

Lemma table_inv_step (st st' : State) (event : dict) (n : nat) :
  table_inv st n -> aggregate_step st event = Ok st' -> table_inv st' (S n).
Proof.
  intros [Hnd Hmaps Hkeys Htotal Hcounts] Hstep.
  apply aggregate_step_cases in Hstep as [Hsub [[Hagg Hpc] | (k & b & _ & Hc)]].
  - constructor; rewrite ?Hagg, ?Hpc; try done; [| lia].
    eapply Forall_impl; [exact Hkeys |]. intros k' [? ?]. split; [by apply Hsub | done].
  - destruct Hc as (o & x & Hx & Hagg & Hpc & Hhero & Hbt). cbv zeta in Hx, Hagg.
    destruct (lookup_default_ok k (aggregate st) Hmaps) as [Hok Hfull].
    set (m := default default_bucket_map (lookup_scenario k (aggregate st))) in *.
    constructor; rewrite ?Hagg, ?Hpc.
    + by apply store_scenario_NoDup.
    + apply store_scenario_Forall; [done |]. cbn [snd].
      split; [by apply map_ok_insert |]. split; [by apply map_full_insert |].
      rewrite row_total_insert by done. lia.
    + apply Forall_forall. intros k' Hk'. apply store_scenario_elem in Hk' as [-> | Hk'];
        [done |].
      rewrite Forall_forall in Hkeys. destruct (Hkeys k' Hk'). split; [by apply Hsub | done].
    + pose proof (store_scenario_sum row_total k (<[b := count_outcome o x]> m) (aggregate st)
                    row_total_default) as Hsum.
      fold m in Hsum. rewrite row_total_insert in Hsum by done. lia.
    + intros z. setoid_rewrite store_scenario_elem.
      destruct (Z.eqb_spec k.2 0) as [Hz | Hz].
      * rewrite Hcounts. split.
        -- intros (? & k' & ? & ?). split; [done |]. exists k'. tauto.
        -- intros (? & k' & [-> | ?] & ?); [congruence |]. split; [done |]. by exists k'.
      * rewrite elem_of_union, elem_of_singleton, Hcounts. split.
        -- intros [(? & k' & ? & ?) | ->]; [split; [done |]; exists k'; tauto |].
           split; [done |]. exists k. tauto.
        -- intros (? & k' & [-> | ?] & ?); [by right | left]. split; [done |]. by exists k'.
Qed.

Lemma table_inv_loop (events : list dict) (st st' : State) (n : nat) :
  table_inv st n -> aggregate_loop st events = Ok st' -> table_inv st' (n + length events).
Proof.
  revert st n. induction events as [| event rest IH]; intros st n Hinv; cbn [FlopResponseMatrix.aggregate_loop].
  - intros [= <-]. by rewrite Nat.add_0_r.
  - destruct (aggregate_step st event) as [st1 |] eqn:Hstep; [| discriminate].
    intros Hloop. cbn [length]. rewrite <- Nat.add_succ_comm.
    apply (IH st1); [| done]. by apply (table_inv_step st st1 event).
Qed.

Lemma table_inv_init : table_inv (mkState [] ∅ ∅) 0.
Proof.
  constructor; cbn; [constructor | constructor | constructor | lia |].
  intros z. split; [intros H; by apply elem_of_empty in H |].
  intros (_ & k & H & _). by apply elem_of_nil in H.
Qed.

(** When [_aggregate_events] returns, its table is consistent: every scenario
    lists all buckets of [BUCKET_KEYS] in order, every metric has as many
    events as folds, calls and raises together, no scenario is empty, and each
    carries a canonical bet type and a hero position of the returned list; the
    scenarios have distinct keys and come in the order of their sort keys; no
    more events are counted than were given; the player counts are the
    non-zero counts of the scenarios, ascending and without repetition; and
    the hero positions come in the order of their ranks. *)
Theorem aggregate_events_table (events : list dict) (scenarios : list Scenario)
    (counts : list Z) (heroes : list string) :
  (forall (X : gset string) x, x ∈ set_order X <-> x ∈ X) ->
  _aggregate_events events = Ok (scenarios, counts, heroes) ->
  Forall (fun s => m_bucket_key <$> s_metrics s = BUCKET_KEYS
                   /\ Forall metric_balanced (s_metrics s)
                   /\ (1 <= scenario_events s)%nat
                   /\ s_hero_position s ∈ heroes
                   /\ s_bet_type s ∈ BET_TYPE_OPTIONS) scenarios
  /\ NoDup (scenario_key <$> scenarios)
  /\ StronglySorted (fun a b => tuple_le (scenario_sort_key (scenario_key a))
                                        (scenario_sort_key (scenario_key b))) scenarios
  /\ (sum_list (scenario_events <$> scenarios) <= length events)%nat
  /\ StronglySorted Z.le counts /\ NoDup counts
  /\ (forall z, z ∈ counts <-> z <> 0%Z /\ exists s, s ∈ scenarios /\ s_player_count s = z)
  /\ StronglySorted (fun a b => (rank_in HERO_POSITION_ORDER a <= rank_in HERO_POSITION_ORDER b)%Z)
                    heroes.
Proof.
  intros Horder. unfold FlopResponseMatrix._aggregate_events.
  destruct (aggregate_loop (mkState [] ∅ ∅) events) as [st |] eqn:Hloop; [| discriminate].
  intros [= <- <- <-].
  pose proof (table_inv_loop events _ st 0 table_inv_init Hloop) as [Hnd Hmaps Hkeys Htotal Hcounts].
  set (sorted := sorted_by_tuple (fun item => scenario_sort_key item.1) (aggregate st)).
  assert (Hperm : sorted ≡ₚ aggregate st) by apply sorted_by_tuple_perm.
  assert (Hkey : scenario_key <$> (scenario_of <$> sorted) = sorted.*1).
  { rewrite <- list_fmap_compose. apply list_fmap_ext. intros i item _. apply scenario_of_key. }
  split_and!.
  - apply Forall_fmap. rewrite Hperm. apply Forall_forall. intros item Hitem.
    rewrite Forall_forall in Hmaps. destruct (Hmaps item Hitem) as (Hok & _ & Hrow).
    rewrite Forall_forall in Hkeys.
    destruct (Hkeys item.1) as [Hh Hb]; [apply list_elem_of_fmap; by exists item |].
    cbn. split; [apply scenario_of_buckets |]. split; [by apply scenario_of_balanced |].
    split; [by rewrite scenario_of_events |].
    rewrite PositionFacts.sorted_by_perm, Horder.
    destruct item as [[[[? ?] ?] ?] ?]. done.
  - rewrite Hkey, Hperm. done.
  - apply (StronglySorted_fmap scenario_of
             (fun a b => tuple_le (scenario_sort_key a.1) (scenario_sort_key b.1))).
    + intros a b. by rewrite !scenario_of_key.
    + apply (sorted_by_tuple_sorted (fun item => scenario_sort_key item.1)).
  - rewrite <- list_fmap_compose.
    assert (E : (scenario_events ∘ scenario_of) <$> sorted
                = (fun item => row_total item.2) <$> sorted).
    { apply list_fmap_ext. intros i item _. apply scenario_of_events. }
    rewrite E, (sum_list_perm _ ((fun item => row_total item.2) <$> aggregate st)); [done |].
    by rewrite Hperm.
  - apply (StronglySorted_merge_sort Z.le); apply _.
  - rewrite merge_sort_Permutation. apply NoDup_elements.
  - intros z. rewrite merge_sort_Permutation, elem_of_elements, Hcounts.
    split; intros (Hz & x & Hx & Hxz); (split; [done |]).
    + apply list_elem_of_fmap in Hx as (item & -> & Hitem).
      exists (scenario_of item). split.
      * apply list_elem_of_fmap. exists item. by rewrite Hperm.
      * rewrite <- Hxz. by destruct item as [[[[? ?] ?] ?] ?].
    + apply list_elem_of_fmap in Hx as (item & -> & Hitem). rewrite Hperm in Hitem.
      exists item.1. split; [apply list_elem_of_fmap; by exists item |].
      rewrite <- Hxz. by destruct item as [[[[? ?] ?] ?] ?].
  - apply sorted_by_sorted.
Qed.

(** *** Events of the builder *)

(** The bucket under which the matrix shows an event of the builder: all-in
    bets and one-big-blind bets have their own buckets, whatever their size. *)
Definition shown_bucket (e : FlopMatrix.Event) : string :=
  if FlopMatrix.is_all_in e then "all_in"
  else if FlopMatrix.is_one_bb e then "one_bb"
  else FlopMatrix.bucket_key e.

Definition shown_key (e : FlopMatrix.Event) : ScenarioKey :=
  (if truthy (FlopMatrix.hero_position e) then FlopMatrix.hero_position e else "UNKNOWN",
   bet_type_name (FlopMatrix.bet_type e),
   if FlopMatrix.in_position e then "IP" else "OOP",
   Z.of_nat (FlopMatrix.player_count e)).

Lemma builder_fields (e : FlopMatrix.Event) :
  hero_position_of (event_dict e)
  = (if truthy (FlopMatrix.hero_position e) then FlopMatrix.hero_position e else "UNKNOWN")
  /\ _normalise_bet_type (get (event_dict e) "bet_type")
     = Some (bet_type_name (FlopMatrix.bet_type e))
  /\ position_of (event_dict e) = (if FlopMatrix.in_position e then "IP" else "OOP")
  /\ player_count_raw_of (event_dict e) = PInt (Z.of_nat (FlopMatrix.player_count e))
  /\ _bucket_for_event (event_dict e) = Ok (Some (shown_bucket e)).
Proof.
  destruct e as [hp bt ip pc r bk ai ob vo]. unfold shown_bucket.
  cbn [FlopMatrix.hero_position FlopMatrix.bet_type FlopMatrix.in_position
       FlopMatrix.player_count FlopMatrix.bucket_key FlopMatrix.is_all_in FlopMatrix.is_one_bb].
  split_and!.
  - reflexivity.
  - destruct bt; reflexivity.
  - reflexivity.
  - reflexivity.
  - destruct ai, ob; reflexivity.
Qed.

Lemma builder_step (st : State) (e : FlopMatrix.Event) :
  Forall (fun item => map_ok item.2 /\ map_full item.2 /\ (1 <= row_total item.2)%nat)
         (aggregate st) ->
  shown_bucket e ∈ BUCKET_KEYS ->
  exists st', aggregate_step st (event_dict e) = Ok st'
              /\ counted_in st st' (shown_key e) (shown_bucket e).
Proof.
  intros Hmaps Hb. rewrite aggregate_step_eq. cbv zeta.
  destruct (builder_fields e) as (-> & Hbt & -> & -> & ->). rewrite Hbt.
  cbn [py_int count_of]. fold (shown_key e).
  destruct (lookup_default_ok (shown_key e) (aggregate st) Hmaps) as [Hok Hfull].
  destruct (Hfull _ Hb) as [x Hx]. rewrite Hx.
  eexists. split; [reflexivity |].
  exists (outcome_of (event_dict e)), x. cbv zeta.
  cbn [aggregate player_counts hero_positions].
  split; [exact Hx |]. split; [done |]. split; [done |]. split.
  - apply elem_of_union_r, elem_of_singleton. reflexivity.
  - unfold shown_key. cbn [fst snd]. destruct (FlopMatrix.bet_type e); compute_done.
Qed.

Definition measure_sum (mu : gmap string Metrics -> nat) (agg : table) : nat :=
  sum_list ((fun item => mu item.2) <$> agg).

Definition builder_ok (e : FlopMatrix.Event) : Prop :=
  shown_bucket e ∈ BUCKET_KEYS /\ (2 <= FlopMatrix.player_count e)%nat.

Lemma builder_loop (es : list FlopMatrix.Event) (st : State) (n : nat) :
  Forall builder_ok es -> table_inv st n ->
  exists st',
    aggregate_loop st (event_dict <$> es) = Ok st'
    /\ measure_sum row_total (aggregate st')
       = (measure_sum row_total (aggregate st) + length es)%nat
    /\ (forall b,
          measure_sum (fun m => events (cell m b)) (aggregate st')
          = (measure_sum (fun m => events (cell m b)) (aggregate st)
             + length (filter (fun e => shown_bucket e = b) es))%nat)
    /\ (forall z, z ∈ player_counts st' -> z ∈ player_counts st \/ (2 <= z)%Z).
Proof.
  intros Hes. revert st n. induction Hes as [| e es [Hb Hpc] _ IH]; intros st n Hinv.
  - exists st. cbn. split; [done |]. split; [lia |]. split; [intros; lia | tauto].
  - destruct (builder_step st e (inv_maps _ _ Hinv) Hb) as (st1 & Hstep & Hc).
    destruct (IH st1 (S n) (table_inv_step st st1 _ n Hinv Hstep))
      as (st' & Hloop & Htot & Hcol & Hcounts).
    exists st'. rewrite fmap_cons. cbn [FlopResponseMatrix.aggregate_loop]. rewrite Hstep.
    split; [done |].
    destruct Hc as (o & x & Hx & Hagg & Hpcs & _). cbv zeta in Hx, Hagg.
    destruct (lookup_default_ok (shown_key e) (aggregate st) (inv_maps _ _ Hinv)) as [Hok Hfull].
    set (m := default default_bucket_map (lookup_scenario (shown_key e) (aggregate st))) in *.
    split_and!.
    + rewrite Htot, Hagg. unfold measure_sum.
      pose proof (store_scenario_sum row_total (shown_key e)
                    (<[shown_bucket e := count_outcome o x]> m) (aggregate st)
                    row_total_default) as Hsum.
      fold m in Hsum. rewrite row_total_insert in Hsum by done. cbn [length]. lia.
    + intros b. rewrite Hcol, Hagg. unfold measure_sum.
      pose proof (store_scenario_sum (fun m => events (cell m b)) (shown_key e)
                    (<[shown_bucket e := count_outcome o x]> m) (aggregate st)) as Hsum.
      cbv beta in Hsum. rewrite cell_default in Hsum. specialize (Hsum eq_refl).
      fold m in Hsum. rewrite (cell_insert m _ o b x Hx) in Hsum.
      rewrite filter_cons. destruct (decide (b = shown_bucket e)) as [-> | Hne].
      * rewrite decide_True by done. cbn [length]. lia.
      * rewrite decide_False by done. lia.
    + intros z Hz. destruct (Hcounts z Hz) as [Hz1 | ?]; [| by right].
      rewrite Hpcs in Hz1. unfold shown_key in Hz1. cbn [snd] in Hz1.
      destruct (Z.of_nat (FlopMatrix.player_count e) =? 0)%Z; [by left |].
      apply elem_of_union in Hz1 as [? | Hz1]; [by left | right].
      apply elem_of_singleton in Hz1 as ->. lia.
Qed.

(** The events of a bucket in a scenario, and over all scenarios. *)
Definition bucket_events (b : string) (s : Scenario) : nat :=
  sum_list (m_events <$> filter (fun m => m_bucket_key m = b) (s_metrics s)).

Lemma scenario_of_bucket (b : string) (item : ScenarioKey * gmap string Metrics) :
  b ∈ BUCKET_KEYS -> bucket_events b (scenario_of item) = events (cell item.2 b).
Proof.
  intros Hb. destruct item as [[[[? ?] ?] ?] m].
  unfold BUCKET_KEYS, BUCKET_METADATA, BET_SIZE_BUCKETS in Hb. cbn in Hb.
  repeat (apply elem_of_cons in Hb as [-> | Hb]);
    [match goal with |- _ = ?r => exact (Nat.add_0_r r) end .. | by apply elem_of_nil in Hb].
Qed.

Lemma builder_ok_collect (rows : list (option FlopMatrix.Hand)) (max_hands : option Z) :
  Forall builder_ok (FlopCollect.collect_flop_bet_events rows max_hands).
Proof.
  apply FlopCollectFacts.collect_loop_Forall; [| constructor].
  intros h. destruct (FlopEventFacts.hand_events_ok h) as [label Hall].
  eapply Forall_impl; [exact Hall |]. intros e (_ & Hpc & _ & bucket & Hin & Hkey & _).
  split; [| done]. unfold shown_bucket.
  destruct (FlopMatrix.is_all_in e); [compute_done |].
  destruct (FlopMatrix.is_one_bb e); [compute_done |].
  rewrite Hkey. unfold BUCKET_KEYS, BUCKET_METADATA. rewrite fmap_app, <- list_fmap_compose.
  apply elem_of_app. left. apply list_elem_of_fmap. by exists bucket.
Qed.

(** The matrix builder's events always aggregate: for whatever the collector
    returns, [_aggregate_events] raises nothing and counts every event once,
    under the bucket [shown_bucket] of the event, so that an all-in bet is
    never counted in its size bucket; every player count is two or more. *)
Theorem builder_events_all_counted (rows : list (option FlopMatrix.Hand))
    (max_hands : option Z) :
  let es := FlopCollect.collect_flop_bet_events rows max_hands in
  exists scenarios counts heroes,
    _aggregate_events (event_dict <$> es) = Ok (scenarios, counts, heroes)
    /\ sum_list (scenario_events <$> scenarios) = length es
    /\ (forall b, b ∈ BUCKET_KEYS ->
          sum_list (bucket_events b <$> scenarios)
          = length (filter (fun e => shown_bucket e = b) es))
    /\ Forall (fun z => (2 <= z)%Z) counts.
Proof.
  cbv zeta. set (es := FlopCollect.collect_flop_bet_events rows max_hands).
  destruct (builder_loop es (mkState [] ∅ ∅) 0 (builder_ok_collect rows max_hands) table_inv_init)
    as (st & Hloop & Htot & Hcol & Hcounts).
  unfold FlopResponseMatrix._aggregate_events. rewrite Hloop.
  eexists _, _, _. split; [reflexivity |].
  set (sorted := sorted_by_tuple (fun item => scenario_sort_key item.1) (aggregate st)).
  assert (Hperm : sorted ≡ₚ aggregate st) by apply sorted_by_tuple_perm.
  split_and!.
  - rewrite <- list_fmap_compose.
    assert (E : (scenario_events ∘ scenario_of) <$> sorted
                = (fun item => row_total item.2) <$> sorted).
    { apply list_fmap_ext. intros i item _. apply scenario_of_events. }
    rewrite E, (sum_list_perm _ ((fun item => row_total item.2) <$> aggregate st))
      by (by rewrite Hperm).
    exact Htot.
  - intros b Hb. rewrite <- list_fmap_compose.
    assert (E : (bucket_events b ∘ scenario_of) <$> sorted
                = (fun item => events (cell item.2 b)) <$> sorted).
    { apply list_fmap_ext. intros i item _. by apply scenario_of_bucket. }
    rewrite E, (sum_list_perm _ ((fun item => events (cell item.2 b)) <$> aggregate st))
      by (by rewrite Hperm).
    exact (Hcol b).
  - apply Forall_forall. intros z Hz.
    rewrite merge_sort_Permutation, elem_of_elements in Hz.
    destruct (Hcounts z Hz) as [H | H]; [by apply elem_of_empty in H | done].
Qed.

End builtins.

(** Two cached events in the legacy layout: a half-pot continuation bet that
    was called, and a donk bet that was raised. *)
Definition cached_events : list dict := [
  list_to_map [("bet_type", PStr "cbet"); ("in_position", PBool true);
               ("flop_players", PInt 2); ("ratio", PFloat (Fin 0.5));
               ("responses", PList [PDict (list_to_map [("response", PStr "Call")])])];
  list_to_map [("hero_position", PStr "BB"); ("bet_type", PStr " Donk "); ("position", PStr "OOP");
               ("player_count", PInt 3); ("bucket_key", PStr "pct_25_40");
               ("villain_outcome", PStr "raise")]
].

Lemma aggregate_events_table_witness :
  match _aggregate_events (fun _ => None) (fun _ => None) elements cached_events with
  | Ok (scenarios, counts, heroes) =>
      NoDup (scenario_key <$> scenarios)
      /\ (sum_list (scenario_events <$> scenarios) <= 2)%nat
      /\ counts = [2; 3]%Z
      /\ heroes = ["BB"; "UNKNOWN"]
  | Raise _ => False
  end.
Proof.
  destruct (_aggregate_events (fun _ => None) (fun _ => None) elements cached_events)
    as [[[scenarios counts] heroes] | e] eqn:E; [| vm_compute in E; discriminate].
  pose proof (aggregate_events_table _ _ elements cached_events scenarios counts heroes
                (fun X x => elem_of_elements X x) E)
    as (_ & Hnd & _ & Hsum & _).
  split; [exact Hnd |]. split; [exact Hsum |].
  vm_compute in E. injection E as _ <- <-. split; reflexivity.
Defined.

End ResponseMatrixFacts.

(** ** flop_loader.py: the summary *)

Module FlopLoaderFacts.
Import Py BetSizing PyObj FlopLoader.

(** *** Counters *)

Lemma get0_after_add (k k' : string) (c : list (string * nat)) :
  get0 (counter_add k c) k' = (get0 c k' + if decide (k' = k) then 1 else 0)%nat.
Proof.
  induction c as [| [k0 n] c IH]; cbn [counter_add get0].
  - destruct (decide (k' = k)); reflexivity.
  - destruct (decide (k = k0)) as [-> | Hne]; cbn [get0].
    + destruct (decide (k' = k0)); lia.
    + destruct (decide (k' = k0)) as [-> | Hne'].
      * rewrite decide_False by done. lia.
      * apply IH.
Qed.

Lemma get0_after_all (keys : list string) (k' : string) (c : list (string * nat)) :
  NoDup keys ->
  get0 (foldl (fun c k => counter_add k c) c keys) k'
  = (get0 c k' + if decide (k' ∈ keys) then 1 else 0)%nat.
Proof.
  intros Hnd. revert c. induction Hnd as [| k keys Hk Hnd IH]; intros c; cbn [foldl].
  - rewrite decide_False by apply not_elem_of_nil. lia.
  - rewrite IH, get0_after_add. destruct (decide (k' = k)) as [-> | Hne].
    + rewrite decide_False by done. rewrite decide_True by apply list_elem_of_here. lia.
    + destruct (decide (k' ∈ keys)) as [Hin | Hout].
      * rewrite decide_True by (by apply list_elem_of_further). lia.
      * rewrite decide_False; [lia |]. intros [? | ?]%elem_of_cons; done.
Qed.

Lemma bucket_for_ratio_in (ratio : option pyfloat) (b : BetSizeBucket) :
  bucket_for_ratio ratio = Some b -> b ∈ BET_SIZE_BUCKETS.
Proof.
  unfold bucket_for_ratio. destruct ratio as [r |]; [| discriminate].
  destruct (fne r r); [discriminate |]. destruct (flt r (Fin 0)); [discriminate |].
  destruct (List.find (fun b => contains b r) BET_SIZE_BUCKETS) as [b' |] eqn:Hfind.
  - intros [= <-]. apply find_some in Hfind as [Hin _]. by apply list_elem_of_In.
  - intros H. vm_compute in H. injection H as <-.
    do 8 apply list_elem_of_further. apply list_elem_of_here.
Qed.

Lemma bucket_keys_NoDup : NoDup (key <$> BET_SIZE_BUCKETS).
Proof. compute_done. Qed.

(** *** The summary *)

Section builtins.
Variable str_to_float : string -> option pyfloat.

Local Abbreviation _normalise_ratio := (_normalise_ratio str_to_float).
Local Abbreviation summary_step := (summary_step str_to_float).
Local Abbreviation summary_loop := (summary_loop str_to_float).
Local Abbreviation load_flop_bet_summary := (load_flop_bet_summary str_to_float).

(** The key of the bucket that a row is counted in, if any. *)
Definition row_bucket (row : Row) : option string :=
  match _normalise_ratio (bet_ratio row) with
  | Ok ratio => key <$> bucket_for_ratio ratio
  | Raise _ => None
  end.

Definition has_texture (k : string) (row : Row) : Prop :=
  k ∈ Textures.texture_keys (board_flop row).

#[local] Instance has_texture_dec (k : string) (row : Row) : Decision (has_texture k row).
Proof. unfold has_texture. apply _. Defined.

(** A row whose ratio [float] can convert, or refuses with an error that
    the loader catches. *)
Definition converts (row : Row) : Prop := py_float str_to_float (bet_ratio row) <> Overflow.

Lemma normalise_ratio_converts (row : Row) :
  converts row -> exists ratio, _normalise_ratio (bet_ratio row) = Ok ratio.
Proof.
  unfold converts, FlopLoader._normalise_ratio. intros Hc.
  destruct (py_float str_to_float (bet_ratio row)) as [r | |]; [| | done].
  - destruct (bet_ratio row); try (by eexists); destruct (flt r (Fin 0)); by eexists.
  - destruct (bet_ratio row); by eexists.
Qed.

Lemma summary_loop_spec (rows : list Row) (bucket_counts texture_counts : list (string * nat))
    (events : nat) :
  Forall converts rows ->
  exists bucket_counts' texture_counts',
    summary_loop (bucket_counts, texture_counts, events) rows
    = Ok (bucket_counts', texture_counts', (events + length rows)%nat)
    /\ (forall k, get0 bucket_counts' k
                  = (get0 bucket_counts k
                     + length (filter (fun row => row_bucket row = Some k) rows))%nat)
    /\ (forall k, get0 texture_counts' k
                  = (get0 texture_counts k + length (filter (has_texture k) rows))%nat).
Proof.
  intros Hrows. revert bucket_counts texture_counts events.
  induction Hrows as [| row rows Hrow _ IH]; intros bucket_counts texture_counts events.
  - exists bucket_counts, texture_counts. cbn. rewrite Nat.add_0_r.
    split; [done |]. split; intros k; lia.
  - destruct (normalise_ratio_converts row Hrow) as [ratio Hratio].
    destruct (IH (match bucket_for_ratio ratio with
                  | Some bucket => counter_add (key bucket) bucket_counts
                  | None => bucket_counts
                  end)
                 (foldl (fun c k => counter_add k c) texture_counts
                        (Textures.texture_keys (board_flop row)))
                 (S events)) as (bc' & tc' & Hloop & Hb & Ht).
    exists bc', tc'.
    assert (Hstep : summary_step (bucket_counts, texture_counts, events) row
                    = Ok (match bucket_for_ratio ratio with
                          | Some bucket => counter_add (key bucket) bucket_counts
                          | None => bucket_counts
                          end,
                          foldl (fun c k => counter_add k c) texture_counts
                                (Textures.texture_keys (board_flop row)),
                          S events)).
    { unfold FlopLoader.summary_step. by rewrite Hratio. }
    cbn [FlopLoader.summary_loop]. rewrite Hstep, Hloop. cbn [length].
    split; [f_equal; f_equal; lia |]. split; intros k.
    + assert (Hrb : row_bucket row = key <$> bucket_for_ratio ratio).
      { unfold row_bucket. by rewrite Hratio. }
      rewrite Hb, filter_cons, Hrb.
      destruct (bucket_for_ratio ratio) as [b |]; cbn [fmap option_fmap option_map].
      * rewrite get0_after_add. destruct (decide (k = key b)) as [-> | Hne].
        -- rewrite decide_True by done. cbn [length]. lia.
        -- rewrite decide_False by congruence. lia.
      * rewrite decide_False by done. lia.
    + rewrite Ht, filter_cons, get0_after_all
        by apply TextureTokenFacts.texture_keys_NoDup.
      unfold has_texture at 2.
      destruct (decide (k ∈ Textures.texture_keys (board_flop row))); cbn [length]; lia.
Qed.

Lemma bucket_counts_sum (rows : list Row) :
  sum_list ((fun k => length (filter (fun row => row_bucket row = Some k) rows))
              <$> (key <$> BET_SIZE_BUCKETS))
  = length (filter (fun row => is_Some (row_bucket row)) rows).
Proof.
  induction rows as [| row rows IH]; [reflexivity |].
  rewrite (filter_cons (fun row => is_Some (row_bucket row))).
  destruct (row_bucket row) as [k |] eqn:Hk.
  - rewrite decide_True by (by eexists). cbn [length]. rewrite <- IH.
    apply (ResponseMatrixFacts.sum_list_bump _ _ k).
    + apply bucket_keys_NoDup.
    + unfold row_bucket in Hk. destruct (_normalise_ratio (bet_ratio row)) as [ratio |];
        [| discriminate].
      destruct (bucket_for_ratio ratio) as [b |] eqn:Hb; [| discriminate].
      injection Hk as <-. apply list_elem_of_fmap. exists b. split; [done |].
      by apply bucket_for_ratio_in in Hb.
    + intros k'. rewrite filter_cons, Hk. destruct (decide (k' = k)) as [-> | Hne].
      * rewrite decide_True by done. cbn [length]. lia.
      * rewrite decide_False by congruence. lia.
  - rewrite decide_False by (intros [? ?]; discriminate). rewrite <- IH.
    f_equal. apply list_fmap_ext. intros i k' _. rewrite filter_cons, Hk.
    by rewrite decide_False.
Qed.

(** The summary counts every row once as an event.  A row is counted in the
    bucket of its ratio, and in no bucket when the ratio is missing, unreadable,
    negative or not a number, so the bucket counts add up to the number of rows
    with a usable ratio; a row is counted once in each texture of its flop, so
    no texture count exceeds the number of events. *)
Theorem summary_counts (rows : list Row) :
  Forall converts rows ->
  exists summary,
    load_flop_bet_summary (Some rows) = Ok summary
    /\ s_events summary = length rows
    /\ s_buckets summary
       = (fun b => mkBucketCount (key b) (label b)
                     (length (filter (fun row => row_bucket row = Some (key b)) rows)))
           <$> BET_SIZE_BUCKETS
    /\ s_textures summary
       = (fun spec => mkTextureCount (Textures.key spec) (Textures.title spec)
                        (length (filter (has_texture (Textures.key spec)) rows)))
           <$> Textures.FLOP_TEXTURE_SPECS
    /\ sum_list (bc_count <$> s_buckets summary)
       = length (filter (fun row => is_Some (row_bucket row)) rows)
    /\ Forall (fun t => (tc_count t <= s_events summary)%nat) (s_textures summary).
Proof.
  intros Hrows. destruct (summary_loop_spec rows [] [] 0 Hrows) as (bc & tc & Hloop & Hb & Ht).
  unfold FlopLoader.load_flop_bet_summary. rewrite Hloop. eexists. split; [reflexivity |].
  cbn [summary_of s_events s_buckets s_textures].
  assert (Hbuckets :
    (fun bucket => mkBucketCount (key bucket) (label bucket) (get0 bc (key bucket)))
      <$> BET_SIZE_BUCKETS
    = (fun b => mkBucketCount (key b) (label b)
                  (length (filter (fun row => row_bucket row = Some (key b)) rows)))
        <$> BET_SIZE_BUCKETS).
  { apply list_fmap_ext. intros i b _. by rewrite Hb. }
  assert (Htextures :
    (fun spec => mkTextureCount (Textures.key spec) (Textures.title spec)
                   (get0 tc (Textures.key spec))) <$> Textures.FLOP_TEXTURE_SPECS
    = (fun spec => mkTextureCount (Textures.key spec) (Textures.title spec)
                     (length (filter (has_texture (Textures.key spec)) rows)))
        <$> Textures.FLOP_TEXTURE_SPECS).
  { apply list_fmap_ext. intros i spec _. by rewrite Ht. }
  rewrite Hbuckets, Htextures. split_and!; try done.
  - rewrite <- bucket_counts_sum, <- !list_fmap_compose. done.
  - apply Forall_fmap, Forall_forall. intros spec _. cbn. apply length_filter.
Qed.

End builtins.

(** Three rows: a half-pot bet on a rainbow flop, a row without a ratio, and
    a negative ratio on a flop that does not parse. *)
Definition summary_rows : list Row := [
  mkRow (PFloat (Fin 0.5)) (Some "Ah Kd 2c");
  mkRow PNone (Some "Ah Kh 2h");
  mkRow (PInt (-1)) (Some "xx")
].

Lemma summary_counts_witness :
  exists summary,
    load_flop_bet_summary (fun _ => None) (Some summary_rows) = Ok summary
    /\ s_events summary = 3%nat
    /\ sum_list (bc_count <$> s_buckets summary) = 1%nat.
Proof.
  destruct (summary_counts (fun _ => None) summary_rows) as (summary & Hload & He & _ & _ & Hs & _).
  { repeat constructor; discriminate. }
  exists summary. split; [exact Hload |]. split; [exact He |]. rewrite Hs. reflexivity.
Defined.

End FlopLoaderFacts.
